(** * Request governance of the Google Tag Manager provider's API client

    A shallow embedding of the Go package [api]: the token-bucket
    [RateLimiter], the retry wrappers ([executeWithRetry], [get...WithRetry])
    and the per-entity client operations built on them.

    Two revisions of the package are part of the sources:
    - the throttled client (package [api] with [RateLimiter]; in the sources
      its text follows that of [Makefile]), whose retry wrappers are methods
      of [Client] and call [c.throttle()];
    - the client of [internal/api/client.go], whose wrappers are the
      package-level functions [executeWithRetry] and [getResponseWithRetry]
      and which has no rate limiter.
    They are embedded as [Module Api] and [Module ApiGeneric].

    Of the package [provider], which uses the client, the file embeds
    [Configure] of the provider, the import of tags and triggers, the
    models of parameters and of tags with their [Equal], and
    [toApiParameter]; and it embeds the [TestCoordinator] that spaces the
    requests of the acceptance tests.

    Conventions of the embedding.
    - [int], [int64] and [time.Duration] values are integers [Z]; where Go
      computes a product in 64 bits the wrap-around is written as [wrap64].
    - [float64] is IEEE 754 binary64, taken from the standard library's
      [SpecFloat]: the token bucket is embedded with it as [Module IEEE],
      and what is proved of the balance of the bucket is proved there.  The
      retry wrappers use the limiter only to wait for admission; the
      limiter that a [World] holds for them keeps its balance as an exact
      rational [Q], without rounding, infinities and NaN.
    - A [time.Time] is its monotonic clock reading in nanoseconds, so [Sub] of
      two readings is their difference.
    - Go's [error] interface value is an [option error]; [None] is [nil].  A
      pointer held in an interface is never a [nil] pointer.
    - Effects (the clock, the limiter shared through [c.rateLimiter], the
      remote calls made, output and sleeps) are threaded through a [World];
      the loops that poll or retry take a [fuel] bound and report
      [OutOfFuel] when it is used up.  The clock of the world moves on when
      the program sleeps, by the time it asks for.
    - The mutex of [RateLimiter] is not represented: calls are sequential. *)

From Stdlib Require Import ZArith QArith Qpower Qround Qminmax List String Bool Lia Lqa.
From Stdlib Require Import SpecFloat.
From Stdlib Require Import DecimalString.
Import ListNotations.

Local Open Scope Z_scope.

(** ** Machine integers *)

Definition wrap64 (z : Z) : Z := (z + 2 ^ 63) mod 2 ^ 64 - 2 ^ 63.

Definition maxInt64 : Z := 2 ^ 63 - 1.

(** ** Package [time] *)

Module time.

Definition Duration := Z.
Definition Time := Z.

Definition Nanosecond : Duration := 1.
Definition Millisecond : Duration := 1000000.
Definition Second : Duration := 1000000000.

(** [t.Sub(u)] on monotonic readings. *)
Definition Sub (t u : Time) : Duration := t - u.

Arguments Sub (t u)%_Z.

(** [d.Seconds()] as an exact rational: the quotient and the remainder of
    [float64(d / Second) + float64(d % Second) / 1e9] without rounding.
    [IEEE.Seconds] is the same in [float64]. *)
Definition Seconds (d : Duration) : Q :=
  (inject_Z (Z.quot d Second) + inject_Z (Z.rem d Second) / inject_Z Second)%Q.

Arguments Seconds d%_Z.

End time.

Import time.

(** ** Package [googleapi] and error values *)

Module googleapi.

(** The fields of [googleapi.Error] the client reads. *)
Record Error := { Code : Z; Message : string }.

End googleapi.

(** The dynamic types an [error] can have here.  [ErrNotExist] is the
    package's sentinel [errors.New("not exist")], compared by identity. *)
Inductive error : Type :=
| GoogleapiError (e : googleapi.Error)
| ErrNotExist
| Errorf (msg : string)
| WrapError (msg : string) (inner : error).

(** The test [ok && errTyped.Code == code] after asserting that [err] has
    the dynamic type pointer-to-[googleapi.Error]. *)
Definition hasCode (code : Z) (err : option error) : bool :=
  match err with
  | Some (GoogleapiError e) => googleapi.Code e =? code
  | _ => false
  end.

(** [%d] of [fmt]. *)
Definition itoa (n : Z) : string := NilZero.string_of_int (Z.to_int n).

(** ** Package [tagmanager]: the payloads the client passes through *)

Module tagmanager.

Record Workspace := { WorkspaceId : string; WorkspaceName : string }.
Record Tag := { TagId : string; TagName : string }.
Record Variable' := { VariableId : string; VariableName : string }.
Record Trigger := { TriggerId : string; TriggerName : string }.

Record ListWorkspacesResponse := { Workspace_ : list Workspace }.
Record ListTagsResponse := { Tag_ : list Tag }.
Record ListVariablesResponse := { Variable_ : list Variable' }.
Record ListTriggersResponse := { Trigger_ : list Trigger }.

End tagmanager.

(** ** The token bucket as the retry wrappers use it

    The limiter that the client shares through [c.rateLimiter], with its
    balance, capacity and rate as exact rationals: what the wrappers need of
    it is that [Wait()] lets them through at some poll.  [Module IEEE]
    below is the bucket in [float64]. *)

Record RateLimiter := {
  tokens : Q;
  capacity : Q;
  refillRate : Q;
  lastRefill : Time
}.

(** [NewRateLimiter(rate, burst)], called when the clock reads [now]. *)
Definition NewRateLimiter (rate : Q) (burst : Z) (now : Time) : RateLimiter :=
  {| tokens := inject_Z burst;
     capacity := inject_Z burst;
     refillRate := rate;
     lastRefill := now |}.

Arguments NewRateLimiter rate%_Q burst%_Z now%_Z.

Definition Qlt_bool (a b : Q) : bool := negb (Qle_bool b a).

(** [func min(a, b float64) float64] *)
Definition min (a b : Q) : Q := if Qlt_bool a b then a else b.

(** [rl.Allow()], called when the clock reads [now]: the result and the
    limiter afterwards. *)
Definition Allow (rl : RateLimiter) (now : Time) : bool * RateLimiter :=
  let elapsed := Seconds (Sub now (lastRefill rl)) in
  let tokens1 := min (capacity rl) (tokens rl + elapsed * refillRate rl)%Q in
  if Qle_bool 1 tokens1 then
    (true, {| tokens := (tokens1 - 1)%Q; capacity := capacity rl;
              refillRate := refillRate rl; lastRefill := now |})
  else
    (false, {| tokens := tokens1; capacity := capacity rl;
               refillRate := refillRate rl; lastRefill := now |}).

Arguments Allow rl now%_Z.

(** Conversion [time.Duration(x)] of a float: truncation toward zero, and
    the smallest [int64] for a number that [int64] does not hold, as on
    amd64 (Go leaves that case to the implementation). *)
Definition float64_to_int64 (x : Q) : Z :=
  let z := Z.quot (Qnum x) (Zpos (Qden x)) in
  if (- 2 ^ 63 <=? z) && (z <? 2 ^ 63) then z else - 2 ^ 63.

(** The pause between two polls of [Wait]:
    [time.Duration(1000/rl.refillRate) * time.Millisecond], kept within
    10ms and 1s. *)
Definition waitTime (rl : RateLimiter) : Duration :=
  let waitTime := wrap64 (float64_to_int64 (1000 / refillRate rl)%Q * Millisecond) in
  if waitTime <? 10 * Millisecond then 10 * Millisecond
  else if waitTime >? 1 * Second then 1 * Second
  else waitTime.

(** ** The world the client runs in *)

Inductive Event : Type :=
| EvAllow (ok : bool)        (* an [Allow()] made by [Wait] returned [ok] *)
| EvWaitSleep (d : Duration) (* [time.Sleep(waitTime)] in [Wait] *)
| EvQuery (n : nat)          (* the remote call number [n]: [query()] *)
| EvPrintf (d : Duration)    (* "Rate limit exceeded. Retrying in %s..." *)
| EvBackoff (d : Duration).  (* [time.Sleep(backoffDuration)] of a wrapper *)

Record World := {
  clock : Time;                    (* what [time.Now()] reads *)
  limiter : option RateLimiter;    (* [c.rateLimiter]: [None] is [nil] *)
  calls : nat;                     (* remote calls made so far *)
  trace : list Event               (* what happened, oldest first *)
}.

Inductive Res (A : Type) : Type :=
| Done (a : A) (w : World)
| OutOfFuel (w : World)
| Panic (w : World).

Arguments Done {A} a w.
Arguments OutOfFuel {A} w.
Arguments Panic {A} w.

Definition M (A : Type) : Type := World -> Res A.

Definition ret {A} (a : A) : M A := fun w => Done a w.

Definition bind {A B} (m : M A) (k : A -> M B) : M B :=
  fun w =>
    match m w with
    | Done a w1 => k a w1
    | OutOfFuel w1 => OutOfFuel w1
    | Panic w1 => Panic w1
    end.

Notation "x <- m ;; k" := (bind m (fun x => k))
  (at level 61, m at next level, right associativity).
Notation "m ;;; k" := (bind m (fun _ => k))
  (at level 61, right associativity).

Definition world_of {A} (r : Res A) : World :=
  match r with
  | Done _ w => w
  | OutOfFuel w => w
  | Panic w => w
  end.

Definition log (e : Event) : M unit :=
  fun w => Done tt {| clock := clock w; limiter := limiter w;
                      calls := calls w; trace := trace w ++ [e] |}.

(** [time.Sleep(d)] returns at once when [d <= 0]. *)
Definition advance (d : Duration) : M unit :=
  fun w => Done tt {| clock := clock w + Z.max 0 d; limiter := limiter w;
                      calls := calls w; trace := trace w |}.

(** [rl.Allow()] on the shared limiter; a [nil] receiver panics. *)
Definition AllowShared : M bool :=
  fun w =>
    match limiter w with
    | None => Panic w
    | Some rl =>
        let (ok, rl1) := Allow rl (clock w) in
        Done ok {| clock := clock w; limiter := Some rl1;
                   calls := calls w; trace := trace w ++ [EvAllow ok] |}
    end.

Definition waitTimeShared : M Duration :=
  fun w =>
    match limiter w with
    | None => Panic w
    | Some rl => Done (waitTime rl) w
    end.

(** [rl.Wait()]: poll [Allow()] until it admits, sleeping in between. *)
Fixpoint Wait (fuel : nat) : M unit :=
  match fuel with
  | O => fun w => OutOfFuel w
  | S fuel1 =>
      ok <- AllowShared ;;
      if ok then ret tt
      else
        d <- waitTimeShared ;;
        log (EvWaitSleep d) ;;; advance d ;;; Wait fuel1
  end.

(** A remote call [query()]: what the call number [n] returns.  A call with
    a payload returns a pointer (or [nil]) and an error (or [nil]). *)
Definition Query (R : Type) : Type := nat -> option R * option error.
Definition QueryErr : Type := nat -> option error.

Definition call {R} (query : Query R) : M (option R * option error) :=
  fun w => Done (query (calls w))
             {| clock := clock w; limiter := limiter w;
                calls := S (calls w); trace := trace w ++ [EvQuery (calls w)] |}.

Definition callErr (query : QueryErr) : M (option error) :=
  fun w => Done (query (calls w))
             {| clock := clock w; limiter := limiter w;
                calls := S (calls w); trace := trace w ++ [EvQuery (calls w)] |}.

(** The two statements every wrapper runs before a retry. *)
Definition Printf (d : Duration) : M unit := log (EvPrintf d).
Definition Sleep (d : Duration) : M unit := log (EvBackoff d) ;;; advance d.

Definition panic {A} : M A := fun w => Panic w.

(** ** The throttled client *)

Module Api.

Record ClientOptions := {
  CredentialFile : string;
  AccountId : string;
  ContainerId : string;
  RetryLimit : Z;
  RateLimit : Q;
  RateBurst : Z;
  ThrottleEnabled : bool
}.

Definition EnvCredentialFile : string := "GTM_CREDENTIAL_FILE".
Definition EnvAccountId : string := "GTM_ACCOUNT_ID".
Definition EnvContainerId : string := "GTM_CONTAINER_ID".
Definition EnvWorkspaceName : string := "GTM_WORKSPACE_NAME".
Definition EnvRetryLimit : string := "GTM_RETRY_LIMIT".
Definition EnvRateLimit : string := "GTM_RATE_LIMIT".
Definition EnvRateBurst : string := "GTM_RATE_BURST".
Definition EnvThrottleEnabled : string := "GTM_THROTTLE_ENABLED".

(** The process environment and what the library parsers make of a value:
    [os.Getenv]; the integer that [fmt.Sscanf] with the verb [%d] reads;
    [strconv.ParseFloat], [strconv.Atoi] and [strconv.ParseBool].  [None]
    stands for a parser's error. *)
Record Environ := {
  Getenv : string -> string;
  Sscanf_d : string -> option Z;
  ParseFloat : string -> option Q;
  Atoi : string -> option Z;
  ParseBool : string -> option bool
}.

Definition isEmpty (s : string) : bool :=
  match s with EmptyString => true | String _ _ => false end.

(** [NewClientOptionsFromEnv()].  [Sscanf] returns the number of items it
    read, 1 when it reads the integer: the test [retryLimitVal <= 0] then
    fails and the integer read is kept, whatever its sign. *)
Definition NewClientOptionsFromEnv (env : Environ) : ClientOptions :=
  let retryLimit :=
    if isEmpty (Getenv env EnvRetryLimit) then 10
    else match Sscanf_d env (Getenv env EnvRetryLimit) with
         | Some n => n
         | None => 10
         end in
  let rateLimit :=
    let rateLimitEnv := Getenv env EnvRateLimit in
    if isEmpty rateLimitEnv then 10%Q
    else match ParseFloat env rateLimitEnv with
         | Some val => if Qlt_bool 0 val then val else 10%Q
         | None => 10%Q
         end in
  let rateBurst :=
    let rateBurstEnv := Getenv env EnvRateBurst in
    if isEmpty rateBurstEnv then 20
    else match Atoi env rateBurstEnv with
         | Some val => if val >? 0 then val else 20
         | None => 20
         end in
  let throttleEnabled :=
    let throttleEnv := Getenv env EnvThrottleEnabled in
    if isEmpty throttleEnv then true
    else match ParseBool env throttleEnv with
         | Some val => val
         | None => true
         end in
  {| CredentialFile := Getenv env EnvCredentialFile;
     AccountId := Getenv env EnvAccountId;
     ContainerId := Getenv env EnvContainerId;
     RetryLimit := retryLimit;
     RateLimit := rateLimit;
     RateBurst := rateBurst;
     ThrottleEnabled := throttleEnabled |}.

(** The request builders of the embedded [tagmanager.Service] that the
    client uses; each gives the [Do] closure of the request for a path. *)
Record Service := {
  Workspaces_Create : string -> option tagmanager.Workspace -> Query tagmanager.Workspace;
  Workspaces_List : string -> Query tagmanager.ListWorkspacesResponse;
  Workspaces_Get : string -> Query tagmanager.Workspace;
  Workspaces_Update : string -> option tagmanager.Workspace -> Query tagmanager.Workspace;
  Workspaces_Delete : string -> QueryErr;
  Tags_Create : string -> option tagmanager.Tag -> Query tagmanager.Tag;
  Tags_List : string -> Query tagmanager.ListTagsResponse;
  Tags_Get : string -> Query tagmanager.Tag;
  Tags_Update : string -> option tagmanager.Tag -> Query tagmanager.Tag;
  Tags_Delete : string -> QueryErr;
  Variables_Create : string -> option tagmanager.Variable' -> Query tagmanager.Variable';
  Variables_List : string -> Query tagmanager.ListVariablesResponse;
  Variables_Get : string -> Query tagmanager.Variable';
  Variables_Update : string -> option tagmanager.Variable' -> Query tagmanager.Variable';
  Variables_Delete : string -> QueryErr;
  Triggers_Create : string -> option tagmanager.Trigger -> Query tagmanager.Trigger;
  Triggers_List : string -> Query tagmanager.ListTriggersResponse;
  Triggers_Get : string -> Query tagmanager.Trigger;
  Triggers_Update : string -> option tagmanager.Trigger -> Query tagmanager.Trigger;
  Triggers_Delete : string -> QueryErr
}.

(** [Client]; its field [rateLimiter] is the [limiter] of the [World]. *)
Record Client := {
  Service_ : Service;
  Options : ClientOptions
}.

(** [NewClient(opts)]; [newService] stands for [tagmanager.NewService]
    with the credentials file of [opts], which gives a service or an
    error. *)
Definition NewClient (newService : string -> Service + error)
    (opts : ClientOptions) : M (option Client * option error) :=
  fun w =>
    match newService (CredentialFile opts) with
    | inr err => Done (None, Some err) w
    | inl srv =>
        let rateLimiter :=
          if ThrottleEnabled opts
          then Some (NewRateLimiter (RateLimit opts) (RateBurst opts) (clock w))
          else None in
        Done (Some {| Service_ := srv; Options := opts |}, None)
             {| clock := clock w; limiter := rateLimiter;
                calls := calls w; trace := trace w |}
    end.

(** [NewClientFromEnv()] *)
Definition NewClientFromEnv (env : Environ)
    (newService : string -> Service + error)
    : M (option Client * option error) :=
  NewClient newService (NewClientOptionsFromEnv env).

Definition containerPath (c : Client) : string :=
  ("accounts/" ++ AccountId (Options c) ++ "/containers/" ++ ContainerId (Options c))%string.

Definition workspacePath (c : Client) (id : string) : string :=
  (containerPath c ++ "/workspaces/" ++ id)%string.

(** [c.throttle()] *)
Definition throttle (fuel : nat) (c : Client) : M unit :=
  fun w =>
    match limiter w with
    | Some _ => Wait fuel w
    | None => Done tt w
    end.

(** [c.executeWithRetry(query)]; the loop is entered with [retryCount = 0]. *)
Fixpoint executeWithRetry_loop (fuel : nat) (c : Client) (query : QueryErr)
    (retryCount : Z) : M (option error) :=
  match fuel with
  | O => fun w => OutOfFuel w
  | S fuel1 =>
      throttle fuel1 c ;;;
      err <- callErr query ;;
      if hasCode 429 err then
        if retryCount <? RetryLimit (Options c) then
          let retryCount := retryCount + 1 in
          let backoffDuration := wrap64 (retryCount * Second) in
          Printf backoffDuration ;;;
          Sleep backoffDuration ;;;
          executeWithRetry_loop fuel1 c query retryCount
        else
          ret (Some (Errorf ("rate limit exceeded after "
                             ++ itoa (RetryLimit (Options c)) ++ " retries")))
      else
        match err with
        | Some e => ret (Some e)
        | None => ret None
        end
  end.

Definition executeWithRetry (fuel : nat) (c : Client) (query : QueryErr)
    : M (option error) :=
  executeWithRetry_loop fuel c query 0.

(** The eight wrappers [getWorkspaceWithRetry], [getWorkspaceListWithRetry],
    [getTagWithRetry], ..., [getTriggerListWithRetry] have the same body,
    each at its own payload type [R]. *)
Section PayloadWrappers.

Context {R : Type}.

Fixpoint getWithRetry_loop (fuel : nat) (c : Client) (query : Query R)
    (retryCount : Z) : M (option R * option error) :=
  match fuel with
  | O => fun w => OutOfFuel w
  | S fuel1 =>
      throttle fuel1 c ;;;
      r <- call query ;;
      let (resp, err) := r in
      if hasCode 429 err then
        if retryCount <? RetryLimit (Options c) then
          let retryCount := retryCount + 1 in
          let backoffDuration := wrap64 (20 * Second * retryCount) in
          Printf backoffDuration ;;;
          Sleep backoffDuration ;;;
          getWithRetry_loop fuel1 c query retryCount
        else
          ret (None, Some (Errorf ("rate limit exceeded after "
                                   ++ itoa (RetryLimit (Options c)) ++ " retries")))
      else
        match err with
        | Some e => ret (None, Some e)
        | None => ret (resp, None)
        end
  end.

Definition getWithRetry (fuel : nat) (c : Client) (query : Query R)
    : M (option R * option error) :=
  getWithRetry_loop fuel c query 0.

End PayloadWrappers.

Definition getWorkspaceWithRetry := @getWithRetry tagmanager.Workspace.
Definition getWorkspaceListWithRetry := @getWithRetry tagmanager.ListWorkspacesResponse.
Definition getTagWithRetry := @getWithRetry tagmanager.Tag.
Definition getTagListWithRetry := @getWithRetry tagmanager.ListTagsResponse.
Definition getVariableWithRetry := @getWithRetry tagmanager.Variable'.
Definition getVariableListWithRetry := @getWithRetry tagmanager.ListVariablesResponse.
Definition getTriggerWithRetry := @getWithRetry tagmanager.Trigger.
Definition getTriggerListWithRetry := @getWithRetry tagmanager.ListTriggersResponse.

(** *** Workspaces *)

Definition CreateWorkspace (fuel : nat) (c : Client) (ws : option tagmanager.Workspace) :=
  getWorkspaceWithRetry fuel c (Workspaces_Create (Service_ c) (containerPath c) ws).

Definition ListWorkspaces (fuel : nat) (c : Client)
    : M (option (list tagmanager.Workspace) * option error) :=
  r <- getWorkspaceListWithRetry fuel c (Workspaces_List (Service_ c) (containerPath c)) ;;
  match r with
  | (_, Some err) => ret (None, Some err)
  | (Some resp, None) => ret (Some (tagmanager.Workspace_ resp), None)
  | (None, None) => panic
  end.

Definition Workspace (fuel : nat) (c : Client) (id : string)
    : M (option tagmanager.Workspace * option error) :=
  r <- getWorkspaceWithRetry fuel c
         (Workspaces_Get (Service_ c) (containerPath c ++ "/workspaces/" ++ id)%string) ;;
  let (ws, err) := r in
  if hasCode 404 err then ret (None, Some ErrNotExist) else ret (ws, err).

Definition UpdateWorkspaces (fuel : nat) (c : Client) (id : string)
    (ws : option tagmanager.Workspace) :=
  getWorkspaceWithRetry fuel c
    (Workspaces_Update (Service_ c) (containerPath c ++ "/workspaces/" ++ id)%string ws).

Definition DeleteWorkspace (fuel : nat) (c : Client) (id : string) :=
  executeWithRetry fuel c
    (Workspaces_Delete (Service_ c) (containerPath c ++ "/workspaces/" ++ id)%string).

(** *** Tags *)

Definition CreateTag (fuel : nat) (c : Client) (workspaceId : string)
    (tag : option tagmanager.Tag) :=
  getTagWithRetry fuel c (Tags_Create (Service_ c) (workspacePath c workspaceId) tag).

Definition ListTags (fuel : nat) (c : Client) (workspaceId : string)
    : M (option (list tagmanager.Tag) * option error) :=
  r <- getTagListWithRetry fuel c (Tags_List (Service_ c) (workspacePath c workspaceId)) ;;
  match r with
  | (_, Some err) => ret (None, Some err)
  | (Some resp, None) => ret (Some (tagmanager.Tag_ resp), None)
  | (None, None) => panic
  end.

Definition Tag (fuel : nat) (c : Client) (workspaceId tagId : string)
    : M (option tagmanager.Tag * option error) :=
  r <- getTagWithRetry fuel c
         (Tags_Get (Service_ c) (workspacePath c workspaceId ++ "/tags/" ++ tagId)%string) ;;
  let (tag, err) := r in
  if hasCode 404 err then ret (None, Some ErrNotExist) else ret (tag, err).

Definition UpdateTag (fuel : nat) (c : Client) (workspaceId tagId : string)
    (tag : option tagmanager.Tag) :=
  getTagWithRetry fuel c
    (Tags_Update (Service_ c) (workspacePath c workspaceId ++ "/tags/" ++ tagId)%string tag).

Definition DeleteTag (fuel : nat) (c : Client) (workspaceId tagId : string) :=
  executeWithRetry fuel c
    (Tags_Delete (Service_ c) (workspacePath c workspaceId ++ "/tags/" ++ tagId)%string).

(** *** Variables *)

Definition CreateVariable (fuel : nat) (c : Client) (workspaceId : string)
    (variable : option tagmanager.Variable') :=
  getVariableWithRetry fuel c
    (Variables_Create (Service_ c) (workspacePath c workspaceId) variable).

Definition ListVariables (fuel : nat) (c : Client) (workspaceId : string)
    : M (option (list tagmanager.Variable') * option error) :=
  r <- getVariableListWithRetry fuel c
         (Variables_List (Service_ c) (workspacePath c workspaceId)) ;;
  match r with
  | (_, Some err) => ret (None, Some err)
  | (Some resp, None) => ret (Some (tagmanager.Variable_ resp), None)
  | (None, None) => panic
  end.

Definition Variable' (fuel : nat) (c : Client) (workspaceId variableId : string)
    : M (option tagmanager.Variable' * option error) :=
  r <- getVariableWithRetry fuel c
         (Variables_Get (Service_ c)
            (workspacePath c workspaceId ++ "/variables/" ++ variableId)%string) ;;
  let (variable, err) := r in
  if hasCode 404 err then ret (None, Some ErrNotExist) else ret (variable, err).

Definition UpdateVariable (fuel : nat) (c : Client) (workspaceId variableId : string)
    (variable : option tagmanager.Variable') :=
  getVariableWithRetry fuel c
    (Variables_Update (Service_ c)
       (workspacePath c workspaceId ++ "/variables/" ++ variableId)%string variable).

Definition DeleteVariable (fuel : nat) (c : Client) (workspaceId variableId : string) :=
  executeWithRetry fuel c
    (Variables_Delete (Service_ c)
       (workspacePath c workspaceId ++ "/variables/" ++ variableId)%string).

(** *** Triggers *)

Definition CreateTrigger (fuel : nat) (c : Client) (workspaceId : string)
    (trigger : option tagmanager.Trigger) :=
  getTriggerWithRetry fuel c
    (Triggers_Create (Service_ c) (workspacePath c workspaceId) trigger).

Definition ListTriggers (fuel : nat) (c : Client) (workspaceId : string)
    : M (option (list tagmanager.Trigger) * option error) :=
  r <- getTriggerListWithRetry fuel c
         (Triggers_List (Service_ c) (workspacePath c workspaceId)) ;;
  match r with
  | (_, Some err) => ret (None, Some err)
  | (Some resp, None) => ret (Some (tagmanager.Trigger_ resp), None)
  | (None, None) => panic
  end.

Definition Trigger (fuel : nat) (c : Client) (workspaceId triggerId : string)
    : M (option tagmanager.Trigger * option error) :=
  r <- getTriggerWithRetry fuel c
         (Triggers_Get (Service_ c)
            (workspacePath c workspaceId ++ "/triggers/" ++ triggerId)%string) ;;
  let (trigger, err) := r in
  if hasCode 404 err then ret (None, Some ErrNotExist) else ret (trigger, err).

Definition UpdateTrigger (fuel : nat) (c : Client) (workspaceId triggerId : string)
    (trigger : option tagmanager.Trigger) :=
  getTriggerWithRetry fuel c
    (Triggers_Update (Service_ c)
       (workspacePath c workspaceId ++ "/triggers/" ++ triggerId)%string trigger).

Definition DeleteTrigger (fuel : nat) (c : Client) (workspaceId triggerId : string) :=
  executeWithRetry fuel c
    (Triggers_Delete (Service_ c)
       (workspacePath c workspaceId ++ "/triggers/" ++ triggerId)%string).

End Api.

(** ** The client of [internal/api/client.go] *)

Module ApiGeneric.

(** [executeWithRetry(query, retryLimit)] *)
Fixpoint executeWithRetry_loop (fuel : nat) (query : QueryErr) (retryLimit : Z)
    (retryCount : Z) : M (option error) :=
  match fuel with
  | O => fun w => OutOfFuel w
  | S fuel1 =>
      err <- callErr query ;;
      if hasCode 429 err then
        if retryCount <? retryLimit then
          let retryCount := retryCount + 1 in
          let backoffDuration := wrap64 (retryCount * Second) in
          Printf backoffDuration ;;;
          Sleep backoffDuration ;;;
          executeWithRetry_loop fuel1 query retryLimit retryCount
        else
          ret (Some (Errorf ("rate limit exceeded after "
                             ++ itoa retryLimit ++ " retries")))
      else
        match err with
        | Some e => ret (Some e)
        | None => ret None
        end
  end.

Definition executeWithRetry (fuel : nat) (query : QueryErr) (retryLimit : Z)
    : M (option error) :=
  executeWithRetry_loop fuel query retryLimit 0.

(** [getResponseWithRetry[R any](query, retryLimit)] *)
Fixpoint getResponseWithRetry_loop {R : Type} (fuel : nat) (query : Query R)
    (retryLimit : Z) (retryCount : Z) : M (option R * option error) :=
  match fuel with
  | O => fun w => OutOfFuel w
  | S fuel1 =>
      r <- call query ;;
      let (resp, err) := r in
      if hasCode 429 err then
        if retryCount <? retryLimit then
          let retryCount := retryCount + 1 in
          let backoffDuration := wrap64 (20 * Second * retryCount) in
          Printf backoffDuration ;;;
          Sleep backoffDuration ;;;
          getResponseWithRetry_loop fuel1 query retryLimit retryCount
        else
          ret (None, Some (Errorf ("Rate limit exceeded after "
                                   ++ itoa retryLimit ++ " retries")))
      else
        match err with
        | Some e => ret (None, Some e)
        | None => ret (resp, None)
        end
  end.

Definition getResponseWithRetry {R : Type} (fuel : nat) (query : Query R)
    (retryLimit : Z) : M (option R * option error) :=
  getResponseWithRetry_loop fuel query retryLimit 0.

(** The options and the client of this revision: no rate, burst or
    throttle switch, and no limiter in the client. *)
Record ClientOptions := {
  CredentialFile : string;
  AccountId : string;
  ContainerId : string;
  RetryLimit : Z
}.

(** [NewClientOptionsFromEnv()]; the environment and [Sscanf] are those of
    [Api.Environ]. *)
Definition NewClientOptionsFromEnv (env : Api.Environ) : ClientOptions :=
  let retryLimit :=
    if Api.isEmpty (Api.Getenv env Api.EnvRetryLimit) then 10
    else match Api.Sscanf_d env (Api.Getenv env Api.EnvRetryLimit) with
         | Some n => n
         | None => 10
         end in
  {| CredentialFile := Api.Getenv env Api.EnvCredentialFile;
     AccountId := Api.Getenv env Api.EnvAccountId;
     ContainerId := Api.Getenv env Api.EnvContainerId;
     RetryLimit := retryLimit |}.

Record Client := {
  Service_ : Api.Service;
  Options : ClientOptions
}.

(** [NewClient(opts)] *)
Definition NewClient (newService : string -> Api.Service + error)
    (opts : ClientOptions) : option Client * option error :=
  match newService (CredentialFile opts) with
  | inr err => (None, Some err)
  | inl srv => (Some {| Service_ := srv; Options := opts |}, None)
  end.

(** [NewClientFromEnv()] *)
Definition NewClientFromEnv (env : Api.Environ)
    (newService : string -> Api.Service + error) : option Client * option error :=
  NewClient newService (NewClientOptionsFromEnv env).

Definition containerPath (c : Client) : string :=
  ("accounts/" ++ AccountId (Options c) ++ "/containers/" ++ ContainerId (Options c))%string.

Definition workspacePath (c : Client) (id : string) : string :=
  (containerPath c ++ "/workspaces/" ++ id)%string.

(** What a list operation makes of the result of its wrapper. *)
Definition listed {R A : Type} (items : R -> list A)
    (r : option R * option error) : M (option (list A) * option error) :=
  match r with
  | (_, Some err) => ret (None, Some err)
  | (Some resp, None) => ret (Some (items resp), None)
  | (None, None) => panic
  end.

(** What a read by id makes of the result of its wrapper. *)
Definition found {R : Type} (r : option R * option error)
    : M (option R * option error) :=
  let (x, err) := r in
  if hasCode 404 err then ret (None, Some ErrNotExist) else ret (x, err).

Definition CreateWorkspace (fuel : nat) (c : Client) (ws : option tagmanager.Workspace) :=
  getResponseWithRetry fuel
    (Api.Workspaces_Create (Service_ c) (containerPath c) ws) (RetryLimit (Options c)).

Definition ListWorkspaces (fuel : nat) (c : Client) :=
  r <- getResponseWithRetry fuel
         (Api.Workspaces_List (Service_ c) (containerPath c)) (RetryLimit (Options c)) ;;
  listed tagmanager.Workspace_ r.

Definition Workspace (fuel : nat) (c : Client) (id : string) :=
  r <- getResponseWithRetry fuel
         (Api.Workspaces_Get (Service_ c) (containerPath c ++ "/workspaces/" ++ id)%string)
         (RetryLimit (Options c)) ;;
  found r.

Definition UpdateWorkspaces (fuel : nat) (c : Client) (id : string)
    (ws : option tagmanager.Workspace) :=
  getResponseWithRetry fuel
    (Api.Workspaces_Update (Service_ c) (containerPath c ++ "/workspaces/" ++ id)%string ws)
    (RetryLimit (Options c)).

Definition DeleteWorkspace (fuel : nat) (c : Client) (id : string) :=
  executeWithRetry fuel
    (Api.Workspaces_Delete (Service_ c) (containerPath c ++ "/workspaces/" ++ id)%string)
    (RetryLimit (Options c)).

Definition CreateTag (fuel : nat) (c : Client) (workspaceId : string)
    (tag : option tagmanager.Tag) :=
  getResponseWithRetry fuel
    (Api.Tags_Create (Service_ c) (workspacePath c workspaceId) tag)
    (RetryLimit (Options c)).

Definition ListTags (fuel : nat) (c : Client) (workspaceId : string) :=
  r <- getResponseWithRetry fuel
         (Api.Tags_List (Service_ c) (workspacePath c workspaceId))
         (RetryLimit (Options c)) ;;
  listed tagmanager.Tag_ r.

Definition Tag (fuel : nat) (c : Client) (workspaceId tagId : string) :=
  r <- getResponseWithRetry fuel
         (Api.Tags_Get (Service_ c)
            (workspacePath c workspaceId ++ "/tags/" ++ tagId)%string)
         (RetryLimit (Options c)) ;;
  found r.

Definition UpdateTag (fuel : nat) (c : Client) (workspaceId tagId : string)
    (tag : option tagmanager.Tag) :=
  getResponseWithRetry fuel
    (Api.Tags_Update (Service_ c)
       (workspacePath c workspaceId ++ "/tags/" ++ tagId)%string tag)
    (RetryLimit (Options c)).

Definition DeleteTag (fuel : nat) (c : Client) (workspaceId tagId : string) :=
  executeWithRetry fuel
    (Api.Tags_Delete (Service_ c)
       (workspacePath c workspaceId ++ "/tags/" ++ tagId)%string)
    (RetryLimit (Options c)).

Definition CreateVariable (fuel : nat) (c : Client) (workspaceId : string)
    (variable : option tagmanager.Variable') :=
  getResponseWithRetry fuel
    (Api.Variables_Create (Service_ c) (workspacePath c workspaceId) variable)
    (RetryLimit (Options c)).

Definition ListVariables (fuel : nat) (c : Client) (workspaceId : string) :=
  r <- getResponseWithRetry fuel
         (Api.Variables_List (Service_ c) (workspacePath c workspaceId))
         (RetryLimit (Options c)) ;;
  listed tagmanager.Variable_ r.

Definition Variable' (fuel : nat) (c : Client) (workspaceId variableId : string) :=
  r <- getResponseWithRetry fuel
         (Api.Variables_Get (Service_ c)
            (workspacePath c workspaceId ++ "/variables/" ++ variableId)%string)
         (RetryLimit (Options c)) ;;
  found r.

Definition UpdateVariable (fuel : nat) (c : Client) (workspaceId variableId : string)
    (variable : option tagmanager.Variable') :=
  getResponseWithRetry fuel
    (Api.Variables_Update (Service_ c)
       (workspacePath c workspaceId ++ "/variables/" ++ variableId)%string variable)
    (RetryLimit (Options c)).

Definition DeleteVariable (fuel : nat) (c : Client) (workspaceId variableId : string) :=
  executeWithRetry fuel
    (Api.Variables_Delete (Service_ c)
       (workspacePath c workspaceId ++ "/variables/" ++ variableId)%string)
    (RetryLimit (Options c)).

Definition CreateTrigger (fuel : nat) (c : Client) (workspaceId : string)
    (trigger : option tagmanager.Trigger) :=
  getResponseWithRetry fuel
    (Api.Triggers_Create (Service_ c) (workspacePath c workspaceId) trigger)
    (RetryLimit (Options c)).

Definition ListTriggers (fuel : nat) (c : Client) (workspaceId : string) :=
  r <- getResponseWithRetry fuel
         (Api.Triggers_List (Service_ c) (workspacePath c workspaceId))
         (RetryLimit (Options c)) ;;
  listed tagmanager.Trigger_ r.

Definition Trigger (fuel : nat) (c : Client) (workspaceId triggerId : string) :=
  r <- getResponseWithRetry fuel
         (Api.Triggers_Get (Service_ c)
            (workspacePath c workspaceId ++ "/triggers/" ++ triggerId)%string)
         (RetryLimit (Options c)) ;;
  found r.

Definition UpdateTrigger (fuel : nat) (c : Client) (workspaceId triggerId : string)
    (trigger : option tagmanager.Trigger) :=
  getResponseWithRetry fuel
    (Api.Triggers_Update (Service_ c)
       (workspacePath c workspaceId ++ "/triggers/" ++ triggerId)%string trigger)
    (RetryLimit (Options c)).

Definition DeleteTrigger (fuel : nat) (c : Client) (workspaceId triggerId : string) :=
  executeWithRetry fuel
    (Api.Triggers_Delete (Service_ c)
       (workspacePath c workspaceId ++ "/triggers/" ++ triggerId)%string)
    (RetryLimit (Options c)).

End ApiGeneric.

(** ** Reading traces *)

(** The backoff sleeps of the wrappers, in order. *)
Fixpoint backoffs (es : list Event) : list Duration :=
  match es with
  | [] => []
  | EvBackoff d :: rest => d :: backoffs rest
  | _ :: rest => backoffs rest
  end.

(** The remote calls, in order. *)
Fixpoint queries (es : list Event) : list nat :=
  match es with
  | [] => []
  | EvQuery n :: rest => n :: queries rest
  | _ :: rest => queries rest
  end.

(** The remote calls and the backoff sleeps, in order, the other events
    left out. *)
Fixpoint steps (es : list Event) : list Event :=
  match es with
  | [] => []
  | EvQuery n :: rest => EvQuery n :: steps rest
  | EvBackoff d :: rest => EvBackoff d :: steps rest
  | _ :: rest => steps rest
  end.

(** Remote calls and backoff sleeps in turn: call, sleep, call, ..., call. *)
Fixpoint alternate (qs : list nat) (bs : list Duration) : list Event :=
  match qs, bs with
  | q :: qs1, b :: bs1 => EvQuery q :: EvBackoff b :: alternate qs1 bs1
  | q :: _, [] => [EvQuery q]
  | [], _ => []
  end.

(** Whether the event just before the next one is an [Allow()] that
    admitted, given that this was so ([admitted]) before [es]. *)
Fixpoint admitted_after (admitted : bool) (es : list Event) : bool :=
  match es with
  | [] => admitted
  | EvAllow ok :: rest => admitted_after ok rest
  | _ :: rest => admitted_after false rest
  end.

(** Every remote call of [es] comes directly after an [Allow()] that
    returned [true]. *)
Fixpoint guarded (admitted : bool) (es : list Event) : bool :=
  match es with
  | [] => true
  | EvQuery _ :: rest => admitted && guarded false rest
  | EvAllow ok :: rest => guarded ok rest
  | _ :: rest => guarded false rest
  end.

(** [a; a+1; ...], [k] numbers. *)
Definition Zseq (a : Z) (k : nat) : list Z :=
  map (fun i => a + Z.of_nat i) (seq 0 k).

(** ** The loop all retry wrappers share

    [retry_core] is the common shape of the wrappers above: [gate] is what
    runs before each attempt, [backoff] the pause before the retry with a
    given number, [exhausted] the error of the last resort.  The wrappers
    are shown to be instances of it below. *)

Section RetryCore.

Context {R : Type}.
Variable gate : nat -> M unit.
Variable backoff : Z -> Duration.
Variable exhausted : error.
Variable limit : Z.
Variable query : Query R.

Definition final (r : option R * option error) : option R * option error :=
  match snd r with
  | Some e => (None, Some e)
  | None => (fst r, None)
  end.

Fixpoint retry_core (fuel : nat) (retryCount : Z) : M (option R * option error) :=
  match fuel with
  | O => fun w => OutOfFuel w
  | S fuel1 =>
      gate fuel1 ;;;
      r <- call query ;;
      if hasCode 429 (snd r) then
        if retryCount <? limit then
          Printf (backoff (retryCount + 1)) ;;;
          Sleep (backoff (retryCount + 1)) ;;;
          retry_core fuel1 (retryCount + 1)
        else ret (None, Some exhausted)
      else ret (final r)
  end.

End RetryCore.

Definition map_res {A B} (f : A -> B) (r : Res A) : Res B :=
  match r with
  | Done a w => Done (f a) w
  | OutOfFuel w => OutOfFuel w
  | Panic w => Panic w
  end.

Definition no_admit (fuel : nat) : M unit := ret tt.

Definition backoff1 (retryCount : Z) : Duration := wrap64 (retryCount * Second).
Definition backoff20 (retryCount : Z) : Duration := wrap64 (20 * Second * retryCount).

Definition exhausted_msg (prefix : string) (retryLimit : Z) : error :=
  Errorf (prefix ++ itoa retryLimit ++ " retries").

(** A remote call without payload, seen as one with a payload that is
    always [nil]. *)
Definition lift_err (query : QueryErr) : Query unit :=
  fun n => (None, query n).

(** ** Conditions on limiters and worlds *)

(** The limiter of the world, when there is one, lets calls through: tokens flow in
    and the bucket holds at least one; and it was last refilled in the past. *)
Definition limiter_ok (w : World) : Prop :=
  match limiter w with
  | None => True
  | Some rl =>
      (0 < refillRate rl)%Q /\ (1 <= capacity rl)%Q /\ lastRefill rl <= clock w
  end.

Definition throttling_enabled (w : World) : Prop := limiter w <> None.

(** ** Auxiliary notions for the properties *)

(** What [Allow] stores and answers, in terms of the refilled balance. *)
Definition refilled (rl : RateLimiter) (now : Time) : Q :=
  min (capacity rl) (tokens rl + Seconds (Sub now (lastRefill rl)) * refillRate rl)%Q.

Definition new_events (w w1 : World) : list Event :=
  skipn (List.length (trace w)) (trace w1).

(** The limiter and the world after a poll. *)
Definition polled (rl : RateLimiter) (now : Time) (balance : Q) : RateLimiter :=
  {| tokens := balance; capacity := capacity rl;
     refillRate := refillRate rl; lastRefill := now |}.

Definition after_admit (w : World) (rl : RateLimiter) : World :=
  {| clock := clock w;
     limiter := Some (polled rl (clock w) (refilled rl (clock w) - 1)%Q);
     calls := calls w;
     trace := trace w ++ [EvAllow true] |}.

Definition after_reject (w : World) (rl : RateLimiter) : World :=
  let rl1 := polled rl (clock w) (refilled rl (clock w)) in
  {| clock := clock w + Z.max 0 (waitTime rl1);
     limiter := Some rl1;
     calls := calls w;
     trace := (trace w ++ [EvAllow false]) ++ [EvWaitSleep (waitTime rl1)] |}.

(** What the polls of one [Wait] leave in the trace: no remote call, no
    backoff, and the last event is the [Allow()] that admitted. *)
Definition admission (d : list Event) : Prop :=
  backoffs d = [] /\ queries d = [] /\
  forall b : bool, guarded b d = true /\ admitted_after b d = true.

Definition after_call (w : World) : World :=
  {| clock := clock w; limiter := limiter w;
     calls := S (calls w); trace := trace w ++ [EvQuery (calls w)] |}.

Definition after_backoff (w : World) (d : Duration) : World :=
  {| clock := clock w + Z.max 0 d; limiter := limiter w;
     calls := calls w; trace := (trace w ++ [EvPrintf d]) ++ [EvBackoff d] |}.

Definition api_exhausted (c : Api.Client) : error :=
  exhausted_msg "rate limit exceeded after " (Api.RetryLimit (Api.Options c)).

Definition api_core {R : Type} (b : Z -> Duration) (c : Api.Client) (query : Query R) :=
  retry_core (fun fuel => Api.throttle fuel c) b (api_exhausted c)
    (Api.RetryLimit (Api.Options c)) query.

Definition generic_core {R : Type} (b : Z -> Duration) (prefix : string)
    (retryLimit : Z) (query : Query R) :=
  retry_core no_admit b (exhausted_msg prefix retryLimit) retryLimit query.

(** What a run of the shared loop that makes [k] retries, entered with
    [retryCount = r], leaves behind: [k + 1] remote calls in turn with the
    [k] backoffs of the retries [r + 1], ..., [r + k], the last call being
    the last event. *)
Definition run_of (backoff : Z -> Duration) (Inv : World -> Prop)
    (k : nat) (r : Z) (w w1 : World) : Prop :=
  Inv w1 /\
  calls w1 = (calls w + k + 1)%nat /\
  exists d0 : list Event,
    trace w1 = trace w ++ d0 ++ [EvQuery (calls w + k)] /\
    steps (d0 ++ [EvQuery (calls w + k)])
    = alternate (seq (calls w) (k + 1)) (map backoff (Zseq (r + 1) k)).

(** ** Runs of the wrappers and of the operations *)

(** The remote call answered with a rate-limit error: a [googleapi.Error]
    whose code is 429. *)
Definition rate_limited (err : option error) : Prop :=
  exists e : googleapi.Error, err = Some (GoogleapiError e) /\ googleapi.Code e = 429.

(** With enough fuel the run returns [a] and leaves the world [w1]. *)
Definition returns {A : Type} (run : nat -> M A) (w : World) (a : A) (w1 : World) : Prop :=
  exists f0 : nat, forall fuel, (f0 <= fuel)%nat -> run fuel w = Done a w1.

(** The run returns [a] after exactly [n] remote calls and the backoff
    sleeps [bs], one sleep between each call and the next, the last event
    of the run being the last call. *)
Definition returns_after {A : Type} (run : nat -> M A) (w : World) (a : A)
    (n : nat) (bs : list Duration) : Prop :=
  exists w1 : World,
    returns run w a w1 /\
    queries (new_events w w1) = seq (calls w) n /\
    backoffs (new_events w w1) = bs /\
    steps (new_events w w1) = alternate (seq (calls w) n) bs /\
    exists d0, new_events w w1 = d0 ++ [EvQuery (calls w + n - 1)].

(** The remote answers the request with [k] rate-limit errors and then
    with the error [e]. *)
Definition answers {R : Type} (query : Query R) (w : World) (k : nat) (e : error) : Prop :=
  (forall i, (i < k)%nat -> rate_limited (snd (query (calls w + i)%nat))) /\
  snd (query (calls w + k)%nat) = Some e.

Definition answersErr (query : QueryErr) (w : World) (k : nat) (e : error) : Prop :=
  (forall i, (i < k)%nat -> rate_limited (query (calls w + i)%nat)) /\
  query (calls w + k)%nat = Some e.

(** ** Example data *)

Definition tooManyRequests : error :=
  GoogleapiError {| googleapi.Code := 429; googleapi.Message := "Too Many Requests" |}.

Definition notFound : error :=
  GoogleapiError {| googleapi.Code := 404; googleapi.Message := "Not Found" |}.

(** A remote that answers every request with the error [e]. *)
Definition stubService (e : error) : Api.Service :=
  {| Api.Workspaces_Create := fun _ _ _ => (None, Some e);
     Api.Workspaces_List := fun _ _ => (None, Some e);
     Api.Workspaces_Get := fun _ _ => (None, Some e);
     Api.Workspaces_Update := fun _ _ _ => (None, Some e);
     Api.Workspaces_Delete := fun _ _ => Some e;
     Api.Tags_Create := fun _ _ _ => (None, Some e);
     Api.Tags_List := fun _ _ => (None, Some e);
     Api.Tags_Get := fun _ _ => (None, Some e);
     Api.Tags_Update := fun _ _ _ => (None, Some e);
     Api.Tags_Delete := fun _ _ => Some e;
     Api.Variables_Create := fun _ _ _ => (None, Some e);
     Api.Variables_List := fun _ _ => (None, Some e);
     Api.Variables_Get := fun _ _ => (None, Some e);
     Api.Variables_Update := fun _ _ _ => (None, Some e);
     Api.Variables_Delete := fun _ _ => Some e;
     Api.Triggers_Create := fun _ _ _ => (None, Some e);
     Api.Triggers_List := fun _ _ => (None, Some e);
     Api.Triggers_Get := fun _ _ => (None, Some e);
     Api.Triggers_Update := fun _ _ _ => (None, Some e);
     Api.Triggers_Delete := fun _ _ => Some e |}.

Definition exampleOptions (retryLimit : Z) (throttle : bool) : Api.ClientOptions :=
  {| Api.CredentialFile := "credentials.json";
     Api.AccountId := "6000000001";
     Api.ContainerId := "200000002";
     Api.RetryLimit := retryLimit;
     Api.RateLimit := 10%Q;
     Api.RateBurst := 20;
     Api.ThrottleEnabled := throttle |}.

Definition exampleClient (e : error) (retryLimit : Z) (throttle : bool) : Api.Client :=
  {| Api.Service_ := stubService e; Api.Options := exampleOptions retryLimit throttle |}.

(** The world at start: the clock at 0, nothing called yet. *)
Definition startWorld (l : option RateLimiter) : World :=
  {| clock := 0; limiter := l; calls := 0; trace := [] |}.

(** The limiter [NewClient] makes for [exampleOptions]. *)
Definition exampleLimiter : RateLimiter := NewRateLimiter 10 20 0.

(** The world of a client made from [exampleOptions] with throttling on. *)
Definition throttledWorld : World := startWorld (Some exampleLimiter).

(** One 429, then success. *)
Definition onceLimited : QueryErr :=
  fun n => match n with O => Some tooManyRequests | S _ => None end.

(** An error that wraps a 429 is not retried. *)
Definition wrapped429 : error := WrapError "remote call failed" tooManyRequests.

(** ** Further notions for the properties of the wrappers *)

(** The run stops at its attempt [k + 1], having made the [k] retries
    before it with their backoffs: the answers to the attempts before are
    rate-limit errors and at most [most] retries are made; then either the
    answer to this attempt is no rate-limit error and the run returns what
    [last] makes of it, or it is one too, all the [most] retries are used
    up and the run returns [gave_up]. *)
Definition stops_at {A : Type} (run : nat -> M A) (w : World)
    (answer : nat -> option error) (backoff : Z -> Duration) (most : Z)
    (last : nat -> A) (gave_up : A) (k : nat) : Prop :=
  Z.of_nat k <= most /\
  (forall i, (i < k)%nat -> rate_limited (answer (calls w + i)%nat)) /\
  ((~ rate_limited (answer (calls w + k)%nat) /\
    returns_after run w (last (calls w + k)%nat) (k + 1) (map backoff (Zseq 1 k)))
   \/
   (rate_limited (answer (calls w + k)%nat) /\ Z.of_nat k = most /\
    returns_after run w gave_up (k + 1) (map backoff (Zseq 1 k)))).

(** The time slept in all. *)
Definition total (ds : list Duration) : Z := fold_right Z.add 0 ds.

(** The error that [getResponseWithRetry] of [client.go] gives up with. *)
Definition generic_exhausted (retryLimit : Z) : error :=
  exhausted_msg "Rate limit exceeded after " retryLimit.

(** The polls and sleeps of [Wait] among the events. *)
Fixpoint polls (es : list Event) : list Event :=
  match es with
  | [] => []
  | EvAllow ok :: rest => EvAllow ok :: polls rest
  | EvWaitSleep d :: rest => EvWaitSleep d :: polls rest
  | _ :: rest => polls rest
  end.

(** The events [d] hold at most [most + 1] remote calls and [most] backoff
    sleeps, none when [most] is negative. *)
Definition within_limit (most : Z) (d : list Event) : Prop :=
  Z.of_nat (List.length (queries d)) <= Z.max 0 most + 1 /\
  Z.of_nat (List.length (backoffs d)) <= Z.max 0 most.

(** Two runs end alike: in the same world, with results that [same]
    relates when they return. *)
Definition same_run {A : Type} (same : A -> A -> Prop) (r1 r2 : Res A) : Prop :=
  match r1, r2 with
  | Done a w1, Done b w2 => w1 = w2 /\ same a b
  | OutOfFuel w1, OutOfFuel w2 => w1 = w2
  | Panic w1, Panic w2 => w1 = w2
  | _, _ => False
  end.

(** The remote answers the request with [k] rate-limit errors and then
    with the payload [x] and no error. *)
Definition delivers {R : Type} (query : Query R) (w : World) (k : nat) (x : R) : Prop :=
  (forall i, (i < k)%nat -> rate_limited (snd (query (calls w + i)%nat))) /\
  query (calls w + k)%nat = (Some x, None).

(** ** The coordinator of the acceptance tests

    [TestCoordinator] keeps the requests of the tests apart.  The packages
    [api] and [provider] each have a copy of it; the copies differ in the
    delay of their [GlobalTestCoordinator] only.  Its mutex is not
    represented. *)

Record TestCoordinator := {
  lastRequestTime : Time;
  minDelay : Duration
}.

(** [NewTestCoordinator(minDelay)]: the last request is set back by
    [minDelay], to let the first call through. *)
Definition NewTestCoordinator (delay : Duration) : M TestCoordinator :=
  fun w => Done {| lastRequestTime := clock w + wrap64 (- delay);
                   minDelay := delay |} w.

(** [c.WaitBeforeRequest()]; the coordinator afterwards is returned. *)
Definition WaitBeforeRequest (c : TestCoordinator) : M TestCoordinator :=
  fun w =>
    let elapsed := Sub (clock w) (lastRequestTime c) in
    ((if elapsed <? minDelay c then
        let sleepTime := wrap64 (minDelay c - elapsed) in
        advance sleepTime
      else ret tt) ;;;
     (fun w1 => Done {| lastRequestTime := clock w1; minDelay := minDelay c |} w1)) w.

(** [GlobalTestCoordinator] of the package [provider] and of the package
    [api]. *)
Definition GlobalTestCoordinator_provider : M TestCoordinator :=
  NewTestCoordinator (wrap64 (3 * Second)).
Definition GlobalTestCoordinator_api : M TestCoordinator :=
  NewTestCoordinator (wrap64 (2 * Second)).

(** A run of tests: before each request the test is busy for some time of
    its own ([pauses]), then calls [WaitBeforeRequest()] on the coordinator
    they share; the result lists the instants at which the calls
    returned. *)
Fixpoint requests (c : TestCoordinator) (pauses : list Duration) : M (list Time) :=
  match pauses with
  | [] => ret []
  | p :: rest =>
      advance p ;;;
      c1 <- WaitBeforeRequest c ;;
      ts <- requests c1 rest ;;
      ret (lastRequestTime c1 :: ts)
  end.

(** Consecutive instants of [ts] are at least [d] apart. *)
Fixpoint apart (d : Duration) (ts : list Time) : Prop :=
  match ts with
  | t :: ((u :: _) as rest) => t + d <= u /\ apart d rest
  | _ => True
  end.

(** The world when the clock has moved on to [t]. *)
Definition at_clock (w : World) (t : Time) : World :=
  {| clock := t; limiter := limiter w; calls := calls w; trace := trace w |}.

(** ** The plugin framework: values and diagnostics

    What the provider uses of [terraform-plugin-framework]: [types.String]
    and [types.Int64] values, which are null, unknown or known, and the
    list of diagnostics of a response. *)

Module types.

Inductive String' : Type :=
| StringNull
| StringUnknown
| StringValue (s : string).

Inductive Int64 : Type :=
| Int64Null
| Int64Unknown
| Int64Value (n : Z).

Definition IsNull (v : String') : bool :=
  match v with StringNull => true | _ => false end.

Definition IsUnknown (v : String') : bool :=
  match v with StringUnknown => true | _ => false end.

(** [v.ValueString()]: the empty string unless [v] is known. *)
Definition ValueString (v : String') : string :=
  match v with StringValue s => s | _ => EmptyString end.

(** [v.Equal(o)]: the same state, and the same string when known. *)
Definition Equal (v o : String') : bool :=
  match v, o with
  | StringNull, StringNull => true
  | StringUnknown, StringUnknown => true
  | StringValue s, StringValue t => String.eqb s t
  | _, _ => false
  end.

Definition Int64IsNull (v : Int64) : bool :=
  match v with Int64Null => true | _ => false end.

Definition Int64IsUnknown (v : Int64) : bool :=
  match v with Int64Unknown => true | _ => false end.

(** [v.ValueInt64()]: zero unless [v] is known. *)
Definition ValueInt64 (v : Int64) : Z :=
  match v with Int64Value n => n | _ => 0 end.

End types.

Module diag.

Inductive Severity : Type := SeverityError | SeverityWarning.

Record Diagnostic := {
  Severity_ : Severity;
  Summary : string;
  Detail : string
}.

Definition Diagnostics := list Diagnostic.

Definition Severity_eqb (a b : Severity) : bool :=
  match a, b with
  | SeverityError, SeverityError => true
  | SeverityWarning, SeverityWarning => true
  | _, _ => false
  end.

Definition Diagnostic_eqb (a b : Diagnostic) : bool :=
  Severity_eqb (Severity_ a) (Severity_ b)
  && String.eqb (Summary a) (Summary b)
  && String.eqb (Detail a) (Detail b).

Definition Contains (diags : Diagnostics) (d : Diagnostic) : bool :=
  existsb (Diagnostic_eqb d) diags.

(** [diags.Append(in...)]: a diagnostic that is there already is not added
    again. *)
Definition Append (diags : Diagnostics) (new : list Diagnostic) : Diagnostics :=
  fold_left (fun acc d => if Contains acc d then acc else acc ++ [d]) new diags.

Definition AddError (diags : Diagnostics) (summary detail : string) : Diagnostics :=
  Append diags [{| Severity_ := SeverityError; Summary := summary; Detail := detail |}].

Definition HasError (diags : Diagnostics) : bool :=
  existsb (fun d => Severity_eqb (Severity_ d) SeverityError) diags.

End diag.

(** ** The provider: [Configure]

    [provider.go] of the package [provider].  It makes the client through
    [api.NewClientInWorkspace], whose text is not part of the sources: it
    is a parameter here, as is the text [err.Error()] of an error.  The
    log lines of [tflog] are left out. *)

Module provider.

Record gtmProviderModel := {
  CredentialFile : types.String';
  AccountId : types.String';
  ContainerId : types.String';
  WorkspaceName : types.String';
  RetryLimit : types.Int64
}.

(** [api.ClientInWorkspaceOptions], as [Configure] fills it in. *)
Record ClientInWorkspaceOptions := {
  ClientOptions : ApiGeneric.ClientOptions;
  WorkspaceName_ : string
}.

Section Configure.

Variable ClientInWorkspace : Type.
Variable NewClientInWorkspace : ClientInWorkspaceOptions -> ClientInWorkspace + error.
Variable ErrorText : error -> string.

(** [provider.ConfigureResponse] *)
Record ConfigureResponse := {
  Diagnostics : diag.Diagnostics;
  DataSourceData : option ClientInWorkspace;
  ResourceData : option ClientInWorkspace
}.

Definition AddError (resp : ConfigureResponse) (summary detail : string)
    : ConfigureResponse :=
  {| Diagnostics := diag.AddError (Diagnostics resp) summary detail;
     DataSourceData := DataSourceData resp;
     ResourceData := ResourceData resp |}.

(** [p.Configure(ctx, req, resp)]: [config] and [diags] are what
    [req.Config.Get] gives, [resp] the response as it is handed in; the
    result is the response afterwards. *)
Definition Configure (env : Api.Environ) (config : gtmProviderModel)
    (diags : diag.Diagnostics) (resp : ConfigureResponse) : ConfigureResponse :=
  let resp :=
    {| Diagnostics := diag.Append (Diagnostics resp) diags;
       DataSourceData := DataSourceData resp;
       ResourceData := ResourceData resp |} in
  if diag.HasError (Diagnostics resp) then resp
  else
    let credFile :=
      if negb (types.IsNull (CredentialFile config))
         && negb (types.IsUnknown (CredentialFile config))
      then types.ValueString (CredentialFile config)
      else Api.Getenv env Api.EnvCredentialFile in
    let accountId :=
      if negb (types.IsNull (AccountId config))
         && negb (types.IsUnknown (AccountId config))
      then types.ValueString (AccountId config)
      else Api.Getenv env Api.EnvAccountId in
    let containerId :=
      if negb (types.IsNull (ContainerId config))
         && negb (types.IsUnknown (ContainerId config))
      then types.ValueString (ContainerId config)
      else Api.Getenv env Api.EnvContainerId in
    let workspaceName :=
      if negb (types.IsNull (WorkspaceName config))
         && negb (types.IsUnknown (WorkspaceName config))
      then types.ValueString (WorkspaceName config)
      else Api.Getenv env Api.EnvWorkspaceName in
    let retryLimit :=
      let retryLimitEnv := Api.Getenv env Api.EnvRetryLimit in
      if Api.isEmpty retryLimitEnv then 10
      else match Api.Sscanf_d env retryLimitEnv with
           | Some parsed => if parsed >? 0 then parsed else 10
           | None => 10
           end in
    let retryLimit :=
      if negb (types.Int64IsNull (RetryLimit config))
         && negb (types.Int64IsUnknown (RetryLimit config))
      then types.ValueInt64 (RetryLimit config)
      else retryLimit in
    if Api.isEmpty credFile then
      AddError resp "Missing credential_file"
        "credential_file must be set in provider config or GTM_CREDENTIAL_FILE environment variable"
    else if Api.isEmpty accountId then
      AddError resp "Missing account_id"
        "account_id must be set in provider config or GTM_ACCOUNT_ID environment variable"
    else if Api.isEmpty containerId then
      AddError resp "Missing container_id"
        "container_id must be set in provider config or GTM_CONTAINER_ID environment variable"
    else if Api.isEmpty workspaceName then
      AddError resp "Missing workspace_name"
        "workspace_name must be set in provider config or GTM_WORKSPACE_NAME environment variable"
    else
      match NewClientInWorkspace
              {| ClientOptions :=
                   {| ApiGeneric.CredentialFile := credFile;
                      ApiGeneric.AccountId := accountId;
                      ApiGeneric.ContainerId := containerId;
                      ApiGeneric.RetryLimit := retryLimit |};
                 WorkspaceName_ := workspaceName |} with
      | inr err => AddError resp "Unable to Create GTM Client" (ErrorText err)
      | inl client =>
          {| Diagnostics := Diagnostics resp;
             DataSourceData := Some client;
             ResourceData := Some client |}
      end.

End Configure.

End provider.

(** What [Configure] takes for a setting: the value of the configuration
    when it is set there, the variable of the environment otherwise. *)
Definition setting (v : types.String') (fromEnv : string) : string :=
  match v with
  | types.StringValue s => s
  | _ => fromEnv
  end.

(** ** The provider: import of tags and triggers

    [ImportState] of [tag_resource.go] and of [trigger_resource.go].  The
    client of a resource is an [api.ClientInWorkspace], whose text is not
    part of the sources: its [Tag] and [Trigger] are parameters here, as
    are the conversion of a payload that is not [nil] into the model of the
    resource and what [resp.State.Set] does.  Reading a field of a payload
    that is [nil] stops the handler with a panic. *)

Module resources.

Inductive Outcome (A : Type) : Type :=
| Returned (a : A)
| NilDereference.

Arguments Returned {A} a.
Arguments NilDereference {A}.

Section ImportState.

Variable Payload : Type.    (* [tagmanager.Tag], [tagmanager.Trigger] *)
Variable Model : Type.      (* [resourceTagModel], [resourceTriggerModel] *)
Variable State : Type.      (* [tfsdk.State] *)
Variable read : string -> option Payload * option error.
Variable toResource : Payload -> Model.
Variable State_Set : State -> Model -> State * diag.Diagnostics.
Variable ErrorText : error -> string.

(** [resource.ImportStateResponse] *)
Record ImportStateResponse := {
  Diagnostics : diag.Diagnostics;
  State_ : State
}.

Definition AddError (resp : ImportStateResponse) (summary detail : string)
    : ImportStateResponse :=
  {| Diagnostics := diag.AddError (Diagnostics resp) summary detail;
     State_ := State_ resp |}.

(** [plan := toResource(payload)], [diags := resp.State.Set(ctx, &plan)],
    [resp.Diagnostics.Append(diags...)] *)
Definition store (payload : option Payload) (resp : ImportStateResponse)
    : Outcome ImportStateResponse :=
  match payload with
  | None => NilDereference
  | Some p =>
      let plan := toResource p in
      let (state, diags) := State_Set (State_ resp) plan in
      Returned {| Diagnostics := diag.Append (Diagnostics resp) diags;
                  State_ := state |}
  end.

(** [(r *tagResource) ImportState], with [read] for [r.client.Tag] *)
Definition tagResource_ImportState (ID : string) (resp : ImportStateResponse)
    : Outcome ImportStateResponse :=
  if Api.isEmpty ID then
    Returned
      (AddError resp "Resource Import Missing ID"
         (String.append
            "This is always an error in the provider. Please report the following to the provider developer:

"
            "Resource ImportState method call to ImportState with an empty ID is not allowed."))
  else
    let (tag, err) := read ID in
    match err with
    | None =>
        Returned
          (AddError resp "Resource Import Failed"
             ("Failed to import tag with ID " ++ ID
              ++ ". The tag does not exist or the ID is invalid."))
    | Some _ => store tag resp
    end.

(** [(r *triggerResource) ImportState], with [read] for
    [r.client.Trigger] *)
Definition triggerResource_ImportState (ID : string) (resp : ImportStateResponse)
    : Outcome ImportStateResponse :=
  let triggerId := ID in
  if Api.isEmpty triggerId then
    Returned (AddError resp "Error Importing Trigger" "Trigger ID cannot be empty")
  else
    let (trigger, err) := read triggerId in
    match err with
    | Some e => Returned (AddError resp "Error Importing Trigger" (ErrorText e))
    | None => store trigger resp
    end.

End ImportState.

End resources.

(** ** The provider: parameters

    [ResourceParameterModel], its [Equal] and [toApiParameter].  A slice
    is a list or [nil]: [None] here.  A parameter holds two slices of
    parameters, and the functions go down into them. *)

Module parameter.

(** [len(s)] and the elements of a slice. *)
Definition len {A : Type} (s : option (list A)) : nat :=
  match s with None => 0 | Some xs => List.length xs end.

Definition elems {A : Type} (s : option (list A)) : list A :=
  match s with None => [] | Some xs => xs end.

(** The slice that [append] builds from [nil]: [nil] when nothing was
    appended. *)
Definition appended {A : Type} (xs : list A) : option (list A) :=
  match xs with [] => None | _ :: _ => Some xs end.

(** [tagmanager.Parameter], the fields that the provider fills in. *)
#[warnings="-register-all"]
Inductive ApiParameter : Type :=
| mkApiParameter (Key Type_ Value : string) (List_ Map : option (list ApiParameter)).

#[warnings="-register-all"]
Inductive ResourceParameterModel : Type :=
| mkResourceParameterModel (Key Type_ Value : types.String')
    (List_ Map : option (list ResourceParameterModel)).

(** [(r *ResourceParameterModel) Equal(o)] *)
Fixpoint Equal (r o : ResourceParameterModel) {struct r} : bool :=
  match r, o with
  | mkResourceParameterModel k t v l m, mkResourceParameterModel k' t' v' l' m' =>
      if negb (types.Equal k k')
         || negb (types.Equal t t')
         || negb (types.Equal v v')
         || negb (len l =? len l')%nat
         || negb (len m =? len m')%nat
      then false
      else
        let each :=
          fix each (xs ys : list ResourceParameterModel) {struct xs} : bool :=
            match xs, ys with
            | x :: xs1, y :: ys1 => if negb (Equal x y) then false else each xs1 ys1
            | _, _ => true
            end in
        if negb (match l with Some xs => each xs (elems l') | None => true end)
        then false
        else if negb (match m with Some xs => each xs (elems m') | None => true end)
        then false
        else true
  end.

(** The parameter that [toApiParameter] appends for [p]. *)
Fixpoint toApiParameter_of (p : ResourceParameterModel) : ApiParameter :=
  match p with
  | mkResourceParameterModel k t v l m =>
      let all :=
        fix all (ps : list ResourceParameterModel) : list ApiParameter :=
          match ps with
          | [] => []
          | q :: qs => toApiParameter_of q :: all qs
          end in
      mkApiParameter (types.ValueString k) (types.ValueString t) (types.ValueString v)
        (match l with None => None | Some ps => appended (all ps) end)
        (match m with None => None | Some ps => appended (all ps) end)
  end.

(** [toApiParameter(resourceParameter)] *)
Definition toApiParameter (resourceParameter : option (list ResourceParameterModel))
    : option (list ApiParameter) :=
  appended (map toApiParameter_of (elems resourceParameter)).

(** Every parameter of the slice satisfies [P]. *)
Definition every {A : Type} (P : A -> Prop) (s : option (list A)) : Prop :=
  Forall P (elems s).

(** The loop of [Equal] over two slices. *)
Fixpoint Equal_each (xs ys : list ResourceParameterModel) : bool :=
  match xs, ys with
  | x :: xs1, y :: ys1 => if negb (Equal x y) then false else Equal_each xs1 ys1
  | _, _ => true
  end.

(** The model with every slice that is [nil] made an empty one, all the
    way down. *)
Fixpoint normal (r : ResourceParameterModel) : ResourceParameterModel :=
  match r with
  | mkResourceParameterModel k t v l m =>
      let all :=
        fix all (ps : list ResourceParameterModel) : list ResourceParameterModel :=
          match ps with
          | [] => []
          | q :: qs => normal q :: all qs
          end in
      mkResourceParameterModel k t v
        (Some (match l with None => [] | Some ps => all ps end))
        (Some (match m with None => [] | Some ps => all ps end))
  end.

End parameter.

(** ** The provider: the model of a tag

    [resourceTagModel] of [tag_resource.go] and its [Equal]. *)

Module tag_resource.

Record resourceTagModel := {
  Name : types.String';
  Type_ : types.String';
  Id : types.String';
  Notes : types.String';
  Parameter_ : option (list parameter.ResourceParameterModel);
  FiringTriggerId : option (list types.String')
}.

(** The loop of [Equal] over the firing triggers. *)
Fixpoint Equal_ids (xs ys : list types.String') : bool :=
  match xs, ys with
  | x :: xs1, y :: ys1 => if negb (types.Equal x y) then false else Equal_ids xs1 ys1
  | _, _ => true
  end.

(** [(m resourceTagModel) Equal(o)] *)
Definition Equal (m o : resourceTagModel) : bool :=
  if negb (types.Equal (Name m) (Name o))
     || negb (types.Equal (Type_ m) (Type_ o))
     || (negb (types.IsUnknown (Id m)) && negb (types.Equal (Id m) (Id o)))
     || negb (types.Equal (Notes m) (Notes o))
     || negb (parameter.len (Parameter_ m) =? parameter.len (Parameter_ o))%nat
     || negb (parameter.len (FiringTriggerId m) =? parameter.len (FiringTriggerId o))%nat
  then false
  else if negb (parameter.Equal_each (parameter.elems (Parameter_ m))
                  (parameter.elems (Parameter_ o)))
  then false
  else if negb (Equal_ids (parameter.elems (FiringTriggerId m))
                  (parameter.elems (FiringTriggerId o)))
  then false
  else true.

(** The model [m] with another [Id]. *)
Definition with_Id (m : resourceTagModel) (id : types.String') : resourceTagModel :=
  {| Name := Name m; Type_ := Type_ m; Id := id; Notes := Notes m;
     Parameter_ := Parameter_ m; FiringTriggerId := FiringTriggerId m |}.

End tag_resource.

(** ** Further example data *)

(** An environment with no variable set. *)
Definition emptyEnv : Api.Environ :=
  {| Api.Getenv := fun _ => EmptyString;
     Api.Sscanf_d := fun _ => None;
     Api.ParseFloat := fun _ => None;
     Api.Atoi := fun _ => None;
     Api.ParseBool := fun _ => None |}.

(** An environment with [GTM_RETRY_LIMIT=0] and nothing else. *)
Definition zeroRetriesEnv : Api.Environ :=
  {| Api.Getenv := fun name => if String.eqb name Api.EnvRetryLimit then "0"%string else EmptyString;
     Api.Sscanf_d := fun s => if String.eqb s "0"%string then Some 0 else None;
     Api.ParseFloat := fun _ => None;
     Api.Atoi := fun _ => None;
     Api.ParseBool := fun _ => None |}.

(** [tagmanager.NewService] that gives the stub remote. *)
Definition newStubService (e : error) : string -> Api.Service + error :=
  fun _ => inl (stubService e).

Definition exampleTag : tagmanager.Tag :=
  {| tagmanager.TagId := "42"; tagmanager.TagName := "pageview" |}.

(** A remote that delivers [exampleTag] when asked for a tag, alone or in a
    list, and answers every other request with a 404. *)
Definition servingService : Api.Service :=
  {| Api.Workspaces_Create := fun _ _ _ => (None, Some notFound);
     Api.Workspaces_List := fun _ _ => (None, Some notFound);
     Api.Workspaces_Get := fun _ _ => (None, Some notFound);
     Api.Workspaces_Update := fun _ _ _ => (None, Some notFound);
     Api.Workspaces_Delete := fun _ _ => Some notFound;
     Api.Tags_Create := fun _ _ _ => (None, Some notFound);
     Api.Tags_List := fun _ _ => (Some {| tagmanager.Tag_ := [exampleTag] |}, None);
     Api.Tags_Get := fun _ _ => (Some exampleTag, None);
     Api.Tags_Update := fun _ _ _ => (None, Some notFound);
     Api.Tags_Delete := fun _ _ => Some notFound;
     Api.Variables_Create := fun _ _ _ => (None, Some notFound);
     Api.Variables_List := fun _ _ => (None, Some notFound);
     Api.Variables_Get := fun _ _ => (None, Some notFound);
     Api.Variables_Update := fun _ _ _ => (None, Some notFound);
     Api.Variables_Delete := fun _ _ => Some notFound;
     Api.Triggers_Create := fun _ _ _ => (None, Some notFound);
     Api.Triggers_List := fun _ _ => (None, Some notFound);
     Api.Triggers_Get := fun _ _ => (None, Some notFound);
     Api.Triggers_Update := fun _ _ _ => (None, Some notFound);
     Api.Triggers_Delete := fun _ _ => Some notFound |}.

Definition servingClient : Api.Client :=
  {| Api.Service_ := servingService; Api.Options := exampleOptions 10 true |}.

(** A client of [client.go] over the stub remote. *)
Definition genericClient (e : error) (retryLimit : Z) : ApiGeneric.Client :=
  {| ApiGeneric.Service_ := stubService e;
     ApiGeneric.Options :=
       {| ApiGeneric.CredentialFile := "credentials.json";
          ApiGeneric.AccountId := "6000000001";
          ApiGeneric.ContainerId := "200000002";
          ApiGeneric.RetryLimit := retryLimit |} |}.

(** A configuration of the provider that sets nothing, and one that sets
    the credential file to the empty string. *)
Definition nothingSet : provider.gtmProviderModel :=
  {| provider.CredentialFile := types.StringNull;
     provider.AccountId := types.StringNull;
     provider.ContainerId := types.StringNull;
     provider.WorkspaceName := types.StringNull;
     provider.RetryLimit := types.Int64Null |}.

Definition emptyCredentialFile : provider.gtmProviderModel :=
  {| provider.CredentialFile := types.StringValue EmptyString;
     provider.AccountId := types.StringNull;
     provider.ContainerId := types.StringNull;
     provider.WorkspaceName := types.StringNull;
     provider.RetryLimit := types.Int64Null |}.

(** A response of [Configure] as the framework hands it in. *)
Definition freshResponse : provider.ConfigureResponse unit :=
  {| provider.Diagnostics := [];
     provider.DataSourceData := None;
     provider.ResourceData := None |}.

(** A coordinator whose last request was at the clock reading 0. *)
Definition exampleCoordinator : TestCoordinator :=
  {| lastRequestTime := 0; minDelay := 3 * Second |}.

(** ** [float64]: IEEE 754 binary64

    A [float64] is a binary64 number as the standard library specifies it
    ([SpecFloat], precision 53, exponents below 1024): a signed zero, a
    signed infinity, NaN or a finite number [m * 2 ^ e]; the operations
    round to nearest, ties to even.  Each operation is rounded on its own
    (the compiler fuses none of them), and the conversion to [int64] of a
    number that [int64] does not hold gives the smallest [int64]: both as
    on amd64, Go leaving them to the implementation. *)

Module float64.

Definition t : Type := spec_float.

Definition add (x y : t) : t := SFadd 53 1024 x y.
Definition sub (x y : t) : t := SFsub 53 1024 x y.
Definition mul (x y : t) : t := SFmul 53 1024 x y.
Definition div (x y : t) : t := SFdiv 53 1024 x y.

(** [x < y] and [x <= y]; false when one of the two is NaN. *)
Definition ltb (x y : t) : bool := SFltb x y.
Definition leb (x y : t) : bool := SFleb x y.

(** The conversion [float64(z)] of an integer. *)
Definition of_int (z : Z) : t := binary_normalize 53 1024 z 0 false.

Definition infinity : t := S754_infinity false.
Definition nan : t := S754_nan.

(** Neither an infinity nor NaN. *)
Definition finite (x : t) : bool :=
  match x with
  | S754_zero _ | S754_finite _ _ _ => true
  | _ => false
  end.

(** A finite number cut off toward zero. *)
Definition trunc (x : t) : Z :=
  match x with
  | S754_finite s m e =>
      let a := if 0 <=? e then Zpos m * 2 ^ e else Zpos m / 2 ^ (- e) in
      if s then - a else a
  | _ => 0
  end.

(** The conversion [int64(x)], and so [time.Duration(x)]. *)
Definition to_int64 (x : t) : Z :=
  if finite x && (- 2 ^ 63 <=? trunc x) && (trunc x <? 2 ^ 63) then trunc x
  else - 2 ^ 63.

End float64.

(** *** The value of a float *)

Definition pow2 (e : Z) : Q := 2 ^ e.

(** The dyadic number [m * 2 ^ e]. *)
Definition dy (m e : Z) : Q := (inject_Z m * pow2 e)%Q.

(** The number a finite float stands for; 0 for the others. *)
Definition F2Q (x : float64.t) : Q :=
  match x with
  | S754_finite s m e => if s then (- dy (Zpos m) e)%Q else dy (Zpos m) e
  | _ => 0%Q
  end.

(** A float64 that is finite and not negative: a zero, or a positive number
    in the one form the format has for it. *)
Definition nonneg_fin (x : float64.t) : Prop :=
  match x with
  | S754_zero _ => True
  | S754_finite false m e => bounded 53 1024 m e = true
  | _ => False
  end.

(** A float64 that is neither NaN nor negative. *)
Definition nonneg (x : float64.t) : Prop :=
  nonneg_fin x \/ x = float64.infinity.

(** The last step of [binary_round_aux]: the rounded mantissa [mr] at the
    exponent [E] is brought into its place, and the result is an infinity if
    it has grown too large. *)
Definition finish (s : bool) (mr E : Z) : spec_float :=
  let '(mrs, e) := shr_fexp 53 1024 mr E loc_Exact in
  match shr_m mrs with
  | Z0 => S754_zero s
  | Zpos m => if e <=? 1024 - 53 then S754_finite s m e else S754_infinity s
  | Zneg _ => S754_nan
  end.

(** The mantissa [lo] is in its place at the exponent [E]: it has 53 digits,
    or fewer at the smallest exponent. *)
Definition slot (lo E : Z) : Prop :=
  0 <= lo /\ -1074 <= E /\ Zdigits2 lo <= 53 /\ (E = -1074 \/ Zdigits2 lo = 53).

(** [r] is a float64 next to the number [v >= 0]: no float lies between
    the two.  This is what an operation makes of its exact result [v]. *)
Definition faithful (v : Q) (r : float64.t) : Prop :=
  nonneg r /\
  (forall f, nonneg_fin f -> (F2Q f <= v)%Q -> SFleb f r = true) /\
  (forall f, nonneg_fin f -> (v <= F2Q f)%Q -> SFleb r f = true).

(** ** The token bucket in [float64] *)

Module IEEE.

(** [d.Seconds()]: [float64(d / Second) + float64(d % Second) / 1e9]. *)
Definition Seconds (d : Duration) : float64.t :=
  float64.add (float64.of_int (Z.quot d Second))
    (float64.div (float64.of_int (Z.rem d Second)) (float64.of_int 1000000000)).

Record RateLimiter := {
  tokens : float64.t;
  capacity : float64.t;
  refillRate : float64.t;
  lastRefill : Time
}.

(** [NewRateLimiter(rate, burst)], called when the clock reads [now]. *)
Definition NewRateLimiter (rate : float64.t) (burst : Z) (now : Time) : RateLimiter :=
  {| tokens := float64.of_int burst;
     capacity := float64.of_int burst;
     refillRate := rate;
     lastRefill := now |}.

(** [func min(a, b float64) float64] *)
Definition min (a b : float64.t) : float64.t := if float64.ltb a b then a else b.

(** The balance [Allow()] computes before it decides:
    [min(rl.capacity, rl.tokens+elapsed*rl.refillRate)]. *)
Definition refilled (rl : RateLimiter) (now : Time) : float64.t :=
  min (capacity rl)
    (float64.add (tokens rl)
       (float64.mul (Seconds (Sub now (lastRefill rl))) (refillRate rl))).

(** [rl.Allow()], called when the clock reads [now]: the result and the
    limiter afterwards. *)
Definition Allow (rl : RateLimiter) (now : Time) : bool * RateLimiter :=
  let elapsed := Seconds (Sub now (lastRefill rl)) in
  let tokens1 :=
    min (capacity rl)
      (float64.add (tokens rl) (float64.mul elapsed (refillRate rl))) in
  if float64.leb (float64.of_int 1) tokens1 then
    (true, {| tokens := float64.sub tokens1 (float64.of_int 1);
              capacity := capacity rl;
              refillRate := refillRate rl; lastRefill := now |})
  else
    (false, {| tokens := tokens1; capacity := capacity rl;
               refillRate := refillRate rl; lastRefill := now |}).

(** Consecutive [Allow()] calls made at the clock readings [times]. *)
Fixpoint allows (rl : RateLimiter) (times : list Time) : list bool * RateLimiter :=
  match times with
  | [] => ([], rl)
  | now :: rest =>
      let (ok, rl1) := Allow rl now in
      let (oks, rl2) := allows rl1 rest in
      (ok :: oks, rl2)
  end.

(** The pause between two polls of [Wait]:
    [time.Duration(1000/rl.refillRate) * time.Millisecond], kept within
    10ms and 1s. *)
Definition waitTime (rl : RateLimiter) : Duration :=
  let waitTime :=
    wrap64 (float64.to_int64 (float64.div (float64.of_int 1000) (refillRate rl))
            * Millisecond) in
  if waitTime <? 10 * Millisecond then 10 * Millisecond
  else if waitTime >? 1 * Second then 1 * Second
  else waitTime.

(** [rl.Wait()], called when the clock reads [now]: poll [Allow()] until it
    admits, sleeping [waitTime] in between; the limiter and the clock when
    it returns, [None] when [fuel] polls do not suffice. *)
Fixpoint Wait (fuel : nat) (rl : RateLimiter) (now : Time)
    : option (RateLimiter * Time) :=
  match fuel with
  | O => None
  | S fuel1 =>
      let (ok, rl1) := Allow rl now in
      if ok then Some (rl1, now)
      else Wait fuel1 rl1 (now + Z.max 0 (waitTime rl1))
  end.

Arguments Seconds d%_Z.
Arguments NewRateLimiter rate burst%_Z now%_Z.
Arguments refilled rl now%_Z.
Arguments Allow rl now%_Z.
Arguments Wait fuel%_nat rl now%_Z.

End IEEE.
(** The balance is a finite number within the bucket. *)
Definition within_bucket64 (rl : IEEE.RateLimiter) : Prop :=
  nonneg_fin (IEEE.tokens rl) /\ nonneg_fin (IEEE.capacity rl) /\
  (F2Q (IEEE.tokens rl) <= F2Q (IEEE.capacity rl))%Q.

(** The calls at [times] come on a clock that does not run back, each
    within an [int64] of nanoseconds of the one before, and each but the
    first when a token has flowed in since the call before: the inflow that
    [Allow()] computes for the gap, its seconds times the rate in
    [float64], is at least 1. *)
Fixpoint spaced (rate : float64.t) (last : Time) (first : bool) (times : list Time)
    : Prop :=
  match times with
  | [] => True
  | now :: rest =>
      last <= now <= last + maxInt64 /\
      (first = true \/
       float64.leb (float64.of_int 1)
         (float64.mul (IEEE.Seconds (Sub now last)) rate) = true) /\
      spaced rate now false rest
  end.

(** The limiter states that construction, [Allow()] and [Wait()] lead to,
    on a clock that does not run back and whose readings are within an
    [int64] of nanoseconds of one another.  The polls of a [Wait()] that
    has not returned are [Allow()] calls. *)
Inductive Reachable (rate : float64.t) (burst : Z) : IEEE.RateLimiter -> Prop :=
| reach_New (now : Time) :
    Reachable rate burst (IEEE.NewRateLimiter rate burst now)
| reach_Allow (rl : IEEE.RateLimiter) (now : Time) :
    Reachable rate burst rl ->
    IEEE.lastRefill rl <= now <= IEEE.lastRefill rl + maxInt64 ->
    Reachable rate burst (snd (IEEE.Allow rl now))
| reach_Wait (rl rl1 : IEEE.RateLimiter) (fuel : nat) (now now1 : Time) :
    Reachable rate burst rl ->
    IEEE.lastRefill rl <= now <= IEEE.lastRefill rl + maxInt64 ->
    IEEE.Wait fuel rl now = Some (rl1, now1) ->
    Reachable rate burst rl1.

(** An empty bucket of capacity 5 refilled at 10 tokens per second, in
    [float64]. *)
Definition emptyBucket64 : IEEE.RateLimiter :=
  {| IEEE.tokens := float64.of_int 0; IEEE.capacity := float64.of_int 5;
     IEEE.refillRate := float64.of_int 10; IEEE.lastRefill := 0 |}.

(** * Properties *)

(** ** Arithmetic of the bucket *)

Lemma wrap64_small (z : Z) : - 2 ^ 63 <= z <= maxInt64 -> wrap64 z = z.
Proof.
  unfold wrap64, maxInt64. intros H.
  rewrite Z.mod_small; lia.
Qed.

Lemma Seconds_eq (d : Duration) : (Seconds d == inject_Z d / inject_Z Second)%Q.
Proof.
  unfold Seconds.
  rewrite (Z.quot_rem' d Second) at 3.
  rewrite inject_Z_plus, inject_Z_mult.
  field. unfold Second. discriminate.
Qed.

Lemma Seconds_nonneg (d : Duration) : 0 <= d -> (0 <= Seconds d)%Q.
Proof.
  intros H. rewrite Seconds_eq.
  apply Qle_shift_div_l; [reflexivity|].
  rewrite Qmult_0_l. change 0%Q with (inject_Z 0). now rewrite <- Zle_Qle.
Qed.

Lemma Seconds_lower (d m : Duration) :
  m <= d -> (inject_Z m / inject_Z Second <= Seconds d)%Q.
Proof.
  intros H. rewrite Seconds_eq.
  apply Qmult_le_compat_r.
  - now rewrite <- Zle_Qle.
  - apply Qinv_le_0_compat. unfold Second. discriminate.
Qed.

Lemma Qlt_bool_iff (a b : Q) : Qlt_bool a b = true <-> (a < b)%Q.
Proof.
  unfold Qlt_bool. rewrite negb_true_iff.
  split; intros H.
  - apply Qnot_le_lt. intros Hle. apply Qle_bool_iff in Hle. congruence.
  - destruct (Qle_bool b a) eqn:E; [|reflexivity].
    apply Qle_bool_iff in E. apply Qle_not_lt in E. contradiction.
Qed.

Lemma Qle_bool_false (a b : Q) : Qle_bool a b = false <-> (b < a)%Q.
Proof.
  split; intros H.
  - apply Qnot_le_lt. intros Hle. apply Qle_bool_iff in Hle. congruence.
  - destruct (Qle_bool a b) eqn:E; [|reflexivity].
    apply Qle_bool_iff in E. apply Qle_not_lt in E. contradiction.
Qed.

Lemma min_cases (a b : Q) :
  ((a < b)%Q /\ min a b = a) \/ ((b <= a)%Q /\ min a b = b).
Proof.
  unfold min. destruct (Qlt_bool a b) eqn:E.
  - left. split; [now apply Qlt_bool_iff | reflexivity].
  - right. split; [|reflexivity].
    apply Qnot_lt_le. intros H. apply Qlt_bool_iff in H. congruence.
Qed.

Lemma min_Qmin (a b : Q) : (min a b == Qmin a b)%Q.
Proof.
  destruct (min_cases a b) as [[H E]|[H E]]; rewrite E.
  - symmetry. apply Q.min_l. now apply Qlt_le_weak.
  - symmetry. now apply Q.min_r.
Qed.

Lemma min_glb (a b c : Q) : (c <= a)%Q -> (c <= b)%Q -> (c <= min a b)%Q.
Proof. intros. rewrite min_Qmin. now apply Q.min_glb. Qed.

Lemma Allow_admits (rl : RateLimiter) (now : Time) :
  (1 <= refilled rl now)%Q ->
  Allow rl now =
    (true, {| tokens := (refilled rl now - 1)%Q; capacity := capacity rl;
              refillRate := refillRate rl; lastRefill := now |}).
Proof.
  intros H. unfold Allow. fold (refilled rl now).
  apply Qle_bool_iff in H. now rewrite H.
Qed.

Lemma Allow_rejects (rl : RateLimiter) (now : Time) :
  (refilled rl now < 1)%Q ->
  Allow rl now =
    (false, {| tokens := refilled rl now; capacity := capacity rl;
               refillRate := refillRate rl; lastRefill := now |}).
Proof.
  intros H. unfold Allow. fold (refilled rl now).
  apply Qle_bool_false in H. now rewrite H.
Qed.

(** ** [Wait] returns once the bucket has refilled *)

Ltac splits := repeat match goal with |- _ /\ _ => split end.

Lemma new_events_app (w w1 : World) (d : list Event) :
  trace w1 = trace w ++ d -> new_events w w1 = d.
Proof.
  intros H. unfold new_events. rewrite H.
  rewrite skipn_app, skipn_all, Nat.sub_diag. reflexivity.
Qed.

Lemma waitTime_bounds (rl : RateLimiter) :
  10 * Millisecond <= waitTime rl <= 1 * Second.
Proof.
  unfold waitTime, Millisecond, Second.
  destruct (Z.ltb_spec (wrap64 (float64_to_int64 (1000 / refillRate rl) * 1000000))
              (10 * 1000000)) as [H1|H1]; [lia|].
  destruct (Z.gtb_spec (wrap64 (float64_to_int64 (1000 / refillRate rl) * 1000000))
              (1 * 1000000000)) as [H2|H2]; lia.
Qed.

Lemma Wait_admit (fuel : nat) (w : World) (rl : RateLimiter) :
  limiter w = Some rl ->
  (1 <= refilled rl (clock w))%Q ->
  Wait (S fuel) w = Done tt (after_admit w rl).
Proof.
  intros Hl H. cbn [Wait]. unfold bind, AllowShared. rewrite Hl.
  rewrite (Allow_admits rl (clock w) H). reflexivity.
Qed.

Lemma Wait_reject (fuel : nat) (w : World) (rl : RateLimiter) :
  limiter w = Some rl ->
  (refilled rl (clock w) < 1)%Q ->
  Wait (S fuel) w = Wait fuel (after_reject w rl).
Proof.
  intros Hl H. cbn [Wait]. unfold bind, AllowShared. rewrite Hl.
  rewrite (Allow_rejects rl (clock w) H). reflexivity.
Qed.

Lemma admission_admit : admission [EvAllow true].
Proof. repeat split. Qed.

Lemma admission_reject (x : Duration) (d : list Event) :
  admission d -> admission (EvAllow false :: EvWaitSleep x :: d).
Proof.
  intros (Hb & Hq & Hg). repeat split; auto; simpl; apply Hg.
Qed.

Lemma Wait_returns (n : nat) :
  forall (w : World) (rl : RateLimiter),
    limiter w = Some rl ->
    (0 < refillRate rl)%Q ->
    (1 <= capacity rl)%Q ->
    lastRefill rl <= clock w ->
    (1 <= tokens rl + Seconds (Sub (clock w) (lastRefill rl)) * refillRate rl
          + inject_Z (Z.of_nat n) * (refillRate rl * (1 # 100)))%Q ->
    exists (w1 : World) (d : list Event),
      (forall fuel, (S n <= fuel)%nat -> Wait fuel w = Done tt w1) /\
      limiter_ok w1 /\ throttling_enabled w1 /\
      calls w1 = calls w /\
      trace w1 = trace w ++ d /\ admission d.
Proof.
  induction n as [|n IH]; intros w rl Hl Hrate Hcap Hclock Hpot.
  - (* the bucket already holds a token *)
    assert (H1 : (1 <= refilled rl (clock w))%Q).
    { unfold refilled. apply min_glb; [exact Hcap|].
      change (inject_Z (Z.of_nat 0)) with 0%Q in Hpot. lra. }
    exists (after_admit w rl), [EvAllow true]. splits.
    + intros [|fuel] Hf; [lia|]. now apply Wait_admit.
    + unfold limiter_ok. simpl. splits; auto. lia.
    + unfold throttling_enabled. simpl. discriminate.
    + reflexivity.
    + reflexivity.
    + apply admission_admit.
  - destruct (Qlt_le_dec (refilled rl (clock w)) 1) as [Hlt|Hge].
    + (* rejected: sleep, then poll again *)
      assert (Hmin : refilled rl (clock w)
                     = (tokens rl + Seconds (Sub (clock w) (lastRefill rl)) * refillRate rl)%Q).
      { unfold refilled in *.
        destruct (min_cases (capacity rl)
                    (tokens rl + Seconds (Sub (clock w) (lastRefill rl)) * refillRate rl)%Q)
          as [[Hc E]|[Hc E]]; rewrite E in *; [|reflexivity].
        exfalso. lra. }
      pose proof (waitTime_bounds (polled rl (clock w) (refilled rl (clock w)))) as Hwt.
      destruct (IH (after_reject w rl) (polled rl (clock w) (refilled rl (clock w))))
        as (w1 & d & Hrun & Hok & Hen & Hcalls & Htr & Had); auto.
      * simpl. unfold Millisecond in Hwt. lia.
      * cbn [after_reject polled clock tokens lastRefill refillRate].
        set (wt := waitTime _) in *.
        assert (Hs : (inject_Z (10 * Millisecond) / inject_Z Second
                      <= Seconds (Sub (clock w + Z.max 0 wt) (clock w)))%Q).
        { apply Seconds_lower. unfold Sub. lia. }
        assert (Hs' : ((1 # 100) <= Seconds (Sub (clock w + Z.max 0 wt) (clock w)))%Q).
        { eapply Qle_trans; [|exact Hs]. unfold Qle. simpl. lia. }
        assert (Hp : (refillRate rl * (1 # 100)
                      <= Seconds (Sub (clock w + Z.max 0 wt) (clock w)) * refillRate rl)%Q).
        { rewrite (Qmult_comm (Seconds _)).
          apply Qmult_le_l; [exact Hrate | exact Hs']. }
        rewrite Hmin.
        rewrite Nat2Z.inj_succ in Hpot. unfold Z.succ in Hpot.
        rewrite inject_Z_plus in Hpot. change (inject_Z 1) with 1%Q in Hpot.
        lra.
      * exists w1, (EvAllow false
                    :: EvWaitSleep (waitTime (polled rl (clock w) (refilled rl (clock w))))
                    :: d).
        splits; auto.
        -- intros [|fuel] Hf; [lia|].
           rewrite (Wait_reject fuel w rl Hl Hlt). apply Hrun. lia.
        -- rewrite Htr. simpl. rewrite <- !app_assoc. reflexivity.
        -- apply admission_reject, Had.
    + exists (after_admit w rl), [EvAllow true]. splits.
      * intros [|fuel] Hf; [lia|]. now apply Wait_admit.
      * unfold limiter_ok. simpl. splits; auto. lia.
      * unfold throttling_enabled. simpl. discriminate.
      * reflexivity.
      * reflexivity.
      * apply admission_admit.
Qed.

(** Enough polls exist for every balance. *)
Lemma polls_needed (p rate : Q) :
  (0 < rate)%Q ->
  exists n : nat, (1 <= p + inject_Z (Z.of_nat n) * (rate * (1 # 100)))%Q.
Proof.
  intros Hr.
  set (x := ((1 - p) / (rate * (1 # 100)))%Q).
  exists (Z.to_nat (Qceiling x)).
  destruct (Z.le_gt_cases 0 (Qceiling x)) as [H|H].
  - rewrite Z2Nat.id by exact H.
    assert (Hx : (x <= inject_Z (Qceiling x))%Q) by apply Qle_ceiling.
    assert (Hm : (x * (rate * (1 # 100)) <= inject_Z (Qceiling x) * (rate * (1 # 100)))%Q).
    { apply Qmult_le_compat_r; [exact Hx | lra]. }
    assert (E : (x * (rate * (1 # 100)) == 1 - p)%Q).
    { unfold x. field. lra. }
    lra.
  - assert (Hx : (x <= inject_Z (Qceiling x))%Q) by apply Qle_ceiling.
    assert (Hneg : (inject_Z (Qceiling x) <= 0)%Q).
    { change 0%Q with (inject_Z 0). rewrite <- Zle_Qle. lia. }
    assert (Hm : (x * (rate * (1 # 100)) <= 0 * (rate * (1 # 100)))%Q).
    { apply Qmult_le_compat_r; lra. }
    assert (E : (x * (rate * (1 # 100)) == 1 - p)%Q).
    { unfold x. field. lra. }
    replace (Z.to_nat (Qceiling x)) with 0%nat by lia.
    change (inject_Z (Z.of_nat 0)) with 0%Q.
    lra.
Qed.

(** ** Traces under concatenation *)

Lemma backoffs_app (d1 d2 : list Event) :
  backoffs (d1 ++ d2) = backoffs d1 ++ backoffs d2.
Proof.
  induction d1 as [|e d1 IH]; [reflexivity|].
  destruct e; simpl; rewrite IH; reflexivity.
Qed.

Lemma queries_app (d1 d2 : list Event) :
  queries (d1 ++ d2) = queries d1 ++ queries d2.
Proof.
  induction d1 as [|e d1 IH]; [reflexivity|].
  destruct e; simpl; rewrite IH; reflexivity.
Qed.

Lemma admitted_after_app (d1 d2 : list Event) :
  forall b, admitted_after b (d1 ++ d2) = admitted_after (admitted_after b d1) d2.
Proof.
  induction d1 as [|e d1 IH]; intros b; [reflexivity|].
  destruct e; simpl; apply IH.
Qed.

Lemma guarded_app (d1 d2 : list Event) :
  forall b, guarded b (d1 ++ d2) = guarded b d1 && guarded (admitted_after b d1) d2.
Proof.
  induction d1 as [|e d1 IH]; intros b; [reflexivity|].
  destruct e; simpl; rewrite ?IH; try reflexivity.
  now rewrite andb_assoc.
Qed.

Lemma guarded_no_queries (d : list Event) :
  queries d = [] -> forall b, guarded b d = true.
Proof.
  induction d as [|e d IH]; intros H b; [reflexivity|].
  destruct e; simpl in *; try discriminate; now apply IH.
Qed.

Lemma steps_app (d1 d2 : list Event) : steps (d1 ++ d2) = steps d1 ++ steps d2.
Proof.
  induction d1 as [|e d1 IH]; [reflexivity|].
  destruct e; simpl; rewrite IH; reflexivity.
Qed.

Lemma steps_quiet (d : list Event) :
  backoffs d = [] -> queries d = [] -> steps d = [].
Proof.
  induction d as [|e d IH]; intros Hb Hq; [reflexivity|].
  destruct e; simpl in *; try discriminate; now apply IH.
Qed.

Lemma queries_steps (d : list Event) : queries (steps d) = queries d.
Proof.
  induction d as [|e d IH]; [reflexivity|].
  destruct e; simpl; rewrite ?IH; reflexivity.
Qed.

Lemma backoffs_steps (d : list Event) : backoffs (steps d) = backoffs d.
Proof.
  induction d as [|e d IH]; [reflexivity|].
  destruct e; simpl; rewrite ?IH; reflexivity.
Qed.

Lemma queries_alternate (qs : list nat) :
  forall bs : list Duration,
    List.length qs = S (List.length bs) -> queries (alternate qs bs) = qs.
Proof.
  induction qs as [|q qs IH]; intros bs H; [discriminate|].
  destruct bs as [|b bs]; simpl in *.
  - destruct qs; [reflexivity | discriminate].
  - f_equal. apply IH. lia.
Qed.

Lemma backoffs_alternate (qs : list nat) :
  forall bs : list Duration,
    List.length qs = S (List.length bs) -> backoffs (alternate qs bs) = bs.
Proof.
  induction qs as [|q qs IH]; intros bs H; [discriminate|].
  destruct bs as [|b bs]; simpl in *.
  - reflexivity.
  - f_equal. apply IH. lia.
Qed.

Lemma Zseq_S (a : Z) (k : nat) : Zseq a (S k) = a :: Zseq (a + 1) k.
Proof.
  unfold Zseq. cbn [seq map]. f_equal; [lia|].
  rewrite <- seq_shift, map_map. apply map_ext. intros i. lia.
Qed.

Lemma Zseq_length (a : Z) (k : nat) : List.length (Zseq a k) = k.
Proof. unfold Zseq. now rewrite length_map, length_seq. Qed.

Lemma Zseq_nth (a : Z) (k i : nat) :
  (i < k)%nat -> nth_error (Zseq a k) i = Some (a + Z.of_nat i).
Proof.
  intros H. unfold Zseq.
  rewrite nth_error_map, nth_error_seq.
  destruct (Nat.ltb_spec i k); [reflexivity | lia].
Qed.

(** ** One turn of the shared loop *)

Section RetryCoreSteps.

Context {R : Type}.
Variable gate : nat -> M unit.
Variable backoff : Z -> Duration.
Variable exhausted : error.
Variable limit : Z.
Variable query : Query R.

Let core := retry_core gate backoff exhausted limit query.

Lemma core_blocked (fuel : nat) (r : Z) (w w1 : World) :
  gate fuel w = OutOfFuel w1 -> core (S fuel) r w = OutOfFuel w1.
Proof. intros H. unfold core. cbn [retry_core]. unfold bind. now rewrite H. Qed.

Lemma core_panicked (fuel : nat) (r : Z) (w w1 : World) :
  gate fuel w = Panic w1 -> core (S fuel) r w = Panic w1.
Proof. intros H. unfold core. cbn [retry_core]. unfold bind. now rewrite H. Qed.

Lemma core_retry (fuel : nat) (r : Z) (w w1 : World) (u : unit) :
  gate fuel w = Done u w1 ->
  hasCode 429 (snd (query (calls w1))) = true ->
  r < limit ->
  core (S fuel) r w
  = core fuel (r + 1) (after_backoff (after_call w1) (backoff (r + 1))).
Proof.
  intros Ha H429 Hlt. unfold core. cbn [retry_core]. unfold bind at 1. rewrite Ha.
  unfold bind at 1. unfold call at 1. cbn [snd]. rewrite H429.
  apply Z.ltb_lt in Hlt. rewrite Hlt. reflexivity.
Qed.

Lemma core_exhausted (fuel : nat) (r : Z) (w w1 : World) (u : unit) :
  gate fuel w = Done u w1 ->
  hasCode 429 (snd (query (calls w1))) = true ->
  limit <= r ->
  core (S fuel) r w = Done (None, Some exhausted) (after_call w1).
Proof.
  intros Ha H429 Hge. unfold core. cbn [retry_core]. unfold bind at 1. rewrite Ha.
  unfold bind at 1. unfold call at 1. cbn [snd]. rewrite H429.
  apply Z.ltb_ge in Hge. rewrite Hge. reflexivity.
Qed.

Lemma core_final (fuel : nat) (r : Z) (w w1 : World) (u : unit) :
  gate fuel w = Done u w1 ->
  hasCode 429 (snd (query (calls w1))) = false ->
  core (S fuel) r w = Done (final (query (calls w1))) (after_call w1).
Proof.
  intros Ha H429. unfold core. cbn [retry_core]. unfold bind at 1. rewrite Ha.
  unfold bind at 1. unfold call at 1. cbn [snd]. rewrite H429. reflexivity.
Qed.

(** *** Runs that return *)

Variable Inv : World -> Prop.

Hypothesis gate_returns :
  forall w, Inv w ->
    exists (f0 : nat) (w1 : World) (d : list Event),
      (forall fuel, (f0 <= fuel)%nat -> gate fuel w = Done tt w1) /\
      Inv w1 /\ calls w1 = calls w /\
      trace w1 = trace w ++ d /\ backoffs d = [] /\ queries d = [].

Hypothesis Inv_later :
  forall w w1, Inv w -> limiter w1 = limiter w -> clock w <= clock w1 -> Inv w1.


Lemma run_of_retry (k : nat) (r : Z) (w w1 w2 : World) (d : list Event) :
  calls w1 = calls w ->
  trace w1 = trace w ++ d -> backoffs d = [] -> queries d = [] ->
  run_of backoff Inv k (r + 1) (after_backoff (after_call w1) (backoff (r + 1))) w2 ->
  run_of backoff Inv (S k) r w w2.
Proof.
  intros Hc Ht Hb Hq (Hinv & Hcalls & d0 & Htr & Hst).
  cbn [after_backoff after_call calls trace] in *.
  split; [exact Hinv|]. split; [lia|].
  exists (d ++ [EvQuery (calls w)] ++ [EvPrintf (backoff (r + 1))]
            ++ [EvBackoff (backoff (r + 1))] ++ d0).
  replace (calls w + S k)%nat with (S (calls w1) + k)%nat by lia.
  split.
  - rewrite Htr, Ht, Hc. rewrite <- !app_assoc. reflexivity.
  - rewrite <- !app_assoc, steps_app, (steps_quiet d Hb Hq).
    cbn [app steps]. rewrite Hst, Hc, Zseq_S. reflexivity.
Qed.

Lemma core_settles (k : nat) :
  forall (r : Z) (w : World),
    Inv w ->
    (forall i, (i < k)%nat -> hasCode 429 (snd (query (calls w + i)%nat)) = true) ->
    hasCode 429 (snd (query (calls w + k)%nat)) = false ->
    r + Z.of_nat k <= limit ->
    exists (f0 : nat) (w1 : World),
      (forall fuel, (f0 <= fuel)%nat ->
         core fuel r w = Done (final (query (calls w + k)%nat)) w1) /\
      run_of backoff Inv k r w w1.
Proof.
  induction k as [|k IH]; intros r w HI H429 Hlast Hlim;
    destruct (gate_returns w HI) as (f1 & w1 & d & Hadm & HI1 & Hc1 & Ht1 & Hb1 & Hq1).
  - rewrite Nat.add_0_r in Hlast.
    exists (S f1), (after_call w1). split.
    + intros [|fuel] Hf; [lia|].
      rewrite (core_final fuel r w w1 tt).
      * now rewrite Hc1, Nat.add_0_r.
      * apply Hadm. lia.
      * now rewrite Hc1.
    + split; [|split].
      * apply (Inv_later w1); [exact HI1 | reflexivity | simpl; lia].
      * simpl. lia.
      * exists d. rewrite Nat.add_0_r. split.
        -- simpl. rewrite Ht1, Hc1, <- app_assoc. reflexivity.
        -- rewrite steps_app, (steps_quiet d Hb1 Hq1). reflexivity.
  - set (w2 := after_backoff (after_call w1) (backoff (r + 1))).
    destruct (IH (r + 1) w2) as (f2 & w3 & Hrun & Hof).
    + apply (Inv_later w1); [exact HI1 | reflexivity | simpl; lia].
    + intros i Hi.
      replace (calls w2 + i)%nat with (calls w + S i)%nat
        by (unfold w2; simpl; lia).
      apply H429. lia.
    + replace (calls w2 + k)%nat with (calls w + S k)%nat
        by (unfold w2; simpl; lia).
      exact Hlast.
    + lia.
    + exists (S (Nat.max f1 f2)), w3. split.
      * intros [|fuel] Hf; [lia|].
        rewrite (core_retry fuel r w w1 tt).
        -- fold w2. rewrite Hrun by lia.
           replace (calls w2 + k)%nat with (calls w + S k)%nat
             by (unfold w2; simpl; lia).
           reflexivity.
        -- apply Hadm. lia.
        -- rewrite Hc1. rewrite <- (Nat.add_0_r (calls w)). apply H429. lia.
        -- lia.
      * eapply run_of_retry; eauto.
Qed.

Lemma core_exhausts (k : nat) :
  forall (r : Z) (w : World),
    Inv w ->
    (forall i, (i <= k)%nat -> hasCode 429 (snd (query (calls w + i)%nat)) = true) ->
    limit = r + Z.of_nat k ->
    exists (f0 : nat) (w1 : World),
      (forall fuel, (f0 <= fuel)%nat ->
         core fuel r w = Done (None, Some exhausted) w1) /\
      run_of backoff Inv k r w w1.
Proof.
  induction k as [|k IH]; intros r w HI H429 Hlim;
    destruct (gate_returns w HI) as (f1 & w1 & d & Hadm & HI1 & Hc1 & Ht1 & Hb1 & Hq1).
  - exists (S f1), (after_call w1). split.
    + intros [|fuel] Hf; [lia|].
      apply (core_exhausted fuel r w w1 tt); [apply Hadm; lia | | lia].
      rewrite Hc1. rewrite <- (Nat.add_0_r (calls w)). apply H429. lia.
    + split; [|split].
      * apply (Inv_later w1); [exact HI1 | reflexivity | simpl; lia].
      * simpl. lia.
      * exists d. rewrite Nat.add_0_r. split.
        -- simpl. rewrite Ht1, Hc1, <- app_assoc. reflexivity.
        -- rewrite steps_app, (steps_quiet d Hb1 Hq1). reflexivity.
  - set (w2 := after_backoff (after_call w1) (backoff (r + 1))).
    destruct (IH (r + 1) w2) as (f2 & w3 & Hrun & Hof).
    + apply (Inv_later w1); [exact HI1 | reflexivity | simpl; lia].
    + intros i Hi.
      replace (calls w2 + i)%nat with (calls w + S i)%nat
        by (unfold w2; simpl; lia).
      apply H429. lia.
    + lia.
    + exists (S (Nat.max f1 f2)), w3. split.
      * intros [|fuel] Hf; [lia|].
        rewrite (core_retry fuel r w w1 tt).
        -- fold w2. apply Hrun. lia.
        -- apply Hadm. lia.
        -- rewrite Hc1. rewrite <- (Nat.add_0_r (calls w)). apply H429. lia.
        -- lia.
      * eapply run_of_retry; eauto.
Qed.

End RetryCoreSteps.

(** ** The wrappers are instances of the shared loop *)

Ltac open_turn :=
  unfold Printf, Sleep, callErr, lift_err, no_admit;
  unfold bind, call, log, advance, ret, final;
  cbn [clock limiter calls trace snd fst].

Lemma Api_getWithRetry_loop_core {R : Type} (c : Api.Client) (query : Query R) :
  forall (fuel : nat) (r : Z) (w : World),
    Api.getWithRetry_loop fuel c query r w = api_core backoff20 c query fuel r w.
Proof.
  unfold api_core.
  induction fuel as [|fuel IH]; intros r w; [reflexivity|].
  cbn [Api.getWithRetry_loop retry_core]. open_turn.
  destruct (Api.throttle fuel c w) as [u w1|w1|w1]; try reflexivity.
  destruct (query (calls w1)) as [resp err]. cbn [snd fst].
  destruct (hasCode 429 err).
  - destruct (r <? Api.RetryLimit (Api.Options c)); [apply IH | reflexivity].
  - destruct err; reflexivity.
Qed.

Lemma Api_executeWithRetry_loop_core (c : Api.Client) (query : QueryErr) :
  forall (fuel : nat) (r : Z) (w : World),
    Api.executeWithRetry_loop fuel c query r w
    = map_res snd (api_core backoff1 c (lift_err query) fuel r w).
Proof.
  unfold api_core.
  induction fuel as [|fuel IH]; intros r w; [reflexivity|].
  cbn [Api.executeWithRetry_loop retry_core]. open_turn.
  destruct (Api.throttle fuel c w) as [u w1|w1|w1]; try reflexivity.
  destruct (hasCode 429 (query (calls w1))).
  - destruct (r <? Api.RetryLimit (Api.Options c)); [apply IH | reflexivity].
  - destruct (query (calls w1)); reflexivity.
Qed.

Lemma ApiGeneric_getResponseWithRetry_loop_core {R : Type} (query : Query R)
    (retryLimit : Z) :
  forall (fuel : nat) (r : Z) (w : World),
    ApiGeneric.getResponseWithRetry_loop fuel query retryLimit r w
    = generic_core backoff20 "Rate limit exceeded after " retryLimit query fuel r w.
Proof.
  unfold generic_core.
  induction fuel as [|fuel IH]; intros r w; [reflexivity|].
  cbn [ApiGeneric.getResponseWithRetry_loop retry_core]. open_turn.
  destruct (query (calls w)) as [resp err]. cbn [snd fst].
  destruct (hasCode 429 err).
  - destruct (r <? retryLimit); [apply IH | reflexivity].
  - destruct err; reflexivity.
Qed.

Lemma ApiGeneric_executeWithRetry_loop_core (query : QueryErr) (retryLimit : Z) :
  forall (fuel : nat) (r : Z) (w : World),
    ApiGeneric.executeWithRetry_loop fuel query retryLimit r w
    = map_res snd
        (generic_core backoff1 "rate limit exceeded after " retryLimit
           (lift_err query) fuel r w).
Proof.
  unfold generic_core.
  induction fuel as [|fuel IH]; intros r w; [reflexivity|].
  cbn [ApiGeneric.executeWithRetry_loop retry_core]. open_turn.
  destruct (hasCode 429 (query (calls w))).
  - destruct (r <? retryLimit); [apply IH | reflexivity].
  - destruct (query (calls w)); reflexivity.
Qed.

(** ** Admission returns when the limiter lets calls through *)

Lemma limiter_ok_later (w w1 : World) :
  limiter_ok w -> limiter w1 = limiter w -> clock w <= clock w1 -> limiter_ok w1.
Proof.
  unfold limiter_ok. intros H Hl Hc. rewrite Hl.
  destruct (limiter w) as [rl|]; [|exact I].
  destruct H as (H1 & H2 & H3). splits; auto. lia.
Qed.

Lemma throttle_returns (c : Api.Client) (w : World) :
  limiter_ok w ->
  exists (f0 : nat) (w1 : World) (d : list Event),
    (forall fuel, (f0 <= fuel)%nat -> Api.throttle fuel c w = Done tt w1) /\
    limiter_ok w1 /\ calls w1 = calls w /\
    trace w1 = trace w ++ d /\ backoffs d = [] /\ queries d = [].
Proof.
  intros Hok. unfold Api.throttle.
  destruct (limiter w) as [rl|] eqn:Hl.
  - unfold limiter_ok in Hok. rewrite Hl in Hok. destruct Hok as (Hr & Hc & Ht).
    destruct (polls_needed
                (tokens rl + Seconds (Sub (clock w) (lastRefill rl)) * refillRate rl)
                (refillRate rl) Hr) as [n Hn].
    destruct (Wait_returns n w rl Hl Hr Hc Ht Hn)
      as (w1 & d & Hrun & Hok1 & _ & Hcalls & Htr & Hb & Hq & _).
    exists (S n), w1, d. splits; auto.
  - exists 0%nat, w, []. splits; auto.
    now rewrite app_nil_r.
Qed.

(** The options read from the environment give a limiter that lets calls
    through: both guards [val > 0] keep the defaults otherwise. *)
Lemma NewClientOptionsFromEnv_rates (env : Api.Environ) :
  (0 < Api.RateLimit (Api.NewClientOptionsFromEnv env))%Q /\
  1 <= Api.RateBurst (Api.NewClientOptionsFromEnv env).
Proof.
  unfold Api.NewClientOptionsFromEnv. cbn [Api.RateLimit Api.RateBurst]. split.
  - destruct (Api.isEmpty _); [reflexivity|].
    destruct (Api.ParseFloat env _) as [val|]; [|reflexivity].
    destruct (Qlt_bool 0 val) eqn:E; [|reflexivity].
    now apply Qlt_bool_iff.
  - destruct (Api.isEmpty _); [lia|].
    destruct (Api.Atoi env _) as [val|]; [|lia].
    destruct (Z.gtb_spec val 0); lia.
Qed.

Lemma NewClient_limiter_ok (newService : string -> Api.Service + error)
    (opts : Api.ClientOptions) (w w1 : World) (r : option Api.Client * option error) :
  (0 < Api.RateLimit opts)%Q ->
  1 <= Api.RateBurst opts ->
  Api.NewClient newService opts w = Done r w1 ->
  limiter_ok w1 \/ (w1 = w /\ snd r <> None).
Proof.
  intros Hr Hb. unfold Api.NewClient.
  destruct (newService (Api.CredentialFile opts)) as [srv|err];
    intros H; inversion H; subst; clear H.
  - left. unfold limiter_ok. cbn [limiter clock].
    destruct (Api.ThrottleEnabled opts); [|exact I].
    cbn [NewRateLimiter refillRate capacity lastRefill]. splits.
    + exact Hr.
    + change 1%Q with (inject_Z 1). now rewrite <- Zle_Qle.
    + lia.
  - right. split; [reflexivity | discriminate].
Qed.

Lemma NewClientFromEnv_limiter_ok (env : Api.Environ)
    (newService : string -> Api.Service + error)
    (w w1 : World) (r : option Api.Client * option error) :
  Api.NewClientFromEnv env newService w = Done r w1 ->
  limiter_ok w1 \/ (w1 = w /\ snd r <> None).
Proof.
  destruct (NewClientOptionsFromEnv_rates env) as [Hr Hb].
  now apply NewClient_limiter_ok.
Qed.

Lemma no_admit_returns (w : World) :
  True ->
  exists (f0 : nat) (w1 : World) (d : list Event),
    (forall fuel, (f0 <= fuel)%nat -> no_admit fuel w = Done tt w1) /\
    True /\ calls w1 = calls w /\
    trace w1 = trace w ++ d /\ backoffs d = [] /\ queries d = [].
Proof.
  intros _. exists 0%nat, w, []. splits; auto. now rewrite app_nil_r.
Qed.

(** ** What any run, finished or not, leaves in the trace *)

Lemma world_of_map_res {A B : Type} (f : A -> B) (r : Res A) :
  world_of (map_res f r) = world_of r.
Proof. destruct r; reflexivity. Qed.

Lemma Wait_trace (fuel : nat) :
  forall w : World,
    throttling_enabled w ->
    exists d : list Event,
      trace (world_of (Wait fuel w)) = trace w ++ d /\
      backoffs d = [] /\ queries d = [] /\
      throttling_enabled (world_of (Wait fuel w)) /\
      (forall u w1, Wait fuel w = Done u w1 -> forall b, admitted_after b d = true).
Proof.
  induction fuel as [|fuel IH]; intros w Hen.
  - exists []. simpl. splits; auto.
    + now rewrite app_nil_r.
    + discriminate.
  - destruct (limiter w) as [rl|] eqn:Hl; [|exfalso; now apply Hen].
    destruct (Qlt_le_dec (refilled rl (clock w)) 1) as [Hlt|Hge].
    + rewrite (Wait_reject fuel w rl Hl Hlt).
      destruct (IH (after_reject w rl)) as (d & Htr & Hb & Hq & Hen1 & Hadm).
      { unfold throttling_enabled. simpl. discriminate. }
      exists (EvAllow false
              :: EvWaitSleep (waitTime (polled rl (clock w) (refilled rl (clock w))))
              :: d).
      splits; auto.
      * rewrite Htr. simpl. rewrite <- !app_assoc. reflexivity.
      * intros u w1 H b. simpl. now apply (Hadm u w1).
    + rewrite (Wait_admit fuel w rl Hl Hge).
      exists [EvAllow true]. simpl. splits; auto.
      unfold throttling_enabled. simpl. discriminate.
Qed.

Lemma throttle_trace (fuel : nat) (c : Api.Client) (w : World) :
  exists d : list Event,
    trace (world_of (Api.throttle fuel c w)) = trace w ++ d /\
    backoffs d = [] /\ queries d = [].
Proof.
  unfold Api.throttle. destruct (limiter w) as [rl|] eqn:Hl.
  - destruct (Wait_trace fuel w) as (d & Htr & Hb & Hq & _).
    { unfold throttling_enabled. rewrite Hl. discriminate. }
    exists d. auto.
  - exists []. simpl. splits; auto. now rewrite app_nil_r.
Qed.

Lemma throttle_quiet (fuel : nat) (c : Api.Client) (w : World) :
  exists d : list Event,
    trace (world_of (Api.throttle fuel c w)) = trace w ++ d /\ backoffs d = [].
Proof.
  destruct (throttle_trace fuel c w) as (d & Htr & Hb & _). exists d. auto.
Qed.

Lemma throttle_admits (fuel : nat) (c : Api.Client) (w : World) :
  throttling_enabled w ->
  exists d : list Event,
    trace (world_of (Api.throttle fuel c w)) = trace w ++ d /\
    queries d = [] /\
    throttling_enabled (world_of (Api.throttle fuel c w)) /\
    (forall u w1, Api.throttle fuel c w = Done u w1 ->
                  forall b, admitted_after b d = true).
Proof.
  intros Hen. unfold Api.throttle.
  destruct (limiter w) as [rl|] eqn:Hl; [|exfalso; now apply Hen].
  destruct (Wait_trace fuel w Hen) as (d & Htr & Hb & Hq & Hen1 & Hadm).
  exists d. auto.
Qed.

Section RetryCoreTraces.

Context {R : Type}.
Variable gate : nat -> M unit.
Variable backoff : Z -> Duration.
Variable exhausted : error.
Variable limit : Z.
Variable query : Query R.

Let core := retry_core gate backoff exhausted limit query.

(** The backoffs of a run are those of the retries 1, 2, ... in order. *)
Lemma core_backoffs
    (gate_quiet : forall fuel w, exists d,
        trace (world_of (gate fuel w)) = trace w ++ d /\ backoffs d = []) :
  forall (fuel : nat) (r : Z) (w : World),
    exists (d : list Event) (k : nat),
      trace (world_of (core fuel r w)) = trace w ++ d /\
      backoffs d = map backoff (Zseq (r + 1) k).
Proof.
  induction fuel as [|fuel IH]; intros r w.
  - exists [], 0%nat. simpl. split; [now rewrite app_nil_r | reflexivity].
  - destruct (gate_quiet fuel w) as (d & Htr & Hb).
    destruct (gate fuel w) as [u w1|w1|w1] eqn:Hg; simpl in Htr.
    + destruct (hasCode 429 (snd (query (calls w1)))) eqn:H429.
      * destruct (Z.lt_ge_cases r limit) as [Hlt|Hge].
        -- unfold core. rewrite (core_retry gate backoff exhausted limit query
                                   fuel r w w1 u Hg H429 Hlt).
           destruct (IH (r + 1) (after_backoff (after_call w1) (backoff (r + 1))))
             as (d1 & k & Htr1 & Hb1).
           exists (d ++ [EvQuery (calls w1)] ++ [EvPrintf (backoff (r + 1))]
                     ++ [EvBackoff (backoff (r + 1))] ++ d1), (S k).
           split.
           ++ unfold core in Htr1. rewrite Htr1. simpl. rewrite Htr.
              rewrite <- !app_assoc. reflexivity.
           ++ rewrite !backoffs_app, Hb, Hb1, Zseq_S. reflexivity.
        -- unfold core. rewrite (core_exhausted gate backoff exhausted limit query
                                   fuel r w w1 u Hg H429 Hge).
           exists (d ++ [EvQuery (calls w1)]), 0%nat. simpl. split.
           ++ rewrite Htr, <- app_assoc. reflexivity.
           ++ rewrite backoffs_app, Hb. reflexivity.
      * unfold core. rewrite (core_final gate backoff exhausted limit query
                                fuel r w w1 u Hg H429).
        exists (d ++ [EvQuery (calls w1)]), 0%nat. simpl. split.
        -- rewrite Htr, <- app_assoc. reflexivity.
        -- rewrite backoffs_app, Hb. reflexivity.
    + unfold core. rewrite (core_blocked gate backoff exhausted limit query
                              fuel r w w1 Hg).
      exists d, 0%nat. simpl. auto.
    + unfold core. rewrite (core_panicked gate backoff exhausted limit query
                              fuel r w w1 Hg).
      exists d, 0%nat. simpl. auto.
Qed.

(** When the gate ends on an admitting [Allow()], every remote call of a
    run comes directly after one. *)
Lemma core_guarded (P : World -> Prop)
    (gate_admits : forall fuel w, P w -> exists d,
        trace (world_of (gate fuel w)) = trace w ++ d /\
        queries d = [] /\
        P (world_of (gate fuel w)) /\
        (forall u w1, gate fuel w = Done u w1 -> forall b, admitted_after b d = true))
    (P_later : forall w w1, P w -> limiter w1 = limiter w -> P w1) :
  forall (fuel : nat) (r : Z) (w : World),
    P w ->
    exists d : list Event,
      trace (world_of (core fuel r w)) = trace w ++ d /\
      forall b, guarded b d = true.
Proof.
  induction fuel as [|fuel IH]; intros r w HP.
  - exists []. simpl. split; [now rewrite app_nil_r | reflexivity].
  - destruct (gate_admits fuel w HP) as (d & Htr & Hq & HP1 & Hadm).
    destruct (gate fuel w) as [u w1|w1|w1] eqn:Hg; simpl in Htr, HP1.
    + specialize (Hadm u w1 eq_refl).
      destruct (hasCode 429 (snd (query (calls w1)))) eqn:H429.
      * destruct (Z.lt_ge_cases r limit) as [Hlt|Hge].
        -- unfold core. rewrite (core_retry gate backoff exhausted limit query
                                   fuel r w w1 u Hg H429 Hlt).
           destruct (IH (r + 1) (after_backoff (after_call w1) (backoff (r + 1))))
             as (d1 & Htr1 & Hg1).
           { apply (P_later w1); [exact HP1 | reflexivity]. }
           exists (d ++ [EvQuery (calls w1)] ++ [EvPrintf (backoff (r + 1))]
                     ++ [EvBackoff (backoff (r + 1))] ++ d1).
           split.
           ++ unfold core in Htr1. rewrite Htr1. simpl. rewrite Htr.
              rewrite <- !app_assoc. reflexivity.
           ++ intros b. rewrite guarded_app, (guarded_no_queries d Hq), Hadm.
              simpl. apply Hg1.
        -- unfold core. rewrite (core_exhausted gate backoff exhausted limit query
                                   fuel r w w1 u Hg H429 Hge).
           exists (d ++ [EvQuery (calls w1)]). simpl. split.
           ++ rewrite Htr, <- app_assoc. reflexivity.
           ++ intros b. rewrite guarded_app, (guarded_no_queries d Hq), Hadm.
              reflexivity.
      * unfold core. rewrite (core_final gate backoff exhausted limit query
                                fuel r w w1 u Hg H429).
        exists (d ++ [EvQuery (calls w1)]). simpl. split.
        -- rewrite Htr, <- app_assoc. reflexivity.
        -- intros b. rewrite guarded_app, (guarded_no_queries d Hq), Hadm.
           reflexivity.
    + unfold core. rewrite (core_blocked gate backoff exhausted limit query
                              fuel r w w1 Hg).
      exists d. simpl. split; [exact Htr|]. intros b. now apply guarded_no_queries.
    + unfold core. rewrite (core_panicked gate backoff exhausted limit query
                              fuel r w w1 Hg).
      exists d. simpl. split; [exact Htr|]. intros b. now apply guarded_no_queries.
Qed.

End RetryCoreTraces.

(** ** The wrappers return *)

Lemma rate_limited_hasCode (err : option error) :
  rate_limited err <-> hasCode 429 err = true.
Proof.
  split.
  - intros (e & -> & Hc). simpl. now apply Z.eqb_eq.
  - destruct err as [[e| |m|m i]|]; simpl; try discriminate.
    intros H. exists e. split; [reflexivity | now apply Z.eqb_eq].
Qed.

Lemma run_of_events (b : Z -> Duration) (Inv : World -> Prop) (k : nat) (r : Z)
    (w w1 : World) :
  run_of b Inv k r w w1 ->
  queries (new_events w w1) = seq (calls w) (k + 1) /\
  backoffs (new_events w w1) = map b (Zseq (r + 1) k) /\
  steps (new_events w w1)
  = alternate (seq (calls w) (k + 1)) (map b (Zseq (r + 1) k)) /\
  exists d0, new_events w w1 = d0 ++ [EvQuery (calls w + (k + 1) - 1)].
Proof.
  intros (_ & _ & d0 & Htr & Hst).
  rewrite (new_events_app w w1 _ Htr).
  assert (Hlen : List.length (seq (calls w) (k + 1))
                 = S (List.length (map b (Zseq (r + 1) k)))).
  { rewrite length_seq, length_map, Zseq_length. lia. }
  splits.
  - rewrite <- queries_steps, Hst. now apply queries_alternate.
  - rewrite <- backoffs_steps, Hst. now apply backoffs_alternate.
  - exact Hst.
  - exists d0. do 3 f_equal. lia.
Qed.

Section ApiRuns.

Variable c : Api.Client.
Variable w : World.
Hypothesis Hok : limiter_ok w.

Let L := Api.RetryLimit (Api.Options c).

Lemma Api_getWithRetry_settles {R : Type} (query : Query R) (k : nat) :
  (forall i, (i < k)%nat -> rate_limited (snd (query (calls w + i)%nat))) ->
  ~ rate_limited (snd (query (calls w + k)%nat)) ->
  Z.of_nat k <= L ->
  returns_after (fun fuel => Api.getWithRetry fuel c query) w
    (final (query (calls w + k)%nat)) (k + 1) (map backoff20 (Zseq 1 k)).
Proof.
  intros H429 Hlast Hk.
  destruct (core_settles (fun fuel => Api.throttle fuel c) backoff20 (api_exhausted c)
              L query limiter_ok (throttle_returns c) limiter_ok_later k 0 w Hok)
    as (f0 & w1 & Hrun & Hof).
  - intros i Hi. now apply rate_limited_hasCode, H429.
  - destruct (hasCode 429 (snd (query (calls w + k)%nat))) eqn:E; [|reflexivity].
    exfalso. now apply Hlast, rate_limited_hasCode.
  - lia.
  - destruct (run_of_events _ _ _ _ _ _ Hof) as (Hq & Hb & Hs & Hd).
    exists w1. splits; auto.
    exists f0. intros fuel Hf. unfold Api.getWithRetry.
    rewrite Api_getWithRetry_loop_core. now apply Hrun.
Qed.

Lemma Api_getWithRetry_exhausts {R : Type} (query : Query R) :
  0 <= L ->
  (forall i, (i <= Z.to_nat L)%nat -> rate_limited (snd (query (calls w + i)%nat))) ->
  returns_after (fun fuel => Api.getWithRetry fuel c query) w
    (None, Some (api_exhausted c)) (Z.to_nat L + 1) (map backoff20 (Zseq 1 (Z.to_nat L))).
Proof.
  intros HL H429.
  destruct (core_exhausts (fun fuel => Api.throttle fuel c) backoff20 (api_exhausted c)
              L query limiter_ok (throttle_returns c) limiter_ok_later
              (Z.to_nat L) 0 w Hok)
    as (f0 & w1 & Hrun & Hof).
  - intros i Hi. now apply rate_limited_hasCode, H429.
  - lia.
  - destruct (run_of_events _ _ _ _ _ _ Hof) as (Hq & Hb & Hs & Hd).
    exists w1. splits; auto.
    exists f0. intros fuel Hf. unfold Api.getWithRetry.
    rewrite Api_getWithRetry_loop_core. now apply Hrun.
Qed.

Lemma Api_executeWithRetry_settles (query : QueryErr) (k : nat) :
  (forall i, (i < k)%nat -> rate_limited (query (calls w + i)%nat)) ->
  ~ rate_limited (query (calls w + k)%nat) ->
  Z.of_nat k <= L ->
  returns_after (fun fuel => Api.executeWithRetry fuel c query) w
    (query (calls w + k)%nat) (k + 1) (map backoff1 (Zseq 1 k)).
Proof.
  intros H429 Hlast Hk.
  destruct (core_settles (fun fuel => Api.throttle fuel c) backoff1 (api_exhausted c)
              L (lift_err query) limiter_ok (throttle_returns c) limiter_ok_later
              k 0 w Hok)
    as (f0 & w1 & Hrun & Hof).
  - intros i Hi. now apply rate_limited_hasCode, H429.
  - unfold lift_err. cbn [snd].
    destruct (hasCode 429 (query (calls w + k)%nat)) eqn:E; [|reflexivity].
    exfalso. now apply Hlast, rate_limited_hasCode.
  - lia.
  - destruct (run_of_events _ _ _ _ _ _ Hof) as (Hq & Hb & Hs & Hd).
    exists w1. splits; auto.
    exists f0. intros fuel Hf. unfold Api.executeWithRetry.
    rewrite Api_executeWithRetry_loop_core. unfold api_core. fold L.
    rewrite (Hrun fuel Hf). unfold final, lift_err. cbn.
    destruct (query (calls w + k)%nat); reflexivity.
Qed.

Lemma Api_executeWithRetry_exhausts (query : QueryErr) :
  0 <= L ->
  (forall i, (i <= Z.to_nat L)%nat -> rate_limited (query (calls w + i)%nat)) ->
  returns_after (fun fuel => Api.executeWithRetry fuel c query) w
    (Some (api_exhausted c)) (Z.to_nat L + 1) (map backoff1 (Zseq 1 (Z.to_nat L))).
Proof.
  intros HL H429.
  destruct (core_exhausts (fun fuel => Api.throttle fuel c) backoff1 (api_exhausted c)
              L (lift_err query) limiter_ok (throttle_returns c) limiter_ok_later
              (Z.to_nat L) 0 w Hok)
    as (f0 & w1 & Hrun & Hof).
  - intros i Hi. now apply rate_limited_hasCode, H429.
  - lia.
  - destruct (run_of_events _ _ _ _ _ _ Hof) as (Hq & Hb & Hs & Hd).
    exists w1. splits; auto.
    exists f0. intros fuel Hf. unfold Api.executeWithRetry.
    rewrite Api_executeWithRetry_loop_core. unfold api_core. fold L.
    now rewrite (Hrun fuel Hf).
Qed.

End ApiRuns.

Section ApiGenericRuns.

Variable retryLimit : Z.
Variable w : World.

Let anyWorld : World -> Prop := fun _ => True.

Lemma anyWorld_later (w0 w1 : World) :
  anyWorld w0 -> limiter w1 = limiter w0 -> clock w0 <= clock w1 -> anyWorld w1.
Proof. intros. exact I. Qed.

Lemma ApiGeneric_getResponseWithRetry_settles {R : Type} (query : Query R) (k : nat) :
  (forall i, (i < k)%nat -> rate_limited (snd (query (calls w + i)%nat))) ->
  ~ rate_limited (snd (query (calls w + k)%nat)) ->
  Z.of_nat k <= retryLimit ->
  returns_after (fun fuel => ApiGeneric.getResponseWithRetry fuel query retryLimit) w
    (final (query (calls w + k)%nat)) (k + 1) (map backoff20 (Zseq 1 k)).
Proof.
  intros H429 Hlast Hk.
  destruct (core_settles no_admit backoff20
              (exhausted_msg "Rate limit exceeded after " retryLimit)
              retryLimit query anyWorld no_admit_returns anyWorld_later k 0 w I)
    as (f0 & w1 & Hrun & Hof).
  - intros i Hi. now apply rate_limited_hasCode, H429.
  - destruct (hasCode 429 (snd (query (calls w + k)%nat))) eqn:E; [|reflexivity].
    exfalso. now apply Hlast, rate_limited_hasCode.
  - lia.
  - destruct (run_of_events _ _ _ _ _ _ Hof) as (Hq & Hb & Hs & Hd).
    exists w1. splits; auto.
    exists f0. intros fuel Hf. unfold ApiGeneric.getResponseWithRetry.
    rewrite ApiGeneric_getResponseWithRetry_loop_core. now apply Hrun.
Qed.

Lemma ApiGeneric_executeWithRetry_settles (query : QueryErr) (k : nat) :
  (forall i, (i < k)%nat -> rate_limited (query (calls w + i)%nat)) ->
  ~ rate_limited (query (calls w + k)%nat) ->
  Z.of_nat k <= retryLimit ->
  returns_after (fun fuel => ApiGeneric.executeWithRetry fuel query retryLimit) w
    (query (calls w + k)%nat) (k + 1) (map backoff1 (Zseq 1 k)).
Proof.
  intros H429 Hlast Hk.
  destruct (core_settles no_admit backoff1
              (exhausted_msg "rate limit exceeded after " retryLimit)
              retryLimit (lift_err query) anyWorld no_admit_returns anyWorld_later
              k 0 w I)
    as (f0 & w1 & Hrun & Hof).
  - intros i Hi. now apply rate_limited_hasCode, H429.
  - unfold lift_err. cbn [snd].
    destruct (hasCode 429 (query (calls w + k)%nat)) eqn:E; [|reflexivity].
    exfalso. now apply Hlast, rate_limited_hasCode.
  - lia.
  - destruct (run_of_events _ _ _ _ _ _ Hof) as (Hq & Hb & Hs & Hd).
    exists w1. splits; auto.
    exists f0. intros fuel Hf. unfold ApiGeneric.executeWithRetry.
    rewrite ApiGeneric_executeWithRetry_loop_core. unfold generic_core.
    rewrite (Hrun fuel Hf). unfold final, lift_err. cbn.
    destruct (query (calls w + k)%nat); reflexivity.
Qed.

End ApiGenericRuns.

Lemma not_rate_limited_nil : ~ rate_limited None.
Proof. intros (e & H & _). discriminate. Qed.

Lemma not_rate_limited_other (e : error) :
  (forall g, e = GoogleapiError g -> googleapi.Code g <> 429) ->
  ~ rate_limited (Some e).
Proof.
  intros H (g & Hg & Hc). inversion Hg; subst. now apply (H g).
Qed.

(** ** C2 *)


(** ** C5 *)


(** ** C10 *)


(** ** The client operations *)

Lemma returns_after_then {A B : Type} (run : nat -> M A) (next : A -> M B)
    (w : World) (a : A) (b : B) (n : nat) (bs : list Duration) :
  returns_after run w a n bs ->
  (forall w1, next a w1 = Done b w1) ->
  returns_after (fun fuel => x <- run fuel ;; next x) w b n bs.
Proof.
  intros (w1 & (f0 & Hrun) & Hrest) Hnext.
  exists w1. split; [|exact Hrest].
  exists f0. intros fuel Hf. unfold bind. rewrite (Hrun fuel Hf). apply Hnext.
Qed.

Lemma not_found_not_rate_limited (g : googleapi.Error) :
  googleapi.Code g = 404 -> ~ rate_limited (Some (GoogleapiError g)).
Proof.
  intros H404. apply not_rate_limited_other.
  intros g0 E. inversion E; subst. rewrite H404. discriminate.
Qed.

Lemma hasCode_404 (g : googleapi.Error) :
  googleapi.Code g = 404 -> hasCode 404 (Some (GoogleapiError g)) = true.
Proof. intros H404. simpl. now apply Z.eqb_eq. Qed.

Section ApiOperations.

Variable c : Api.Client.
Variable w : World.
Variable k : nat.
Hypothesis Hk : Z.of_nat k <= Api.RetryLimit (Api.Options c).
Hypothesis Hok : limiter_ok w.

Lemma Api_getWithRetry_answers {R : Type} (query : Query R) (e : error) :
  answers query w k e ->
  ~ rate_limited (Some e) ->
  returns_after (fun fuel => Api.getWithRetry fuel c query) w
    (None, Some e) (k + 1) (map backoff20 (Zseq 1 k)).
Proof.
  intros [H429 Hlast] Hne.
  assert (Hf : final (query (calls w + k)%nat) = (None, Some e)).
  { unfold final. now rewrite Hlast. }
  rewrite <- Hf. apply Api_getWithRetry_settles; auto.
  now rewrite Hlast.
Qed.

Lemma Api_executeWithRetry_answers (query : QueryErr) (e : error) :
  answersErr query w k e ->
  ~ rate_limited (Some e) ->
  returns_after (fun fuel => Api.executeWithRetry fuel c query) w
    (Some e) (k + 1) (map backoff1 (Zseq 1 k)).
Proof.
  intros [H429 Hlast] Hne.
  rewrite <- Hlast. apply Api_executeWithRetry_settles; auto.
  now rewrite Hlast.
Qed.

Variable g : googleapi.Error.
Hypothesis H404 : googleapi.Code g = 404.

(** A read by id turns the 404 into the sentinel. *)
Lemma read_by_id_not_found {R : Type} (query : Query R) :
  answers query w k (GoogleapiError g) ->
  returns_after
    (fun fuel =>
       r <- Api.getWithRetry fuel c query ;;
       let (x, err) := r in
       if hasCode 404 err then ret (None, Some ErrNotExist) else ret (x, err))
    w (None, Some ErrNotExist) (k + 1) (map backoff20 (Zseq 1 k)).
Proof.
  intros H.
  apply (returns_after_then (fun fuel => Api.getWithRetry fuel c query) _ w
           (None, Some (GoogleapiError g))).
  - apply Api_getWithRetry_answers; [exact H | now apply not_found_not_rate_limited].
  - intros w1. cbv beta iota. now rewrite (hasCode_404 g H404).
Qed.

(** A list passes the 404 on. *)
Lemma list_not_found {R A : Type} (query : Query R) (items : R -> list A) :
  answers query w k (GoogleapiError g) ->
  returns_after
    (fun fuel =>
       r <- Api.getWithRetry fuel c query ;;
       match r with
       | (_, Some err) => ret (None, Some err)
       | (Some resp, None) => ret (Some (items resp), None)
       | (None, None) => panic
       end)
    w (None, Some (GoogleapiError g)) (k + 1) (map backoff20 (Zseq 1 k)).
Proof.
  intros H.
  apply (returns_after_then (fun fuel => Api.getWithRetry fuel c query) _ w
           (None, Some (GoogleapiError g))).
  - apply Api_getWithRetry_answers; [exact H | now apply not_found_not_rate_limited].
  - intros w1. reflexivity.
Qed.

End ApiOperations.

(** ** C3 *)



(** ** C4 *)

Lemma throttling_enabled_later (w w1 : World) :
  throttling_enabled w -> limiter w1 = limiter w -> throttling_enabled w1.
Proof. unfold throttling_enabled. intros H E. now rewrite E. Qed.

Lemma Api_core_guarded {R : Type} (b : Z -> Duration) (c : Api.Client)
    (query : Query R) (fuel : nat) (w : World) :
  throttling_enabled w ->
  guarded false (new_events w (world_of (api_core b c query fuel 0 w))) = true.
Proof.
  intros Hen.
  destruct (core_guarded (fun fuel => Api.throttle fuel c) b (api_exhausted c)
              (Api.RetryLimit (Api.Options c)) query throttling_enabled
              (fun fuel w => throttle_admits fuel c w) throttling_enabled_later
              fuel 0 w Hen) as (d & Htr & Hg).
  unfold api_core. rewrite (new_events_app _ _ _ Htr). apply Hg.
Qed.

(** C4.  For every invocation of a retry wrapper with throttling enabled
    ([executeWithRetry] and the [get...WithRetry] methods of [Client]; the
    client of [client.go] has no limiter to enable), and every attempt, the
    first and the retries alike: the remote call of the attempt comes
    directly after an [Allow()] of the shared limiter that returned [true],
    the one that ends the [Wait()] of [c.throttle()].  This holds of the
    events of every run, finished or still under way. *)
Theorem C4_admission_before_every_attempt (c : Api.Client) (w : World) (fuel : nat)
    (Hen : throttling_enabled w) :
  (forall query : QueryErr,
      guarded false
        (new_events w (world_of (Api.executeWithRetry fuel c query w))) = true) /\
  (forall (R : Type) (query : Query R),
      guarded false
        (new_events w (world_of (Api.getWithRetry fuel c query w))) = true).
Proof.
  split.
  - intros query. unfold Api.executeWithRetry.
    rewrite Api_executeWithRetry_loop_core, world_of_map_res.
    now apply Api_core_guarded.
  - intros R query. unfold Api.getWithRetry.
    rewrite Api_getWithRetry_loop_core.
    now apply Api_core_guarded.
Qed.

(** ** C6 *)

Lemma Api_core_backoffs {R : Type} (b : Z -> Duration) (c : Api.Client)
    (query : Query R) (fuel : nat) (w : World) (n : Z) (d : Duration) :
  1 <= n ->
  nth_error (backoffs (new_events w (world_of (api_core b c query fuel 0 w))))
    (Z.to_nat (n - 1)) = Some d ->
  d = b n.
Proof.
  intros Hn Hnth.
  destruct (core_backoffs (fun fuel => Api.throttle fuel c) b (api_exhausted c)
              (Api.RetryLimit (Api.Options c)) query
              (fun fuel w => throttle_quiet fuel c w) fuel 0 w) as (d0 & k & Htr & Hb).
  unfold api_core in Hnth. rewrite (new_events_app _ _ _ Htr), Hb in Hnth.
  rewrite nth_error_map in Hnth.
  destruct (nth_error (Zseq (0 + 1) k) (Z.to_nat (n - 1))) as [m|] eqn:E;
    [|discriminate].
  assert (Hlt : (Z.to_nat (n - 1) < k)%nat).
  { rewrite <- (Zseq_length (0 + 1) k). apply nth_error_Some. congruence. }
  rewrite (Zseq_nth _ _ _ Hlt) in E.
  assert (Em : m = 0 + 1 + Z.of_nat (Z.to_nat (n - 1))) by congruence.
  cbn [option_map] in Hnth.
  assert (Ed : d = b m) by congruence.
  rewrite Ed, Em. f_equal. lia.
Qed.

Lemma backoff1_exact (n : Z) :
  1 <= n -> n * Second <= maxInt64 -> backoff1 n = n * Second.
Proof.
  intros H1 H2. unfold backoff1. apply wrap64_small. unfold Second in *. lia.
Qed.

Lemma backoff20_exact (n : Z) :
  1 <= n -> n * (20 * Second) <= maxInt64 -> backoff20 n = n * (20 * Second).
Proof.
  intros H1 H2. unfold backoff20. rewrite wrap64_small; unfold Second in *; lia.
Qed.


(** ** The theorems at concrete inputs *)

Lemma throttledWorld_ok : limiter_ok throttledWorld.
Proof.
  unfold limiter_ok. simpl. split; [reflexivity|].
  split; [vm_compute; discriminate | lia].
Defined.

Lemma tooManyRequests_rate_limited : rate_limited (Some tooManyRequests).
Proof. eexists. split; reflexivity. Defined.





Lemma throttledWorld_enabled : throttling_enabled throttledWorld.
Proof. unfold throttling_enabled. simpl. discriminate. Defined.

Lemma C4_witness :
  throttling_enabled throttledWorld /\
  guarded false
    (new_events throttledWorld
       (world_of (Api.executeWithRetry 5 (exampleClient tooManyRequests 2 true)
                    (fun _ => Some tooManyRequests) throttledWorld))) = true.
Proof.
  split; [exact throttledWorld_enabled|].
  exact (proj1 (C4_admission_before_every_attempt
                  (exampleClient tooManyRequests 2 true) throttledWorld 5
                  throttledWorld_enabled)
           (fun _ => Some tooManyRequests)).
Defined.

(** * The token bucket in [float64] *)

(** ** The format *)

Lemma fexp64 (e : Z) : fexp 53 1024 e = Z.max (e - 53) (-1074).
Proof. reflexivity. Qed.

(** ** The digits of a mantissa *)

Lemma digits2_log2 (p : positive) : Zpos (digits2_pos p) = Z.log2 (Zpos p) + 1.
Proof.
  assert (H : forall q, digits2_pos q = Pos.size q).
  { induction q; simpl; congruence. }
  rewrite H. destruct p; simpl; lia.
Qed.

Lemma Zdigits2_log2 (z : Z) : 0 < z -> Zdigits2 z = Z.log2 z + 1.
Proof. destruct z; try lia. intros _. apply digits2_log2. Qed.

Lemma Zdigits2_spec (z : Z) :
  0 < z -> 2 ^ (Zdigits2 z - 1) <= z < 2 ^ Zdigits2 z.
Proof.
  intros H. rewrite Zdigits2_log2 by exact H.
  replace (Z.log2 z + 1 - 1) with (Z.log2 z) by lia.
  apply Z.log2_spec, H.
Qed.

Lemma Zdigits2_pos (z : Z) : 0 < z -> 0 < Zdigits2 z.
Proof. intros H. rewrite Zdigits2_log2 by exact H. pose proof (Z.log2_nonneg z). lia. Qed.

Lemma Zdigits2_nonneg (z : Z) : 0 <= Zdigits2 z.
Proof. destruct z; simpl; lia. Qed.

Lemma Zdigits2_unique (z d : Z) :
  0 < d -> 2 ^ (d - 1) <= z < 2 ^ d -> Zdigits2 z = d.
Proof.
  intros Hd H.
  assert (0 < z). { pose proof (Z.pow_pos_nonneg 2 (d - 1)). lia. }
  rewrite Zdigits2_log2 by assumption.
  rewrite (Z.log2_unique z (d - 1)); try lia.
  replace (Z.succ (d - 1)) with d by lia. exact H.
Qed.

Lemma Zdigits2_le (z d : Z) : 0 <= z -> 0 <= d -> z < 2 ^ d -> Zdigits2 z <= d.
Proof.
  intros Hz Hd H. destruct (Z.eq_dec z 0) as [->|Hn]; [simpl; lia|].
  rewrite Zdigits2_log2 by lia.
  assert (Z.log2 z < d) by (apply Z.log2_lt_pow2; lia). lia.
Qed.

Lemma Zdigits2_ge (z d : Z) : 0 < z -> 2 ^ (d - 1) <= z -> d <= Zdigits2 z.
Proof.
  intros Hz H. rewrite Zdigits2_log2 by lia.
  destruct (Z_lt_le_dec (d - 1) 0) as [Hd|Hd].
  - pose proof (Z.log2_nonneg z). lia.
  - assert (d - 1 <= Z.log2 z) by (apply Z.log2_le_pow2; lia). lia.
Qed.

Lemma Zdigits2_lt_pow (z d : Z) : 0 <= z -> Zdigits2 z <= d -> z < 2 ^ d.
Proof.
  intros Hz H. destruct (Z.eq_dec z 0) as [->|Hn].
  - apply Z.pow_pos_nonneg; simpl in H; lia.
  - pose proof (Zdigits2_spec z ltac:(lia)) as [_ Hs].
    eapply Z.lt_le_trans; [exact Hs|].
    apply Z.pow_le_mono_r; lia.
Qed.

Lemma Zdigits2_mul_pow2 (z k : Z) :
  0 < z -> 0 <= k -> Zdigits2 (z * 2 ^ k) = Zdigits2 z + k.
Proof.
  intros Hz Hk. pose proof (Zdigits2_spec z Hz) as [H1 H2].
  pose proof (Zdigits2_pos z Hz).
  assert (0 < 2 ^ k) by (apply Z.pow_pos_nonneg; lia).
  apply Zdigits2_unique; [lia|].
  replace (Zdigits2 z + k - 1) with ((Zdigits2 z - 1) + k) by lia.
  rewrite !Z.pow_add_r by lia. split; nia.
Qed.

Lemma Zdigits2_div_pow2 (z k : Z) :
  0 <= z -> 0 <= k -> Zdigits2 (z / 2 ^ k) = Z.max 0 (Zdigits2 z - k).
Proof.
  intros Hz Hk.
  assert (Hp : 0 < 2 ^ k) by (apply Z.pow_pos_nonneg; lia).
  destruct (Z.eq_dec z 0) as [->|Hn]; [rewrite Z.div_0_l by lia; simpl; lia|].
  pose proof (Zdigits2_spec z ltac:(lia)) as [H1 H2].
  pose proof (Zdigits2_pos z ltac:(lia)).
  destruct (Z_lt_le_dec k (Zdigits2 z)) as [Hlt|Hge].
  - rewrite Z.max_r by lia. apply Zdigits2_unique; [lia|]. split.
    + apply Z.div_le_lower_bound; [lia|].
      rewrite <- Z.pow_add_r by lia.
      replace (k + (Zdigits2 z - k - 1)) with (Zdigits2 z - 1) by lia. exact H1.
    + apply Z.div_lt_upper_bound; [lia|].
      rewrite <- Z.pow_add_r by lia.
      replace (k + (Zdigits2 z - k)) with (Zdigits2 z) by lia. exact H2.
  - rewrite Z.max_l by lia.
    rewrite Z.div_small; [reflexivity|]. split; [lia|].
    eapply Z.lt_le_trans; [exact H2|]. apply Z.pow_le_mono_r; lia.
Qed.

(** ** Shifting a mantissa to the right *)

Lemma iter_pos_nat {A : Type} (f : A -> A) (p : positive) (x : A) :
  iter_pos f p x = Nat.iter (Pos.to_nat p) f x.
Proof.
  revert x. induction p as [p IH|p IH|]; intros x; cbn [iter_pos].
  - rewrite !IH. rewrite Pos2Nat.inj_xI.
    replace (S (2 * Pos.to_nat p)) with (Pos.to_nat p + (Pos.to_nat p + 1))%nat by lia.
    rewrite !Nat.iter_add. reflexivity.
  - rewrite !IH. rewrite Pos2Nat.inj_xO.
    replace (2 * Pos.to_nat p)%nat with (Pos.to_nat p + Pos.to_nat p)%nat by lia.
    rewrite Nat.iter_add. reflexivity.
  - reflexivity.
Qed.

Lemma shr_1_m (mrs : shr_record) :
  0 <= shr_m mrs -> shr_m (shr_1 mrs) = shr_m mrs / 2.
Proof.
  destruct mrs as [m r s]. cbn [shr_m]. intros H.
  destruct m as [|p|p]; try lia; cbn [shr_1 shr_m].
  - reflexivity.
  - destruct p; cbn [shr_m].
    + rewrite Pos2Z.inj_xI. apply Z.div_unique with 1; lia.
    + rewrite Pos2Z.inj_xO. apply Z.div_unique with 0; lia.
    + reflexivity.
Qed.

Lemma shr_1_r (mrs : shr_record) :
  0 <= shr_m mrs -> shr_r (shr_1 mrs) = Z.odd (shr_m mrs).
Proof.
  destruct mrs as [m r s]. cbn [shr_m]. intros H.
  destruct m as [|p|p]; try lia; cbn [shr_1 shr_r]; [reflexivity|].
  destruct p; reflexivity.
Qed.

Lemma shr_1_s (mrs : shr_record) :
  shr_s (shr_1 mrs) = shr_r mrs || shr_s mrs.
Proof.
  destruct mrs as [m r s]. destruct m as [|p|p]; cbn; try reflexivity;
    destruct p; reflexivity.
Qed.

(** [n] shifts of [m]: the quotient by [2 ^ n], and no bit is set aside
    when nothing is lost. *)
Lemma shr_iter (m : Z) (r s : bool) (n : nat) :
  0 <= m ->
  let mrs := Nat.iter n shr_1 {| shr_m := m; shr_r := r; shr_s := s |} in
  shr_m mrs = m / 2 ^ Z.of_nat n /\
  (r = false -> s = false -> m mod 2 ^ Z.of_nat n = 0 ->
   shr_r mrs = false /\ shr_s mrs = false).
Proof.
  intros Hm. induction n as [|n IH].
  - cbn. split; [now rewrite Z.div_1_r|auto].
  - cbn zeta in *. destruct IH as [IHm IHe].
    rewrite Nat.iter_succ.
    set (mrs := Nat.iter n shr_1 _) in *.
    assert (Hp : 0 < 2 ^ Z.of_nat n) by (apply Z.pow_pos_nonneg; lia).
    assert (Hq : 0 <= shr_m mrs) by (rewrite IHm; apply Z.div_pos; lia).
    assert (E : 2 ^ Z.of_nat (S n) = 2 ^ Z.of_nat n * 2).
    { rewrite Nat2Z.inj_succ, Z.pow_succ_r by lia. lia. }
    split.
    + rewrite shr_1_m by exact Hq. rewrite IHm, E.
      rewrite Z.div_div by lia. reflexivity.
    + intros Hr Hs Hmod. rewrite shr_1_r, shr_1_s by exact Hq.
      rewrite E in Hmod.
      assert (Hmod' : m mod 2 ^ Z.of_nat n = 0).
      { rewrite Z.rem_mul_r in Hmod by lia.
        pose proof (Z.mod_pos_bound m (2 ^ Z.of_nat n) Hp).
        pose proof (Z.mod_pos_bound (m / 2 ^ Z.of_nat n) 2 ltac:(lia)). nia. }
      destruct (IHe Hr Hs Hmod') as [-> ->]. split; [|reflexivity].
      rewrite IHm. rewrite Z.rem_mul_r in Hmod by lia.
      rewrite Hmod' in Hmod.
      rewrite <- Z.negb_even, Zeven_mod.
      replace ((m / 2 ^ Z.of_nat n) mod 2) with 0 by lia. reflexivity.
Qed.

Lemma shr_spec (m : Z) (r s : bool) (e n : Z) :
  0 <= m ->
  let res := shr {| shr_m := m; shr_r := r; shr_s := s |} e n in
  shr_m (fst res) = m / 2 ^ Z.max 0 n /\
  snd res = e + Z.max 0 n /\
  (r = false -> s = false -> m mod 2 ^ Z.max 0 n = 0 ->
   shr_r (fst res) = false /\ shr_s (fst res) = false).
Proof.
  intros Hm. destruct n as [|p|p]; cbn [shr fst snd].
  - cbn. rewrite Z.div_1_r. repeat split; auto; lia.
  - rewrite iter_pos_nat. rewrite Z.max_r by lia.
    pose proof (shr_iter m r s (Pos.to_nat p) Hm) as H. cbn zeta in H.
    rewrite positive_nat_Z in H. destruct H as [H1 H2]. repeat split; auto.
    + now apply H2.
    + now apply H2.
  - cbn. rewrite Z.div_1_r. repeat split; auto; lia.
Qed.

(** ** Dyadic numbers *)

Local Open Scope Q_scope.


Lemma pow2_pos (e : Z) : 0 < pow2 e.
Proof. apply Qpower_0_lt. reflexivity. Qed.

Lemma pow2_add (a b : Z) : pow2 (a + b) == pow2 a * pow2 b.
Proof. apply Qpower_plus. discriminate. Qed.

Lemma pow2_inject (n : Z) : (0 <= n)%Z -> pow2 n == inject_Z (2 ^ n).
Proof. intros H. unfold pow2. now rewrite Zpower_Qpower. Qed.

Lemma pow2_split (e1 e2 : Z) :
  (e1 <= e2)%Z -> pow2 e2 == inject_Z (2 ^ (e2 - e1)) * pow2 e1.
Proof.
  intros H. rewrite <- pow2_inject by lia. rewrite <- pow2_add.
  replace (e2 - e1 + e1)%Z with e2 by lia. reflexivity.
Qed.


Lemma dy_shift (m e1 e2 : Z) :
  (e1 <= e2)%Z -> dy m e2 == dy (m * 2 ^ (e2 - e1)) e1.
Proof.
  intros H. unfold dy. rewrite (pow2_split e1 e2 H), inject_Z_mult. ring.
Qed.

Lemma dy_le_same (a b e : Z) : dy a e <= dy b e <-> (a <= b)%Z.
Proof.
  unfold dy. pose proof (pow2_pos e). rewrite Zle_Qle. split; intros H1.
  - apply Qmult_le_r in H1; assumption.
  - apply Qmult_le_r; assumption.
Qed.

Lemma dy_lt_same (a b e : Z) : dy a e < dy b e <-> (a < b)%Z.
Proof.
  unfold dy. pose proof (pow2_pos e). rewrite Zlt_Qlt. split; intros H1.
  - apply Qmult_lt_r in H1; assumption.
  - apply Qmult_lt_r; assumption.
Qed.

Lemma dy_eq_same (a b e : Z) : dy a e == dy b e <-> a = b.
Proof.
  split; [|intros ->; reflexivity]. intros H.
  apply Z.le_antisymm; apply (dy_le_same _ _ e); rewrite H; apply Qle_refl.
Qed.

Lemma dy_le_l (a b e1 e2 : Z) :
  (e1 <= e2)%Z -> (dy a e2 <= dy b e1 <-> (a * 2 ^ (e2 - e1) <= b)%Z).
Proof. intros H. rewrite (dy_shift a e1 e2 H). apply dy_le_same. Qed.

Lemma dy_le_r (a b e1 e2 : Z) :
  (e1 <= e2)%Z -> (dy a e1 <= dy b e2 <-> (a <= b * 2 ^ (e2 - e1))%Z).
Proof. intros H. rewrite (dy_shift b e1 e2 H). apply dy_le_same. Qed.

Lemma dy_lt_l (a b e1 e2 : Z) :
  (e1 <= e2)%Z -> (dy a e2 < dy b e1 <-> (a * 2 ^ (e2 - e1) < b)%Z).
Proof. intros H. rewrite (dy_shift a e1 e2 H). apply dy_lt_same. Qed.

Lemma dy_lt_r (a b e1 e2 : Z) :
  (e1 <= e2)%Z -> (dy a e1 < dy b e2 <-> (a < b * 2 ^ (e2 - e1))%Z).
Proof. intros H. rewrite (dy_shift b e1 e2 H). apply dy_lt_same. Qed.

Lemma dy_0 (e : Z) : dy 0 e == 0.
Proof. unfold dy. ring. Qed.

Lemma dy_nonneg (m e : Z) : (0 <= m)%Z -> 0 <= dy m e.
Proof. intros H. rewrite <- (dy_0 e). now apply dy_le_same. Qed.

Lemma dy_pos (m e : Z) : (0 < m)%Z -> 0 < dy m e.
Proof. intros H. rewrite <- (dy_0 e). now apply dy_lt_same. Qed.

Lemma dy_add (a b e : Z) : dy a e + dy b e == dy (a + b) e.
Proof. unfold dy. rewrite inject_Z_plus. ring. Qed.

Lemma dy_sub (a b e : Z) : dy a e - dy b e == dy (a - b) e.
Proof. unfold dy, Z.sub. rewrite inject_Z_plus, inject_Z_opp. ring. Qed.

Lemma dy_mul (a b e1 e2 : Z) : dy a e1 * dy b e2 == dy (a * b) (e1 + e2).
Proof. unfold dy. rewrite inject_Z_mult, pow2_add. ring. Qed.

Lemma dy_int (z : Z) : dy z 0 == inject_Z z.
Proof. unfold dy, pow2. simpl. ring. Qed.

Local Open Scope Z_scope.

(** ** The value and the order of floats *)

Lemma bounded_spec (m : positive) (e : Z) :
  bounded 53 1024 m e = true <->
  -1074 <= e <= 971 /\ Zdigits2 (Zpos m) <= 53 /\
  (e = -1074 \/ Zdigits2 (Zpos m) = 53).
Proof.
  unfold bounded, canonical_mantissa. rewrite andb_true_iff, Z.eqb_eq, Z.leb_le.
  rewrite fexp64. change (Zpos (digits2_pos m)) with (Zdigits2 (Zpos m)).
  change (1024 - 53) with 971. lia.
Qed.

Lemma bounded_lt (m : positive) (e : Z) :
  bounded 53 1024 m e = true -> Zpos m < 2 ^ 53.
Proof.
  intros H. apply bounded_spec in H. apply Zdigits2_lt_pow; lia.
Qed.

Lemma bounded_normal (m : positive) (e : Z) :
  bounded 53 1024 m e = true -> -1074 < e -> 2 ^ 52 <= Zpos m.
Proof.
  intros H He. apply bounded_spec in H.
  assert (E : Zdigits2 (Zpos m) = 53) by lia.
  pose proof (Zdigits2_spec (Zpos m) ltac:(lia)) as [H1 _].
  rewrite E in H1. exact H1.
Qed.

(** Among canonical floats the one with the smaller exponent is smaller. *)
Lemma canonical_lt (m1 m2 : positive) (e1 e2 : Z) :
  bounded 53 1024 m1 e1 = true -> bounded 53 1024 m2 e2 = true ->
  e1 < e2 -> (dy (Zpos m1) e1 < dy (Zpos m2) e2)%Q.
Proof.
  intros H1 H2 He. apply dy_lt_r; [lia|].
  pose proof (bounded_lt _ _ H1).
  assert (-1074 <= e1) by (apply bounded_spec in H1; lia).
  pose proof (bounded_normal _ _ H2 ltac:(lia)).
  assert (2 ^ 1 <= 2 ^ (e2 - e1)) by (apply Z.pow_le_mono_r; lia).
  change (2 ^ 1) with 2 in *. change (2 ^ 53) with (2 ^ 52 * 2) in *. nia.
Qed.

Lemma SFcompare_nonneg_fin (x y : spec_float) :
  nonneg_fin x -> nonneg_fin y ->
  SFcompare x y = Some (F2Q x ?= F2Q y)%Q.
Proof.
  destruct x as [sx| | |[|] mx ex]; try contradiction;
  destruct y as [sy| | |[|] my ey]; try contradiction; intros Hx Hy; cbn [SFcompare F2Q nonneg_fin] in *.
  - reflexivity.
  - f_equal. symmetry. apply Qlt_alt. apply dy_pos. lia.
  - f_equal. symmetry. apply Qgt_alt. apply dy_pos. lia.
  - f_equal. destruct (Z.compare_spec ex ey) as [E|E|E].
    + subst ey. rewrite Pos.compare_cont_spec. cbn [Pos.switch_Eq].
      change (Pos.compare mx my) with (Z.compare (Zpos mx) (Zpos my)).
      destruct (Z.compare_spec (Zpos mx) (Zpos my)) as [E|E|E]; symmetry.
      * apply Qeq_alt. now rewrite E.
      * apply Qlt_alt. now apply dy_lt_same.
      * apply Qgt_alt. now apply dy_lt_same.
    + symmetry. apply Qlt_alt. now apply canonical_lt.
    + symmetry. apply Qgt_alt. now apply canonical_lt.
Qed.

Lemma SFleb_nonneg_fin (x y : spec_float) :
  nonneg_fin x -> nonneg_fin y -> (SFleb x y = true <-> (F2Q x <= F2Q y)%Q).
Proof.
  intros Hx Hy. unfold SFleb. rewrite (SFcompare_nonneg_fin x y Hx Hy).
  rewrite Qle_alt. destruct (F2Q x ?= F2Q y)%Q; split; intros H; try reflexivity;
    try discriminate; try (exfalso; apply H; reflexivity).
Qed.

Lemma SFltb_nonneg_fin (x y : spec_float) :
  nonneg_fin x -> nonneg_fin y -> (SFltb x y = true <-> (F2Q x < F2Q y)%Q).
Proof.
  intros Hx Hy. unfold SFltb. rewrite (SFcompare_nonneg_fin x y Hx Hy).
  rewrite Qlt_alt. destruct (F2Q x ?= F2Q y)%Q; split; intros H; try reflexivity;
    discriminate.
Qed.

Lemma F2Q_nonneg (x : spec_float) : nonneg_fin x -> (0 <= F2Q x)%Q.
Proof.
  destruct x as [s| | |[|] m e]; cbn; try contradiction; intros _;
    try apply Qle_refl. apply dy_nonneg. lia.
Qed.

Lemma F2Q_lt_max (x : spec_float) : nonneg_fin x -> (F2Q x < dy 1 1024)%Q.
Proof.
  destruct x as [s| | |[|] m e]; cbn; try contradiction; intros H;
    try (apply dy_pos; lia).
  pose proof (bounded_lt _ _ H). apply bounded_spec in H.
  apply dy_lt_r; [lia|].
  assert (2 ^ 53 <= 2 ^ (1024 - e)) by (apply Z.pow_le_mono_r; lia). lia.
Qed.

(** ** Rounding *)

Lemma round_nearest_even_near (m : Z) (l : location) :
  round_nearest_even m l = m \/ round_nearest_even m l = m + 1.
Proof.
  destruct l as [|[| |]]; cbn; auto. destruct (Z.even m); auto.
Qed.

(** [binary_round_aux] shifts the mantissa to the exponent of its format,
    [E], rounds it there and finishes. *)
Lemma binary_round_aux_spec (s : bool) (m e : Z) (l : location) :
  0 <= m ->
  let n := Z.max 0 (fexp 53 1024 (Zdigits2 m + e) - e) in
  exists mr : Z,
    binary_round_aux 53 1024 s m e l = finish s mr (e + n) /\
    (mr = m / 2 ^ n \/ mr = m / 2 ^ n + 1) /\
    (l = loc_Exact -> m mod 2 ^ n = 0 -> mr = m / 2 ^ n).
Proof.
  intros Hm n. unfold binary_round_aux.
  unfold shr_fexp at 1.
  assert (Hrec : exists r s0, shr_record_of_loc m l = {| shr_m := m; shr_r := r; shr_s := s0 |}
                              /\ (l = loc_Exact -> r = false /\ s0 = false)).
  { destruct l as [|[| |]]; cbn; eexists _, _; split; try reflexivity; auto; discriminate. }
  destruct Hrec as (r & s0 & -> & Hex).
  pose proof (shr_spec m r s0 e (fexp 53 1024 (Zdigits2 m + e) - e) Hm) as H.
  cbn zeta in H. fold n in H.
  destruct (shr _ e _) as [mrs' e']. cbn [fst snd] in H.
  destruct H as (H1 & H2 & H3). subst e'.
  exists (round_nearest_even (shr_m mrs') (loc_of_shr_record mrs')).
  split; [reflexivity|]. rewrite <- H1. split.
  - apply round_nearest_even_near.
  - intros Hl Hmod. destruct (Hex Hl) as [-> ->].
    destruct (H3 eq_refl eq_refl Hmod) as [Hr Hs].
    destruct mrs' as [m' r' s']. cbn in *. subst. reflexivity.
Qed.

Lemma slot_fexp (m e : Z) :
  0 <= m ->
  let E := fexp 53 1024 (Zdigits2 m + e) in
  e <= E -> slot (m / 2 ^ (E - e)) E.
Proof.
  intros Hm E He. unfold slot.
  assert (0 < 2 ^ (E - e)) by (apply Z.pow_pos_nonneg; lia).
  rewrite Zdigits2_div_pow2 by lia.
  pose proof (Zdigits2_nonneg m).
  unfold E in *. rewrite fexp64 in *.
  split; [apply Z.div_pos; lia|]. lia.
Qed.

Lemma slot_shl (m e : Z) :
  0 < m ->
  let E := fexp 53 1024 (Zdigits2 m + e) in
  E <= e -> slot (m * 2 ^ (e - E)) E.
Proof.
  intros Hm E He. unfold slot.
  assert (0 < 2 ^ (e - E)) by (apply Z.pow_pos_nonneg; lia).
  rewrite Zdigits2_mul_pow2 by lia.
  pose proof (Zdigits2_pos m Hm).
  unfold E in *. rewrite fexp64 in *.
  split; [nia|]. lia.
Qed.

Lemma Zdigits2_succ (lo : Z) :
  0 <= lo -> Zdigits2 lo <= Zdigits2 (lo + 1) <= Zdigits2 lo + 1.
Proof.
  intros H. destruct (Z.eq_dec lo 0) as [->|Hn]; [cbn; lia|].
  pose proof (Zdigits2_spec lo ltac:(lia)) as [H1 H2].
  pose proof (Zdigits2_pos lo ltac:(lia)).
  split.
  - apply Zdigits2_ge; lia.
  - apply Zdigits2_le; try lia.
    rewrite Z.pow_add_r by lia. change (2 ^ 1) with 2. lia.
Qed.

(** What [finish] makes of a mantissa in its place, or of the next one. *)
Lemma finish_spec (s : bool) (lo mr E : Z) :
  slot lo E -> mr = lo \/ mr = lo + 1 ->
  (mr = 0 /\ finish s mr E = S754_zero s) \/
  exists (m : positive) (e : Z),
    0 < mr /\ E <= e /\ Zpos m * 2 ^ (e - E) = mr /\
    -1074 <= e /\ Zdigits2 (Zpos m) <= 53 /\
    (e = -1074 \/ Zdigits2 (Zpos m) = 53) /\
    finish s mr E = if e <=? 971 then S754_finite s m e else S754_infinity s.
Proof.
  intros (Hlo & HE & Hd & Hc) Hmr.
  assert (Hmr0 : 0 <= mr) by lia.
  assert (Hdr : Zdigits2 lo <= Zdigits2 mr <= Zdigits2 lo + 1).
  { destruct Hmr as [-> | ->]; [lia|]. now apply Zdigits2_succ. }
  unfold finish, shr_fexp. cbn [shr_record_of_loc].
  pose proof (shr_spec mr false false E (fexp 53 1024 (Zdigits2 mr + E) - E) Hmr0) as H.
  cbn zeta in H. destruct (shr _ E _) as [mrs e]. cbn [fst snd] in H.
  destruct H as (H1 & H2 & _).
  rewrite fexp64 in *.
  destruct (Z.eq_dec mr 0) as [E0|Hn0].
  - left. split; [exact E0|]. rewrite H1, E0. rewrite Z.div_0_l; [reflexivity|].
    apply Z.pow_nonzero; lia.
  - right. assert (Hpos : 0 < mr) by lia.
    destruct (Z_le_gt_dec (Zdigits2 mr) 53) as [Hle|Hgt].
    + (* no further shift *)
      assert (En : Z.max 0 (Z.max (Zdigits2 mr + E - 53) (-1074) - E) = 0) by lia.
      rewrite En in *. rewrite Z.div_1_r in H1. rewrite Z.add_0_r in H2. subst e.
      rewrite H1. destruct mr as [|p|p]; try lia.
      exists p, E. rewrite Z.sub_diag, Z.mul_1_r. repeat split; auto; lia.
    + (* the mantissa has reached [2 ^ 53] *)
      assert (E54 : Zdigits2 mr = 54) by lia.
      assert (E53 : Zdigits2 lo = 53) by lia.
      assert (Emr : mr = 2 ^ 53).
      { destruct Hmr as [-> | ->]; [lia|].
        pose proof (Zdigits2_spec (lo + 1) ltac:(lia)) as [Ha _].
        rewrite E54 in Ha. change (2 ^ (54 - 1)) with (2 ^ 53) in Ha.
        destruct (Z.eq_dec lo 0) as [->|Hn]; [cbn in E53; lia|].
        pose proof (Zdigits2_spec lo ltac:(lia)) as [_ Hb].
        rewrite E53 in Hb. lia. }
      assert (En : Z.max 0 (Z.max (Zdigits2 mr + E - 53) (-1074) - E) = 1) by lia.
      rewrite En in *. subst e. rewrite H1, Emr.
      change (2 ^ 53 / 2 ^ 1) with (Zpos (2 ^ 52)).
      exists (2 ^ 52)%positive, (E + 1).
      replace (E + 1 - E) with 1 by lia.
      assert (Ed : Zdigits2 (Zpos (2 ^ 52)) = 53) by reflexivity.
      rewrite Ed. repeat split; auto; lia.
Qed.

(** No float lies between two neighbouring mantissas in their place. *)
Lemma no_float_between (f : spec_float) (lo E : Z) :
  nonneg_fin f -> slot lo E ->
  (dy lo E < F2Q f)%Q -> (dy (lo + 1) E <= F2Q f)%Q.
Proof.
  intros Hf (Hlo & HE & Hd & Hc) Hlt.
  destruct f as [s| | |[|] m e]; try contradiction; cbn [F2Q nonneg_fin] in *.
  - exfalso. apply (Qlt_irrefl 0). eapply Qle_lt_trans; [|exact Hlt].
    now apply dy_nonneg.
  - pose proof (bounded_lt _ _ Hf) as Hm.
    apply bounded_spec in Hf.
    destruct (Z_le_gt_dec E e) as [Hle|Hgt].
    + apply dy_le_r; [lia|]. apply dy_lt_r in Hlt; lia.
    + exfalso. apply dy_lt_l in Hlt; [|lia].
      assert (E53 : Zdigits2 lo = 53) by lia.
      assert (Hn : lo <> 0) by (intros ->; cbn in E53; lia).
      pose proof (Zdigits2_spec lo ltac:(lia)) as [Ha _]. rewrite E53 in Ha.
      change (2 ^ (53 - 1)) with (2 ^ 52) in Ha.
      assert (2 ^ 1 <= 2 ^ (E - e)) by (apply Z.pow_le_mono_r; lia).
      change (2 ^ 1) with 2 in *. change (2 ^ 53) with (2 ^ 52 * 2) in *. nia.
Qed.

(** ** Faithful rounding of a value that is not negative *)

Lemma SFleb_infinity (f : spec_float) :
  nonneg_fin f -> SFleb f (S754_infinity false) = true.
Proof. destruct f as [s| | |[|] m e]; try contradiction; reflexivity. Qed.

Lemma SFleb_infinity_l (f : spec_float) :
  nonneg_fin f -> SFleb (S754_infinity false) f = false.
Proof. destruct f as [s| | |[|] m e]; try contradiction; reflexivity. Qed.

(** The number [v] lies from [lo] up to [lo + 1] at the exponent [E] and is
    rounded to one of the two, to [lo] when it is [lo]. *)
Lemma finish_faithful (v : Q) (lo mr E : Z) :
  slot lo E ->
  (dy lo E <= v)%Q -> (v < dy (lo + 1) E)%Q ->
  mr = lo \/ (mr = lo + 1 /\ (dy lo E < v)%Q) ->
  faithful v (finish false mr E).
Proof.
  intros Hslot Hlo Hhi Hmr.
  assert (Hmr' : mr = lo \/ mr = lo + 1) by tauto.
  assert (Hbelow : forall f, nonneg_fin f -> (F2Q f <= v)%Q -> (F2Q f <= dy lo E)%Q).
  { intros f Hf Hfv. destruct (Qlt_le_dec (dy lo E) (F2Q f)) as [H|H]; [|exact H].
    exfalso. pose proof (no_float_between f lo E Hf Hslot H).
    apply (Qlt_irrefl v). eapply Qlt_le_trans; [exact Hhi|].
    eapply Qle_trans; eassumption. }
  assert (Habove : forall f, nonneg_fin f -> (v <= F2Q f)%Q -> (dy mr E <= F2Q f)%Q).
  { intros f Hf Hfv. destruct Hmr as [-> | (-> & Hlt)].
    - eapply Qle_trans; eassumption.
    - apply no_float_between; auto. eapply Qlt_le_trans; eassumption. }
  assert (Hmono : (dy lo E <= dy mr E)%Q) by (apply dy_le_same; lia).
  destruct (finish_spec false lo mr E Hslot Hmr')
    as [(E0 & ->)|(m & e & Hpos & HEe & Hval & He & Hd & Hc & ->)].
  - (* zero *)
    split; [left; exact I|]. split; intros f Hf Hfv.
    + apply SFleb_nonneg_fin; [exact Hf|exact I|]. cbn [F2Q].
      rewrite <- (dy_0 E), <- E0. eapply Qle_trans; [apply Hbelow|]; eauto.
    + apply SFleb_nonneg_fin; [exact I|exact Hf|]. cbn [F2Q]. now apply F2Q_nonneg.
  - assert (Hdy : (dy (Zpos m) e == dy mr E)%Q).
    { rewrite (dy_shift (Zpos m) E e HEe), Hval. reflexivity. }
    destruct (Z.leb_spec e 971) as [Hfin|Hinf].
    + assert (Hb : bounded 53 1024 m e = true) by (apply bounded_spec; lia).
      split; [left; exact Hb|]. split; intros f Hf Hfv.
      * apply SFleb_nonneg_fin; [exact Hf|exact Hb|]. cbn [F2Q]. rewrite Hdy.
        eapply Qle_trans; [apply Hbelow|]; eauto.
      * apply SFleb_nonneg_fin; [exact Hb|exact Hf|]. cbn [F2Q]. rewrite Hdy.
        now apply Habove.
    + split; [right; reflexivity|]. split; intros f Hf Hfv.
      * now apply SFleb_infinity.
      * exfalso. pose proof (Habove f Hf Hfv) as Ha. rewrite <- Hdy in Ha.
        pose proof (F2Q_lt_max f Hf) as Hmax.
        assert (Hlt : (dy (Zpos m) e < dy 1 1024)%Q) by (eapply Qle_lt_trans; eassumption).
        assert (E53 : Zdigits2 (Zpos m) = 53) by lia.
        pose proof (Zdigits2_spec (Zpos m) ltac:(lia)) as [H52 _]. rewrite E53 in H52.
        change (2 ^ (53 - 1)) with (2 ^ 52) in H52.
        destruct (Z_le_gt_dec e 1024) as [Hs|Hs].
        -- apply dy_lt_r in Hlt; [|lia].
           assert (2 ^ (1024 - e) <= 2 ^ 52) by (apply Z.pow_le_mono_r; lia). lia.
        -- apply dy_lt_l in Hlt; [|lia].
           assert (0 < 2 ^ (e - 1024)) by (apply Z.pow_pos_nonneg; lia). nia.
Qed.


Lemma faithful_ext (v v' : Q) (r : spec_float) :
  (v == v')%Q -> faithful v r -> faithful v' r.
Proof.
  intros E (H1 & H2 & H3). split; [exact H1|].
  split; intros f Hf Hv; [apply H2|apply H3]; auto; now rewrite E.
Qed.

Lemma faithful_fin (r : spec_float) : nonneg_fin r -> faithful (F2Q r) r.
Proof.
  intros H. split; [left; exact H|].
  split; intros f Hf Hv; now apply SFleb_nonneg_fin.
Qed.

(** A value that is a float is rounded to itself. *)
Lemma faithful_exact (v : Q) (r f : spec_float) :
  faithful v r -> nonneg_fin f -> (F2Q f == v)%Q ->
  nonneg_fin r /\ (F2Q r == v)%Q.
Proof.
  intros (H1 & H2 & H3) Hf E.
  assert (Ha : SFleb f r = true) by (apply H2; [exact Hf|rewrite E; apply Qle_refl]).
  assert (Hb : SFleb r f = true) by (apply H3; [exact Hf|rewrite E; apply Qle_refl]).
  destruct H1 as [H1| ->].
  - split; [exact H1|]. rewrite <- E.
    apply SFleb_nonneg_fin in Ha; auto. apply SFleb_nonneg_fin in Hb; auto.
    now apply Qle_antisym.
  - rewrite SFleb_infinity_l in Hb by exact Hf. discriminate.
Qed.

(** The rounded value is finite when a float lies above. *)
Lemma faithful_below (v : Q) (r f : spec_float) :
  faithful v r -> nonneg_fin f -> (v <= F2Q f)%Q ->
  nonneg_fin r /\ (F2Q r <= F2Q f)%Q.
Proof.
  intros (H1 & H2 & H3) Hf E.
  assert (Hb : SFleb r f = true) by (apply H3; auto).
  destruct H1 as [H1| ->].
  - split; [exact H1|]. now apply SFleb_nonneg_fin in Hb.
  - rewrite SFleb_infinity_l in Hb by exact Hf. discriminate.
Qed.

Lemma binary_round_aux_faithful (m e : Z) :
  0 < m -> e <= fexp 53 1024 (Zdigits2 m + e) ->
  faithful (dy m e) (binary_round_aux 53 1024 false m e loc_Exact).
Proof.
  intros Hm He.
  destruct (binary_round_aux_spec false m e loc_Exact ltac:(lia)) as (mr & -> & Hmr & Hex).
  set (E := fexp 53 1024 (Zdigits2 m + e)) in *.
  rewrite Z.max_r in * by lia.
  replace (e + (E - e)) with E by lia.
  assert (Hp : 0 < 2 ^ (E - e)) by (apply Z.pow_pos_nonneg; lia).
  pose proof (Z.div_mod m (2 ^ (E - e)) ltac:(lia)) as Hdm.
  pose proof (Z.mod_pos_bound m (2 ^ (E - e)) Hp) as Hmod.
  apply finish_faithful with (lo := m / 2 ^ (E - e)).
  - apply slot_fexp; [lia|exact He].
  - apply dy_le_l; [lia|]. nia.
  - apply dy_lt_r; [lia|]. nia.
  - destruct (Z.eq_dec (m mod 2 ^ (E - e)) 0) as [E0|Hn0].
    + left. now apply Hex.
    + destruct Hmr as [->| ->]; [now left|right]. split; [reflexivity|].
      apply dy_lt_l; [lia|]. nia.
Qed.

Lemma Pos_iter_xO (m d : positive) : Zpos (Pos.iter xO m d) = Zpos m * 2 ^ Zpos d.
Proof.
  induction d as [|d IH] using Pos.peano_ind.
  - cbn. lia.
  - rewrite Pos.iter_succ, Pos2Z.inj_xO, IH, Pos2Z.inj_succ, Z.pow_succ_r by lia. lia.
Qed.

Lemma shl_align_spec (m : positive) (e e' : Z) :
  let r := shl_align m e e' in
  snd r = Z.min e e' /\ Zpos (fst r) = Zpos m * 2 ^ (e - Z.min e e').
Proof.
  unfold shl_align. destruct (e' - e) as [|d|d] eqn:E; cbn [fst snd].
  - rewrite Z.min_l by lia. rewrite Z.sub_diag. lia.
  - rewrite Z.min_l by lia. rewrite Z.sub_diag. lia.
  - rewrite Z.min_r by lia. split; [reflexivity|].
    rewrite Pos_iter_xO. f_equal. f_equal. lia.
Qed.

Lemma binary_round_faithful (m : positive) (e : Z) :
  faithful (dy (Zpos m) e) (binary_round 53 1024 false m e).
Proof.
  unfold binary_round.
  set (E := fexp 53 1024 (Zpos (digits2_pos m) + e)).
  pose proof (shl_align_spec m e E) as H. cbn zeta in H.
  destruct (shl_align m e E) as [mz ez]. cbn [fst snd] in H. destruct H as [-> Hmz].
  assert (Hp : 0 < 2 ^ (e - Z.min e E)) by (apply Z.pow_pos_nonneg; lia).
  apply faithful_ext with (dy (Zpos mz) (Z.min e E)).
  - rewrite Hmz. symmetry. apply dy_shift. lia.
  - apply binary_round_aux_faithful; [lia|].
    rewrite Hmz, Zdigits2_mul_pow2 by lia.
    change (Zpos (digits2_pos m)) with (Zdigits2 (Zpos m)) in E.
    replace (Zdigits2 (Zpos m) + (e - Z.min e E) + Z.min e E)
      with (Zdigits2 (Zpos m) + e) by lia.
    fold E. lia.
Qed.

Lemma faithful_zero (s : bool) : faithful 0 (S754_zero s).
Proof. exact (faithful_fin (S754_zero s) I). Qed.

(** [float64(z)] of an integer that is not negative. *)
Lemma binary_normalize_faithful (z e : Z) :
  0 <= z -> faithful (dy z e) (binary_normalize 53 1024 z e false).
Proof.
  intros Hz. destruct z as [|p|p]; try lia; cbn [binary_normalize].
  - apply faithful_ext with 0%Q; [now rewrite dy_0|apply faithful_zero].
  - apply binary_round_faithful.
Qed.

Lemma F2Q_align (m : positive) (e e' : Z) :
  (dy (Zpos (fst (shl_align m e (Z.min e e')))) (Z.min e e') == dy (Zpos m) e)%Q.
Proof.
  pose proof (shl_align_spec m e (Z.min e e')) as [_ H]. rewrite H.
  rewrite Z.min_r by lia. symmetry. apply dy_shift. lia.
Qed.

Lemma F2Q_align_r (m : positive) (e e' : Z) :
  (dy (Zpos (fst (shl_align m e' (Z.min e e')))) (Z.min e e') == dy (Zpos m) e')%Q.
Proof. rewrite Z.min_comm. apply F2Q_align. Qed.

(** *** Addition *)

Lemma SFadd_faithful (x y : spec_float) :
  nonneg_fin x -> nonneg_fin y ->
  faithful (F2Q x + F2Q y) (SFadd 53 1024 x y).
Proof.
  intros Hx Hy.
  destruct x as [sx| | |[|] mx ex]; try contradiction;
  destruct y as [sy| | |[|] my ey]; try contradiction; cbn [SFadd F2Q].
  - apply faithful_ext with 0%Q; [ring|].
    destruct sx, sy; apply faithful_zero.
  - apply faithful_ext with (F2Q (S754_finite false my ey)); [cbn; ring|].
    now apply faithful_fin.
  - apply faithful_ext with (F2Q (S754_finite false mx ex)); [cbn; ring|].
    now apply faithful_fin.
  - cbn [cond_Zopp]. eapply faithful_ext; [|apply binary_normalize_faithful; lia].
    rewrite <- dy_add, F2Q_align, F2Q_align_r. reflexivity.
Qed.

(** *** Subtraction of a smaller number *)

Lemma SFsub_faithful (x y : spec_float) :
  nonneg_fin x -> nonneg_fin y -> (F2Q y <= F2Q x)%Q ->
  faithful (F2Q x - F2Q y) (SFsub 53 1024 x y).
Proof.
  intros Hx Hy Hle.
  destruct x as [sx| | |[|] mx ex]; try contradiction;
  destruct y as [sy| | |[|] my ey]; try contradiction; cbn [SFsub F2Q] in *.
  - apply faithful_ext with 0%Q; [ring|].
    destruct sx, sy; apply faithful_zero.
  - exfalso. apply (Qlt_irrefl 0). eapply Qlt_le_trans; [|exact Hle].
    apply dy_pos. lia.
  - apply faithful_ext with (F2Q (S754_finite false mx ex)); [cbn; ring|].
    now apply faithful_fin.
  - cbn [cond_Zopp].
    rewrite <- (F2Q_align mx ex ey), <- (F2Q_align_r my ex ey) in Hle.
    apply dy_le_same in Hle.
    eapply faithful_ext; [|apply binary_normalize_faithful; lia].
    rewrite <- dy_sub, F2Q_align, F2Q_align_r. reflexivity.
Qed.

(** *** Multiplication *)

Lemma Zdigits2_mul (a b : Z) :
  0 < a -> 0 < b -> Zdigits2 a + Zdigits2 b - 1 <= Zdigits2 (a * b).
Proof.
  intros Ha Hb.
  pose proof (Zdigits2_spec a Ha) as [Ha1 _].
  pose proof (Zdigits2_spec b Hb) as [Hb1 _].
  pose proof (Zdigits2_pos a Ha). pose proof (Zdigits2_pos b Hb).
  apply Zdigits2_ge; [nia|].
  replace (Zdigits2 a + Zdigits2 b - 1 - 1) with ((Zdigits2 a - 1) + (Zdigits2 b - 1)) by lia.
  rewrite Z.pow_add_r by lia.
  assert (0 < 2 ^ (Zdigits2 a - 1)) by (apply Z.pow_pos_nonneg; lia).
  assert (0 < 2 ^ (Zdigits2 b - 1)) by (apply Z.pow_pos_nonneg; lia).
  nia.
Qed.

Lemma SFmul_faithful (x y : spec_float) :
  nonneg_fin x -> nonneg_fin y ->
  faithful (F2Q x * F2Q y) (SFmul 53 1024 x y).
Proof.
  intros Hx Hy.
  destruct x as [sx| | |[|] mx ex]; try contradiction;
  destruct y as [sy| | |[|] my ey]; try contradiction; cbn [SFmul F2Q xorb].
  - apply faithful_ext with 0%Q; [ring|]. apply faithful_zero.
  - apply faithful_ext with 0%Q; [ring|]. apply faithful_zero.
  - apply faithful_ext with 0%Q; [ring|]. apply faithful_zero.
  - cbn [nonneg_fin] in *. apply bounded_spec in Hx, Hy.
    eapply faithful_ext; [symmetry; apply dy_mul|].
    rewrite Pos2Z.inj_mul.
    apply binary_round_aux_faithful; [lia|].
    pose proof (Zdigits2_mul (Zpos mx) (Zpos my) ltac:(lia) ltac:(lia)).
    pose proof (Zdigits2_pos (Zpos mx) ltac:(lia)).
    pose proof (Zdigits2_pos (Zpos my) ltac:(lia)).
    rewrite fexp64. lia.
Qed.

(** *** Division *)

Lemma fexp_mono (a b : Z) : a <= b -> fexp 53 1024 a <= fexp 53 1024 b.
Proof. rewrite !fexp64. lia. Qed.

Lemma new_location_0 (n : Z) : new_location n 0 = loc_Exact.
Proof. unfold new_location. destruct (Z.even n); reflexivity. Qed.

Lemma Zdigits2_div (a b : Z) :
  0 < a -> 0 < b -> Zdigits2 a - Zdigits2 b <= Zdigits2 (a / b).
Proof.
  intros Ha Hb.
  pose proof (Zdigits2_spec a Ha) as [Ha1 _].
  pose proof (Zdigits2_spec b Hb) as [_ Hb2].
  pose proof (Zdigits2_pos a Ha). pose proof (Zdigits2_pos b Hb).
  destruct (Z_le_gt_dec (Zdigits2 a - Zdigits2 b) 0) as [Hle|Hgt].
  - pose proof (Zdigits2_nonneg (a / b)). lia.
  - assert (Hq : 2 ^ (Zdigits2 a - Zdigits2 b - 1) <= a / b).
    { apply Z.div_le_lower_bound; [lia|].
      assert (0 < 2 ^ (Zdigits2 a - Zdigits2 b - 1)) by (apply Z.pow_pos_nonneg; lia).
      replace (Zdigits2 a - 1) with (Zdigits2 b + (Zdigits2 a - Zdigits2 b - 1)) in Ha1 by lia.
      rewrite Z.pow_add_r in Ha1 by lia. nia. }
    apply Zdigits2_ge; [|exact Hq].
    assert (0 < 2 ^ (Zdigits2 a - Zdigits2 b - 1)) by (apply Z.pow_pos_nonneg; lia). lia.
Qed.

Lemma SFdiv_faithful (x y : spec_float) :
  nonneg_fin x -> nonneg_fin y -> (0 < F2Q y)%Q ->
  faithful (F2Q x / F2Q y) (SFdiv 53 1024 x y).
Proof.
  intros Hx Hy Hpos.
  destruct y as [sy| | |[|] my ey]; try contradiction;
    [exfalso; revert Hpos; apply Qlt_irrefl|].
  destruct x as [sx| | |[|] mx ex]; try contradiction; cbn [SFdiv F2Q xorb] in *.
  - apply faithful_ext with 0%Q; [|apply faithful_zero].
    unfold Qdiv. ring.
  - unfold SFdiv_core_binary.
    set (d1 := Zdigits2 (Zpos mx)). set (d2 := Zdigits2 (Zpos my)).
    set (e' := Z.min (fexp 53 1024 (d1 + ex - (d2 + ey))) (ex - ey)).
    set (s := ex - ey - e').
    assert (Hs : 0 <= s) by (unfold s, e'; lia).
    set (m' := match s with Z.pos _ => Z.shiftl (Z.pos mx) s | 0 => Z.pos mx | Z.neg _ => 0 end).
    assert (Em' : m' = Zpos mx * 2 ^ s).
    { unfold m'. destruct s as [|p|p]; try lia.
      now rewrite Z.shiftl_mul_pow2 by lia. }
    clearbody m'.
    assert (Hps : 0 < 2 ^ s) by (apply Z.pow_pos_nonneg; lia).
    destruct (Z.div_eucl m' (Zpos my)) as [q r] eqn:Ediv.
    assert (Eq : q = m' / Zpos my) by (unfold Z.div; now rewrite Ediv).
    assert (Er : r = m' mod Zpos my) by (unfold Z.modulo; now rewrite Ediv).
    pose proof (Z.div_mod m' (Zpos my) ltac:(lia)) as Hdm.
    pose proof (Z.mod_pos_bound m' (Zpos my) ltac:(lia)) as Hmod.
    rewrite <- Eq, <- Er in *.
    assert (Hq0 : 0 <= q) by (rewrite Eq; apply Z.div_pos; nia).
    (* the value lies from [q] up to [q + 1] at the exponent [e'] *)
    assert (Hden : (0 < dy (Zpos my) ey)%Q) by (apply dy_pos; lia).
    assert (Hv1 : (dy q e' <= dy (Zpos mx) ex / dy (Zpos my) ey)%Q).
    { apply Qle_shift_div_l; [exact Hden|]. rewrite dy_mul.
      apply dy_le_r; [unfold s in Hs; lia|].
      replace (ex - (e' + ey)) with s by (unfold s; lia). nia. }
    assert (Hv2 : (dy (Zpos mx) ex / dy (Zpos my) ey < dy (q + 1) e')%Q).
    { apply Qlt_shift_div_r; [exact Hden|]. rewrite dy_mul.
      apply dy_lt_l; [unfold s in Hs; lia|].
      replace (ex - (e' + ey)) with s by (unfold s; lia). nia. }
    assert (Hv3 : r <> 0 -> (dy q e' < dy (Zpos mx) ex / dy (Zpos my) ey)%Q).
    { intros Hr. apply Qlt_shift_div_l; [exact Hden|]. rewrite dy_mul.
      apply dy_lt_r; [unfold s in Hs; lia|].
      replace (ex - (e' + ey)) with s by (unfold s; lia). nia. }
    (* the quotient has enough digits *)
    assert (He' : e' <= fexp 53 1024 (Zdigits2 q + e')).
    { destruct (Z.eq_dec q 0) as [E0|Hn0].
      - assert (Hlt : m' < Zpos my) by nia.
        assert (d1 + s <= d2).
        { unfold d1, d2. rewrite <- Zdigits2_mul_pow2, <- Em' by lia.
          apply Zdigits2_le; [nia|apply Zdigits2_nonneg|].
          eapply Z.lt_trans; [exact Hlt|]. apply Zdigits2_spec. lia. }
        rewrite E0. cbn [Zdigits2]. rewrite Z.add_0_l.
        unfold e' at 1. etransitivity; [apply Z.le_min_l|].
        apply fexp_mono. unfold s in *. lia.
      - pose proof (Zdigits2_div m' (Zpos my) ltac:(nia) ltac:(lia)) as Hd.
        rewrite <- Eq in Hd. rewrite Em', Zdigits2_mul_pow2 in Hd by lia.
        fold d1 d2 in Hd.
        unfold e' at 1. etransitivity; [apply Z.le_min_l|].
        apply fexp_mono. unfold s in *. lia. }
    destruct (binary_round_aux_spec false q e' (new_location (Zpos my) r) Hq0)
      as (mr & -> & Hmr & Hex).
    set (E := fexp 53 1024 (Zdigits2 q + e')) in *.
    rewrite Z.max_r in * by lia.
    replace (e' + (E - e')) with E by lia.
    assert (Hp : 0 < 2 ^ (E - e')) by (apply Z.pow_pos_nonneg; lia).
    pose proof (Z.div_mod q (2 ^ (E - e')) ltac:(lia)) as Hdq.
    pose proof (Z.mod_pos_bound q (2 ^ (E - e')) Hp) as Hmq.
    apply finish_faithful with (lo := q / 2 ^ (E - e')).
    + apply slot_fexp; [exact Hq0|exact He'].
    + eapply Qle_trans; [|exact Hv1]. apply dy_le_l; [lia|]. nia.
    + eapply Qlt_le_trans; [exact Hv2|]. apply dy_le_r; [lia|]. nia.
    + destruct (Z.eq_dec r 0) as [Er0|Hr0].
      * destruct (Z.eq_dec (q mod 2 ^ (E - e')) 0) as [Eq0|Hq0'].
        -- left. apply Hex; [|exact Eq0]. rewrite Er0. apply new_location_0.
        -- destruct Hmr as [->| ->]; [now left|right]. split; [reflexivity|].
           eapply Qlt_le_trans; [|exact Hv1]. apply dy_lt_l; [lia|]. nia.
      * destruct Hmr as [->| ->]; [now left|right]. split; [reflexivity|].
        eapply Qle_lt_trans; [|exact (Hv3 Hr0)]. apply dy_le_l; [lia|]. nia.
Qed.

(** *** Numbers that are floats *)

(** [k * 2 ^ g] is a float64 when [k] has at most 53 digits and the
    exponent is within the range. *)
Lemma representable (k g : Z) :
  0 <= k -> Zdigits2 k <= 53 -> -1074 <= g -> Zdigits2 k + g <= 1024 ->
  exists f : spec_float, nonneg_fin f /\ (F2Q f == dy k g)%Q.
Proof.
  intros Hk Hd Hg Hmax.
  destruct k as [|p|p]; try lia.
  - exists (S754_zero false). split; [exact I|]. cbn. now rewrite dy_0.
  - set (j := Z.min (53 - Zdigits2 (Zpos p)) (g + 1074)).
    pose proof (Zdigits2_pos (Zpos p) ltac:(lia)) as Hdp.
    assert (Hj : 0 <= j) by (unfold j; lia).
    assert (Hp : 0 < 2 ^ j) by (apply Z.pow_pos_nonneg; lia).
    destruct (Zpos p * 2 ^ j) as [|m|m] eqn:Em; try nia.
    exists (S754_finite false m (g - j)). split.
    + cbn [nonneg_fin]. apply bounded_spec. rewrite <- Em.
      rewrite Zdigits2_mul_pow2 by lia. unfold j. lia.
    + cbn [F2Q]. rewrite <- Em. symmetry.
      rewrite (dy_shift (Zpos p) (g - j) g) by lia.
      replace (g - (g - j)) with j by lia. reflexivity.
Qed.

Lemma representable_int (z : Z) :
  0 <= z <= 2 ^ 53 ->
  exists f : spec_float, nonneg_fin f /\ (F2Q f == inject_Z z)%Q.
Proof.
  intros Hz. destruct (Z.eq_dec z (2 ^ 53)) as [->|Hn].
  - destruct (representable (2 ^ 52) 1) as (f & Hf & E); try (cbn; lia).
    exists f. split; [exact Hf|]. rewrite E. unfold dy, pow2. reflexivity.
  - destruct (representable z 0) as (f & Hf & E); try lia.
    + apply Zdigits2_le; lia.
    + assert (Zdigits2 z <= 53) by (apply Zdigits2_le; lia). lia.
    + exists f. split; [exact Hf|]. rewrite E. apply dy_int.
Qed.


Lemma of_int_faithful (z : Z) : 0 <= z -> faithful (inject_Z z) (float64.of_int z).
Proof.
  intros H. apply faithful_ext with (dy z 0); [apply dy_int|].
  now apply binary_normalize_faithful.
Qed.

(** [float64(z)] is [z] up to [2 ^ 53]. *)
Lemma of_int_exact (z : Z) :
  0 <= z <= 2 ^ 53 -> nonneg_fin (float64.of_int z) /\ (F2Q (float64.of_int z) == inject_Z z)%Q.
Proof.
  intros H. destruct (representable_int z H) as (f & Hf & E).
  apply (faithful_exact _ _ f); auto. apply of_int_faithful. lia.
Qed.

(** [float64(z)] is finite for every [int64] that is not negative. *)
Lemma of_int_fin (z : Z) :
  0 <= z <= 2 ^ 63 -> nonneg_fin (float64.of_int z) /\ (F2Q (float64.of_int z) <= inject_Z (2 ^ 63))%Q.
Proof.
  intros H. destruct (representable (2 ^ 52) 11) as (f & Hf & E); try (cbn; lia).
  assert (E' : (F2Q f == inject_Z (2 ^ 63))%Q).
  { rewrite E. unfold dy, pow2. reflexivity. }
  rewrite <- E'. apply faithful_below with (v := inject_Z z); auto.
  - apply of_int_faithful. lia.
  - rewrite E'. rewrite <- Zle_Qle. lia.
Qed.

(** The value of [x - 1] is one less than that of [x], up to [2 ^ 53]. *)
Lemma sub_one_exact (x : spec_float) :
  nonneg_fin x -> (1 <= F2Q x)%Q -> (F2Q x <= inject_Z (2 ^ 53))%Q ->
  nonneg_fin (float64.sub x (float64.of_int 1)) /\
  (F2Q (float64.sub x (float64.of_int 1)) == F2Q x - 1)%Q.
Proof.
  intros Hx H1 H53.
  destruct (of_int_exact 1 ltac:(lia)) as (Ho & Eo).
  assert (Hf : faithful (F2Q x - 1) (float64.sub x (float64.of_int 1))).
  { eapply faithful_ext; [|apply SFsub_faithful; auto].
    - now rewrite Eo.
    - now rewrite Eo. }
  assert (Hrep : exists f, nonneg_fin f /\ (F2Q f == F2Q x - 1)%Q).
  { destruct x as [s| | |[|] m e]; try contradiction; cbn [F2Q nonneg_fin] in *.
    pose proof (bounded_lt _ _ Hx) as Hm. apply bounded_spec in Hx.
    rewrite <- (dy_int 1) in H1. rewrite <- (dy_int (2 ^ 53)) in H53.
    destruct (Z_le_gt_dec e 0) as [He|He].
    + apply dy_le_l in H1; [|lia]. rewrite Z.sub_0_l, Z.mul_1_l in H1.
      assert (Hp : 0 < 2 ^ (- e)) by (apply Z.pow_pos_nonneg; lia).
      assert (He52 : -53 < e).
      { destruct (Z_le_gt_dec e (-53)) as [Hc|Hc]; [|lia]. exfalso.
        assert (2 ^ 53 <= 2 ^ (- e)) by (apply Z.pow_le_mono_r; lia). lia. }
      destruct (representable (Zpos m - 2 ^ (- e)) e) as (f & Hf' & E); try lia.
      * apply Zdigits2_le; lia.
      * assert (Zdigits2 (Zpos m - 2 ^ (- e)) <= 53) by (apply Zdigits2_le; lia). lia.
      * exists f. split; [exact Hf'|]. rewrite E, <- dy_sub.
        assert (E1 : (dy (2 ^ (- e)) e == 1)%Q).
        { rewrite <- (dy_int 1), (dy_shift 1 e 0) by lia.
          apply dy_eq_same. replace (0 - e) with (- e) by lia. lia. }
        now rewrite E1.
    + apply dy_le_l in H53; [|lia]. rewrite Z.sub_0_r in H53.
      pose proof (bounded_normal m e ltac:(apply bounded_spec; lia) ltac:(lia)) as H52.
      assert (He1 : e = 1).
      { destruct (Z_le_gt_dec e 1) as [Hc|Hc]; [lia|]. exfalso.
        assert (2 ^ 2 <= 2 ^ e) by (apply Z.pow_le_mono_r; lia).
        change (2 ^ 2) with 4 in *. change (2 ^ 53) with (2 ^ 52 * 2) in *. nia. }
      subst e. change (2 ^ 1) with 2 in H53.
      assert (Em : Zpos m = 2 ^ 52) by (change (2 ^ 53) with (2 ^ 52 * 2) in *; lia).
      destruct (representable_int (2 ^ 53 - 1) ltac:(lia)) as (f & Hf' & E).
      exists f. split; [exact Hf'|]. rewrite E, Em.
      unfold dy, pow2. reflexivity. }
  destruct Hrep as (f & Hf' & E).
  exact (faithful_exact _ _ f Hf Hf' E).
Qed.

(** ** The arithmetic of the bucket in [float64] *)

Lemma one_exact : nonneg_fin (float64.of_int 1) /\ (F2Q (float64.of_int 1) == 1)%Q.
Proof. exact (of_int_exact 1 ltac:(lia)). Qed.

Lemma nonneg_fin_nonneg (x : float64.t) : nonneg_fin x -> nonneg x.
Proof. now left. Qed.

Lemma faithful_nonneg (v : Q) (r : float64.t) : faithful v r -> nonneg r.
Proof. now intros (H & _). Qed.

Lemma faithful_above (v : Q) (r f : float64.t) :
  faithful v r -> nonneg_fin f -> (F2Q f <= v)%Q ->
  r = float64.infinity \/ (nonneg_fin r /\ (F2Q f <= F2Q r)%Q).
Proof.
  intros (H1 & H2 & _) Hf Hv. destruct H1 as [H1|H1]; [right|now left].
  split; [exact H1|]. apply SFleb_nonneg_fin; auto.
Qed.

(** [d.Seconds()] of a duration that is not negative is finite and not
    negative. *)
Lemma Seconds_fin (d : Duration) :
  0 <= d <= maxInt64 -> nonneg_fin (IEEE.Seconds d).
Proof.
  intros Hd. unfold IEEE.Seconds, maxInt64, Second in *.
  rewrite Z.quot_div_nonneg, Z.rem_mod_nonneg by lia.
  pose proof (Z.mod_pos_bound d 1000000000 ltac:(lia)) as Hr.
  assert (Hq : 0 <= d / 1000000000 < 2 ^ 34).
  { split; [apply Z.div_pos; lia|]. apply Z.div_lt_upper_bound; lia. }
  set (q := d / 1000000000) in *. set (r := d mod 1000000000) in *.
  destruct (of_int_exact q ltac:(lia)) as (Hq1 & Eq).
  destruct (of_int_exact r ltac:(lia)) as (Hr1 & Er).
  destruct (of_int_exact 1000000000 ltac:(lia)) as (Hg1 & Eg).
  destruct (of_int_exact (q + 1) ltac:(lia)) as (Hs1 & Es).
  destruct one_exact as (Ho & Eo).
  assert (Hdiv : faithful (F2Q (float64.of_int r) / F2Q (float64.of_int 1000000000))
                   (float64.div (float64.of_int r) (float64.of_int 1000000000))).
  { apply SFdiv_faithful; auto. rewrite Eg. reflexivity. }
  destruct (faithful_below _ _ (float64.of_int 1) Hdiv Ho) as (Hd1 & Hd2).
  { rewrite Er, Eg, Eo. apply Qle_shift_div_r; [reflexivity|].
    rewrite Qmult_1_l, <- Zle_Qle. lia. }
  pose proof (SFadd_faithful _ _ Hq1 Hd1) as Hadd.
  apply (faithful_below _ _ (float64.of_int (q + 1)) Hadd Hs1).
  rewrite Eq, Es, inject_Z_plus. rewrite Eo in Hd2.
  apply Qplus_le_r. exact Hd2.
Qed.

(** The tokens that flow in, [elapsed*rl.refillRate], are not negative when
    the rate is not. *)
Lemma inflow_nonneg (d : Duration) (rate : float64.t) :
  0 <= d <= maxInt64 -> nonneg_fin rate ->
  nonneg (float64.mul (IEEE.Seconds d) rate).
Proof.
  intros Hd Hr. eapply faithful_nonneg. apply SFmul_faithful; auto.
  now apply Seconds_fin.
Qed.

(** Adding what flowed in to a balance. *)
Lemma add_inflow (x d : float64.t) :
  nonneg_fin x -> nonneg d ->
  float64.add x d = float64.infinity \/
  (nonneg_fin (float64.add x d) /\ nonneg_fin d /\
   (F2Q x <= F2Q (float64.add x d))%Q /\ (F2Q d <= F2Q (float64.add x d))%Q).
Proof.
  intros Hx [Hd| ->].
  - pose proof (SFadd_faithful x d Hx Hd) as Hf.
    pose proof (F2Q_nonneg x Hx). pose proof (F2Q_nonneg d Hd).
    destruct (faithful_above _ _ x Hf Hx) as [E|(Hs & H1)]; [lra|now left|].
    destruct (faithful_above _ _ d Hf Hd) as [E|(_ & H2)]; [lra|now left|].
    right. auto.
  - left. destruct x as [s| | |[|] m e]; try contradiction; reflexivity.
Qed.

Lemma min_infinity (c : float64.t) :
  nonneg_fin c -> IEEE.min c float64.infinity = c.
Proof.
  intros H. unfold IEEE.min, float64.ltb.
  destruct c as [s| | |[|] m e]; try contradiction; reflexivity.
Qed.

Lemma min_fin (c x : float64.t) :
  nonneg_fin c -> nonneg_fin x ->
  nonneg_fin (IEEE.min c x) /\
  (F2Q (IEEE.min c x) == Qmin (F2Q c) (F2Q x))%Q.
Proof.
  intros Hc Hx. unfold IEEE.min, float64.ltb.
  destruct (SFltb c x) eqn:E.
  - apply SFltb_nonneg_fin in E; auto. split; [exact Hc|].
    symmetry. apply Q.min_l. now apply Qlt_le_weak.
  - split; [exact Hx|]. symmetry. apply Q.min_r.
    destruct (Qlt_le_dec (F2Q c) (F2Q x)) as [H|H]; [|exact H].
    apply SFltb_nonneg_fin in H; auto. congruence.
Qed.

(** The refilled balance: finite, from the balance before up to the
    capacity, and not below what flowed in when that fits the bucket. *)
Lemma refilled_spec (rl : IEEE.RateLimiter) (now : Time) :
  within_bucket64 rl -> nonneg_fin (IEEE.refillRate rl) ->
  IEEE.lastRefill rl <= now <= IEEE.lastRefill rl + maxInt64 ->
  nonneg_fin (IEEE.refilled rl now) /\
  (F2Q (IEEE.tokens rl) <= F2Q (IEEE.refilled rl now))%Q /\
  (F2Q (IEEE.refilled rl now) <= F2Q (IEEE.capacity rl))%Q /\
  (forall f : float64.t,
      nonneg_fin f -> (F2Q f <= F2Q (IEEE.capacity rl))%Q ->
      float64.leb f (float64.mul (IEEE.Seconds (Sub now (IEEE.lastRefill rl)))
                       (IEEE.refillRate rl)) = true ->
      (F2Q f <= F2Q (IEEE.refilled rl now))%Q).
Proof.
  intros (Ht & Hc & Htc) Hr Hnow. unfold IEEE.refilled.
  set (d := float64.mul _ _).
  assert (Hd : nonneg d) by (apply inflow_nonneg; unfold Sub; auto; lia).
  destruct (add_inflow (IEEE.tokens rl) d Ht Hd) as [E|(Hs & Hd' & H1 & H2)].
  - rewrite E, min_infinity by exact Hc.
    repeat split; auto; try apply Qle_refl.
  - destruct (min_fin _ _ Hc Hs) as (Hm & Em). rewrite Em.
    split; [exact Hm|]. split; [apply Q.min_glb; auto|].
    split; [apply Q.le_min_l|].
    intros f Hf Hfc Hfd. rewrite Em. apply Q.min_glb; [exact Hfc|].
    apply SFleb_nonneg_fin in Hfd; auto. lra.
Qed.

Lemma Allow_unfold (rl : IEEE.RateLimiter) (now : Time) :
  IEEE.Allow rl now =
  if float64.leb (float64.of_int 1) (IEEE.refilled rl now) then
    (true, {| IEEE.tokens := float64.sub (IEEE.refilled rl now) (float64.of_int 1);
              IEEE.capacity := IEEE.capacity rl;
              IEEE.refillRate := IEEE.refillRate rl; IEEE.lastRefill := now |})
  else
    (false, {| IEEE.tokens := IEEE.refilled rl now; IEEE.capacity := IEEE.capacity rl;
               IEEE.refillRate := IEEE.refillRate rl; IEEE.lastRefill := now |}).
Proof. reflexivity. Qed.

Lemma leb_one (x : float64.t) :
  nonneg_fin x -> (float64.leb (float64.of_int 1) x = true <-> (1 <= F2Q x)%Q).
Proof.
  intros H. destruct one_exact as (Ho & Eo). unfold float64.leb.
  rewrite (SFleb_nonneg_fin _ _ Ho H), Eo. reflexivity.
Qed.

(** Taking a token from a balance that holds one. *)
Lemma take_token (x : float64.t) :
  nonneg_fin x -> (1 <= F2Q x)%Q ->
  nonneg_fin (float64.sub x (float64.of_int 1)) /\
  (F2Q (float64.sub x (float64.of_int 1)) <= F2Q x)%Q.
Proof.
  intros Hx H1. destruct one_exact as (Ho & Eo).
  apply faithful_below with (v := (F2Q x - F2Q (float64.of_int 1))%Q); auto.
  - apply SFsub_faithful; auto. now rewrite Eo.
  - rewrite Eo. lra.
Qed.

(** [Allow()] keeps the balance within the bucket. *)
Lemma Allow_within_bucket64 (rl : IEEE.RateLimiter) (now : Time) :
  within_bucket64 rl -> nonneg_fin (IEEE.refillRate rl) ->
  IEEE.lastRefill rl <= now <= IEEE.lastRefill rl + maxInt64 ->
  within_bucket64 (snd (IEEE.Allow rl now)).
Proof.
  intros Hin Hr Hnow.
  destruct (refilled_spec rl now Hin Hr Hnow) as (Hf & H1 & H2 & _).
  destruct Hin as (Ht & Hc & Htc).
  rewrite Allow_unfold. destruct (float64.leb _ _) eqn:E; cbn [snd].
  - apply leb_one in E; [|exact Hf].
    destruct (take_token _ Hf E) as (Hs & Hle).
    unfold within_bucket64. cbn [IEEE.tokens IEEE.capacity].
    repeat split; auto. lra.
  - unfold within_bucket64. cbn [IEEE.tokens IEEE.capacity].
    repeat split; auto.
Qed.

(** ** C1 *)

Lemma Allow_fields64 (rl : IEEE.RateLimiter) (now : Time) :
  IEEE.lastRefill (snd (IEEE.Allow rl now)) = now /\
  IEEE.capacity (snd (IEEE.Allow rl now)) = IEEE.capacity rl /\
  IEEE.refillRate (snd (IEEE.Allow rl now)) = IEEE.refillRate rl.
Proof. rewrite Allow_unfold. destruct (float64.leb _ _); cbn; auto. Qed.

(** C1, amended.  [Allow()] refills the balance to
    [min(capacity, tokens + (now - lastRefill) in seconds * refillRate)],
    each operation in [float64], and sets [lastRefill] to [now]; if the
    refilled balance is at least 1 it replaces it by the [float64]
    difference with 1 and returns [true], otherwise it keeps the refilled
    balance and returns [false].  Capacity and rate do not change.  For a
    balance within the bucket, a rate that is finite and not negative and a
    clock that has not run back, the refilled balance is a finite number
    from the balance before up to the capacity, and the token taken is
    exactly one when the refilled balance is at most [2 ^ 53]. *)
Theorem C1_Allow_refills_then_consumes (rl : IEEE.RateLimiter) (now : Time) :
  let refilled :=
    IEEE.min (IEEE.capacity rl)
      (float64.add (IEEE.tokens rl)
         (float64.mul (IEEE.Seconds (Sub now (IEEE.lastRefill rl)))
            (IEEE.refillRate rl))) in
  let rl1 := snd (IEEE.Allow rl now) in
  IEEE.lastRefill rl1 = now /\
  IEEE.capacity rl1 = IEEE.capacity rl /\
  IEEE.refillRate rl1 = IEEE.refillRate rl /\
  (float64.leb (float64.of_int 1) refilled = true ->
   fst (IEEE.Allow rl now) = true /\
   IEEE.tokens rl1 = float64.sub refilled (float64.of_int 1)) /\
  (float64.leb (float64.of_int 1) refilled = false ->
   fst (IEEE.Allow rl now) = false /\ IEEE.tokens rl1 = refilled) /\
  (within_bucket64 rl -> nonneg_fin (IEEE.refillRate rl) ->
   IEEE.lastRefill rl <= now <= IEEE.lastRefill rl + maxInt64 ->
   nonneg_fin refilled /\
   (F2Q (IEEE.tokens rl) <= F2Q refilled)%Q /\
   (F2Q refilled <= F2Q (IEEE.capacity rl))%Q /\
   ((1 <= F2Q refilled)%Q ->
    fst (IEEE.Allow rl now) = true /\
    nonneg_fin (IEEE.tokens rl1) /\
    (F2Q (IEEE.tokens rl1) <= F2Q refilled)%Q /\
    ((F2Q refilled <= inject_Z (2 ^ 53))%Q ->
     (F2Q (IEEE.tokens rl1) == F2Q refilled - 1)%Q)) /\
   ((F2Q refilled < 1)%Q ->
    fst (IEEE.Allow rl now) = false /\ IEEE.tokens rl1 = refilled)).
Proof.
  intros refilled rl1. change refilled with (IEEE.refilled rl now) in *.
  destruct (Allow_fields64 rl now) as (H1 & H2 & H3).
  assert (Hadm : float64.leb (float64.of_int 1) (IEEE.refilled rl now) = true ->
                 fst (IEEE.Allow rl now) = true /\
                 IEEE.tokens rl1
                 = float64.sub (IEEE.refilled rl now) (float64.of_int 1)).
  { intros E. unfold rl1. rewrite Allow_unfold, E. split; reflexivity. }
  assert (Hrej : float64.leb (float64.of_int 1) (IEEE.refilled rl now) = false ->
                 fst (IEEE.Allow rl now) = false /\
                 IEEE.tokens rl1 = IEEE.refilled rl now).
  { intros E. unfold rl1. rewrite Allow_unfold, E. split; reflexivity. }
  repeat (split; [assumption|]).
  intros Hin Hr Hnow.
  destruct (refilled_spec rl now Hin Hr Hnow) as (Hf & Ha & Hb & _).
  repeat (split; [assumption|]). split.
  - intros Hge. destruct (Hadm (proj2 (leb_one _ Hf) Hge)) as (Hok & Htok).
    rewrite Htok. destruct (take_token _ Hf Hge) as (Hs & Hle).
    repeat (split; [assumption|]).
    intros H53. exact (proj2 (sub_one_exact _ Hf Hge H53)).
  - intros Hlt. apply Hrej.
    destruct (float64.leb _ _) eqn:E; [|reflexivity].
    apply leb_one in E; [|exact Hf]. lra.
Qed.

(** C1, as the claim states it, fails: with a balance of [2 ^ 54] tokens
    [Allow()] admits the call and takes nothing, the [float64] nearest to
    [2 ^ 54 - 1] being [2 ^ 54]. *)
Lemma C1_large_balance_keeps_its_tokens :
  let rl := IEEE.NewRateLimiter (float64.of_int 10) (2 ^ 54) 0 in
  fst (IEEE.Allow rl 0) = true /\
  IEEE.refilled rl 0 = float64.of_int (2 ^ 54) /\
  IEEE.tokens (snd (IEEE.Allow rl 0)) = float64.of_int (2 ^ 54) /\
  (F2Q (float64.of_int (2 ^ 54)) == inject_Z (2 ^ 54))%Q /\
  ~ (F2Q (IEEE.tokens (snd (IEEE.Allow rl 0))) == F2Q (IEEE.refilled rl 0) - 1)%Q.
Proof.
  cbv zeta. repeat split; try (vm_compute; reflexivity).
  vm_compute. discriminate.
Qed.

(** ** C7: a full bucket, drained at one instant *)

Lemma Seconds_0 : IEEE.Seconds 0 = S754_zero false.
Proof. reflexivity. Qed.

(** With no time elapsed the refilled balance is the balance, whatever the
    finite rate. *)
Lemma refilled_same_instant (rl : IEEE.RateLimiter) :
  within_bucket64 rl -> float64.finite (IEEE.refillRate rl) = true ->
  nonneg_fin (IEEE.refilled rl (IEEE.lastRefill rl)) /\
  (F2Q (IEEE.refilled rl (IEEE.lastRefill rl)) == F2Q (IEEE.tokens rl))%Q.
Proof.
  intros (Ht & Hc & Htc) Hr. unfold IEEE.refilled, Sub.
  rewrite Z.sub_diag, Seconds_0.
  assert (Hz : exists s, float64.mul (S754_zero false) (IEEE.refillRate rl) = S754_zero s).
  { destruct (IEEE.refillRate rl) as [s| | |s m e]; try discriminate; cbn; eauto. }
  destruct Hz as (s & ->).
  assert (Hadd : nonneg_fin (float64.add (IEEE.tokens rl) (S754_zero s)) /\
                 (F2Q (float64.add (IEEE.tokens rl) (S754_zero s))
                  == F2Q (IEEE.tokens rl))%Q).
  { destruct (IEEE.tokens rl) as [st| | |[|] m e]; try contradiction.
    - destruct st, s; cbn; split; auto; reflexivity.
    - cbn. split; [exact Ht|reflexivity]. }
  destruct Hadd as (Ha & Ea).
  destruct (min_fin _ _ Hc Ha) as (Hm & Em).
  split; [exact Hm|]. rewrite Em, Ea. apply Q.min_r. exact Htc.
Qed.

Lemma allows_cons (rl : IEEE.RateLimiter) (now : Time) (rest : list Time) :
  fst (IEEE.allows rl (now :: rest))
  = fst (IEEE.Allow rl now) :: fst (IEEE.allows (snd (IEEE.Allow rl now)) rest).
Proof.
  cbn [IEEE.allows]. destruct (IEEE.Allow rl now) as [ok rl1]. cbn [fst snd].
  destruct (IEEE.allows rl1 rest) as [oks rl2]. reflexivity.
Qed.

(** A balance of [n] tokens is taken by [n] calls at one instant. *)
Lemma drain_at_one_instant (n : nat) :
  forall rl : IEEE.RateLimiter,
    within_bucket64 rl -> float64.finite (IEEE.refillRate rl) = true ->
    (F2Q (IEEE.tokens rl) == inject_Z (Z.of_nat n))%Q ->
    Z.of_nat n <= 2 ^ 53 ->
    fst (IEEE.allows rl (repeat (IEEE.lastRefill rl) (n + 1)))
    = repeat true n ++ [false].
Proof.
  induction n as [|n IH]; intros rl Hin Hr Ht Hn;
    destruct (refilled_same_instant rl Hin Hr) as (Hf & Ef);
    destruct (Allow_fields64 rl (IEEE.lastRefill rl)) as (Hl & Hc & Hrate).
  - cbn [repeat Nat.add app]. rewrite allows_cons. cbn [IEEE.allows fst].
    rewrite Allow_unfold.
    destruct (float64.leb _ _) eqn:E; [|reflexivity].
    apply leb_one in E; [|exact Hf]. rewrite Ef, Ht in E.
    exfalso. revert E. apply Qlt_not_le. reflexivity.
  - change (S n + 1)%nat with (S (n + 1)). cbn [repeat app].
    rewrite allows_cons.
    assert (Hge : (1 <= F2Q (IEEE.refilled rl (IEEE.lastRefill rl)))%Q).
    { rewrite Ef, Ht. change 1%Q with (inject_Z 1). rewrite <- Zle_Qle. lia. }
    assert (H53 : (F2Q (IEEE.refilled rl (IEEE.lastRefill rl)) <= inject_Z (2 ^ 53))%Q).
    { rewrite Ef, Ht. now rewrite <- Zle_Qle. }
    pose proof (proj2 (leb_one _ Hf) Hge) as E.
    destruct (sub_one_exact _ Hf Hge H53) as (Hs & Es).
    pose proof (Allow_within_bucket64 rl (IEEE.lastRefill rl)) as Hin1.
    assert (Htok : IEEE.tokens (snd (IEEE.Allow rl (IEEE.lastRefill rl)))
                   = float64.sub (IEEE.refilled rl (IEEE.lastRefill rl))
                       (float64.of_int 1)).
    { rewrite Allow_unfold, E. reflexivity. }
    assert (Hok : fst (IEEE.Allow rl (IEEE.lastRefill rl)) = true).
    { rewrite Allow_unfold, E. reflexivity. }
    rewrite Hok. f_equal.
    rewrite <- Hl at 2. apply IH.
    + destruct Hin as (Ht0 & Hc0 & Htc0).
      unfold within_bucket64. rewrite Hc, Htok. repeat split; auto.
      rewrite Es, Ef. lra.
    + now rewrite Hrate.
    + rewrite Htok, Es, Ef, Ht, Nat2Z.inj_succ. unfold Z.succ.
      rewrite inject_Z_plus. change (inject_Z 1) with 1%Q. ring.
    + lia.
Qed.

Lemma New_within_bucket64 (rate : float64.t) (c : Z) (t0 : Time) :
  0 <= c <= 2 ^ 63 -> within_bucket64 (IEEE.NewRateLimiter rate c t0).
Proof.
  intros Hc. destruct (of_int_fin c Hc) as (H & _).
  unfold within_bucket64. cbn. repeat split; auto. apply Qle_refl.
Qed.

(** C7, amended.  A limiter freshly made with integer burst capacity [c]
    from 1 to [2 ^ 53] and a finite refill rate answers [true] to exactly
    the first [c] of [c + 1] consecutive [Allow()] calls made with no time
    elapsed between them, and [false] to the call after them.  The calls
    are made at the instant [t]: the instant of construction, or a later
    one when the refill rate is not negative. *)
Theorem C7_full_bucket_admits_exactly_capacity (rate : float64.t) (c : Z)
    (t0 t : Time)
    (Hc : 1 <= c <= 2 ^ 53)
    (Hrate : float64.finite rate = true)
    (Hfresh : t = t0 \/ (t0 <= t <= t0 + maxInt64 /\ nonneg_fin rate)) :
  fst (IEEE.allows (IEEE.NewRateLimiter rate c t0) (repeat t (Z.to_nat c + 1)))
  = repeat true (Z.to_nat c) ++ [false].
Proof.
  set (rl := IEEE.NewRateLimiter rate c t0).
  assert (Hin : within_bucket64 rl) by (apply New_within_bucket64; lia).
  destruct (of_int_exact c ltac:(lia)) as (Hcf & Ec).
  (* the bucket is full at [t] *)
  assert (Hfull : nonneg_fin (IEEE.refilled rl t) /\
                  (F2Q (IEEE.refilled rl t) == inject_Z c)%Q).
  { destruct Hfresh as [->|(Ht & Hr)].
    - pose proof (refilled_same_instant rl Hin Hrate) as Hsame.
      change (IEEE.lastRefill rl) with t0 in Hsame.
      destruct Hsame as (Hf & Ef).
      split; [exact Hf|]. rewrite Ef. exact Ec.
    - destruct (refilled_spec rl t Hin Hr Ht) as (Hf & Ha & Hb & _).
      split; [exact Hf|]. cbn [rl IEEE.tokens IEEE.capacity IEEE.NewRateLimiter] in Ha, Hb.
      rewrite <- Ec. now apply Qle_antisym. }
  destruct Hfull as (Hf & Ef).
  destruct (Z.to_nat c) as [|n] eqn:En; [lia|].
  assert (Hn : c = Z.of_nat n + 1) by lia.
  assert (Hge : (1 <= F2Q (IEEE.refilled rl t))%Q).
  { rewrite Ef. change 1%Q with (inject_Z 1). rewrite <- Zle_Qle. lia. }
  assert (H53 : (F2Q (IEEE.refilled rl t) <= inject_Z (2 ^ 53))%Q).
  { rewrite Ef. rewrite <- Zle_Qle. lia. }
  pose proof (proj2 (leb_one _ Hf) Hge) as E.
  destruct (sub_one_exact _ Hf Hge H53) as (Hs & Es).
  destruct (Allow_fields64 rl t) as (Hl & Hcap & Hr1).
  assert (Htok : IEEE.tokens (snd (IEEE.Allow rl t))
                 = float64.sub (IEEE.refilled rl t) (float64.of_int 1)).
  { rewrite Allow_unfold, E. reflexivity. }
  assert (Hok : fst (IEEE.Allow rl t) = true).
  { rewrite Allow_unfold, E. reflexivity. }
  change (S n + 1)%nat with (S (n + 1)). cbn [repeat app].
  rewrite allows_cons, Hok. f_equal.
  rewrite <- Hl at 2. apply drain_at_one_instant.
  - unfold within_bucket64. rewrite Hcap, Htok.
    destruct Hin as (_ & Hc0 & _). repeat split; auto.
    rewrite Es, Ef. cbn [rl IEEE.capacity IEEE.NewRateLimiter]. rewrite Ec. lra.
  - now rewrite Hr1.
  - rewrite Htok, Es, Ef, Hn, inject_Z_plus. change (inject_Z 1) with 1%Q. ring.
  - lia.
Qed.

(** A balance that [Allow()] leaves as it is, is left so by every further
    call at that instant. *)
Lemma allows_fixed (rl : IEEE.RateLimiter) (now : Time) (n : nat) :
  IEEE.Allow rl now = (true, rl) ->
  fst (IEEE.allows rl (repeat now n)) = repeat true n.
Proof.
  intros H. induction n as [|n IH]; [reflexivity|].
  cbn [repeat]. rewrite allows_cons, H. cbn [fst snd]. now rewrite IH.
Qed.

(** C7, as the claim states it, fails.  With a refill rate of [+Inf], which
    [NewClientOptionsFromEnv] lets through, the first call at the instant
    of construction is turned down: the inflow is [0 * Inf], NaN.  And a
    bucket of [2 ^ 54] tokens admits call [2 ^ 54 + 1] too: a call takes
    nothing from it. *)
Lemma C7_fails_for_infinite_rate_and_beyond_2_53 :
  fst (IEEE.allows (IEEE.NewRateLimiter float64.infinity 2 0) (repeat 0 (Z.to_nat 2 + 1)))
  <> repeat true (Z.to_nat 2) ++ [false] /\
  fst (IEEE.allows (IEEE.NewRateLimiter (float64.of_int 10) (2 ^ 54) 0)
         (repeat 0 (Z.to_nat (2 ^ 54) + 1)))
  <> repeat true (Z.to_nat (2 ^ 54)) ++ [false].
Proof.
  split.
  - vm_compute. discriminate.
  - rewrite allows_fixed by (vm_compute; reflexivity).
    generalize (Z.to_nat (2 ^ 54)). intros n H.
    assert (E : nth_error (repeat true (n + 1)) n = nth_error (repeat true n ++ [false]) n)
      by now rewrite H.
    rewrite nth_error_repeat in E by lia.
    rewrite nth_error_app2, repeat_length, Nat.sub_diag in E by (rewrite repeat_length; lia).
    discriminate E.
Qed.

(** ** C8: calls at the sustainable rate *)

Lemma spaced_calls_admitted (times : list Time) :
  forall (rl : IEEE.RateLimiter) (first : bool),
    within_bucket64 rl -> nonneg_fin (IEEE.refillRate rl) ->
    (1 <= F2Q (IEEE.capacity rl))%Q ->
    (first = true -> (1 <= F2Q (IEEE.tokens rl))%Q) ->
    spaced (IEEE.refillRate rl) (IEEE.lastRefill rl) first times ->
    Forall (fun ok => ok = true) (fst (IEEE.allows rl times)).
Proof.
  induction times as [|now rest IH]; intros rl first Hin Hr Hcap Hfirst Hsp.
  - constructor.
  - cbn [spaced] in Hsp. destruct Hsp as (Hnow & Hgap & Hrest).
    destruct (refilled_spec rl now Hin Hr Hnow) as (Hf & Ha & Hb & Hflow).
    destruct one_exact as (Ho & Eo).
    assert (Hge : (1 <= F2Q (IEEE.refilled rl now))%Q).
    { destruct Hgap as [->|Hgap].
      - specialize (Hfirst eq_refl). lra.
      - rewrite <- Eo. apply Hflow; auto. now rewrite Eo. }
    pose proof (proj2 (leb_one _ Hf) Hge) as E.
    destruct (Allow_fields64 rl now) as (Hl & Hc & Hr1).
    rewrite allows_cons. constructor.
    + rewrite Allow_unfold, E. reflexivity.
    + apply (IH _ false).
      * now apply Allow_within_bucket64.
      * now rewrite Hr1.
      * now rewrite Hc.
      * discriminate.
      * now rewrite Hr1, Hl.
Qed.



(** ** C9: the balance stays within the bucket *)

(** The pause between two polls is from 10ms to 1s, whatever the rate. *)
Lemma waitTime_bounds64 (rl : IEEE.RateLimiter) :
  10 * Millisecond <= IEEE.waitTime rl <= 1 * Second.
Proof.
  unfold IEEE.waitTime. set (d := wrap64 _).
  unfold Millisecond, Second in *.
  destruct (Z.ltb_spec d (10 * 1000000)); [lia|].
  destruct (d >? 1 * 1000000000) eqn:E; [lia|].
  rewrite Z.gtb_ltb in E. apply Z.ltb_ge in E. lia.
Qed.

Lemma Wait_within_bucket64 (fuel : nat) :
  forall (rl rl1 : IEEE.RateLimiter) (now now1 : Time),
    within_bucket64 rl -> nonneg_fin (IEEE.refillRate rl) ->
    IEEE.lastRefill rl <= now <= IEEE.lastRefill rl + maxInt64 ->
    IEEE.Wait fuel rl now = Some (rl1, now1) ->
    within_bucket64 rl1 /\ IEEE.refillRate rl1 = IEEE.refillRate rl /\
    IEEE.capacity rl1 = IEEE.capacity rl.
Proof.
  induction fuel as [|fuel IH]; intros rl rl1 now now1 Hin Hr Hnow H;
    [discriminate|].
  cbn [IEEE.Wait] in H.
  pose proof (Allow_within_bucket64 rl now Hin Hr Hnow) as Hin1.
  destruct (Allow_fields64 rl now) as (Hl & Hc & Hr1).
  destruct (IEEE.Allow rl now) as [ok rl2]. cbn [snd] in *.
  destruct ok.
  - injection H as <- <-. auto.
  - apply IH in H; auto.
    + destruct H as (H1 & H2 & H3). split; [exact H1|]. split; congruence.
    + now rewrite Hr1.
    + rewrite Hl. pose proof (waitTime_bounds64 rl2).
      unfold maxInt64, Millisecond, Second in *. lia.
Qed.

Lemma Reachable_invariant (rate : float64.t) (burst : Z) (rl : IEEE.RateLimiter) :
  0 <= burst <= maxInt64 -> nonneg_fin rate ->
  Reachable rate burst rl ->
  within_bucket64 rl /\ IEEE.refillRate rl = rate /\
  IEEE.capacity rl = float64.of_int burst.
Proof.
  intros Hb Hr H. induction H as [now|rl now _ IH Hnow|rl rl1 fuel now now1 _ IH Hnow HW].
  - split; [|split; reflexivity]. apply New_within_bucket64. unfold maxInt64 in Hb. lia.
  - destruct IH as (Hin & Er & Ec).
    destruct (Allow_fields64 rl now) as (_ & Hc & Hr1).
    split; [|split; congruence].
    apply Allow_within_bucket64; auto. now rewrite Er.
  - destruct IH as (Hin & Er & Ec).
    destruct (Wait_within_bucket64 fuel rl rl1 now now1 Hin ltac:(now rewrite Er) Hnow HW)
      as (H1 & H2 & H3).
    split; [exact H1|]. split; congruence.
Qed.

(** C9, amended.  For a burst that is not negative and a refill rate that
    is finite and not negative, [0 <= tokens <= capacity] holds of every
    limiter state reached from construction through [Allow()] and [Wait()]
    calls on a clock that does not run back: [NewRateLimiter] establishes
    it with [tokens = capacity = float64(burst)], which is [burst] up to
    [2 ^ 53], and the calls preserve it. *)
Theorem C9_tokens_within_bucket (rate : float64.t) (burst : Z)
    (Hburst : 0 <= burst <= maxInt64) (Hrate : nonneg_fin rate) :
  (forall now : Time,
      IEEE.tokens (IEEE.NewRateLimiter rate burst now) = float64.of_int burst /\
      IEEE.capacity (IEEE.NewRateLimiter rate burst now) = float64.of_int burst /\
      (burst <= 2 ^ 53 -> (F2Q (float64.of_int burst) == inject_Z burst)%Q)) /\
  (forall rl : IEEE.RateLimiter,
      Reachable rate burst rl ->
      float64.leb (float64.of_int 0) (IEEE.tokens rl) = true /\
      float64.leb (IEEE.tokens rl) (IEEE.capacity rl) = true).
Proof.
  split.
  - intros now. split; [reflexivity|]. split; [reflexivity|].
    intros H. apply of_int_exact. lia.
  - intros rl H.
    destruct (Reachable_invariant rate burst rl Hburst Hrate H) as ((Ht & Hc & Htc) & _).
    unfold float64.leb. split.
    + apply SFleb_nonneg_fin; [exact I|exact Ht|]. now apply F2Q_nonneg.
    + now apply SFleb_nonneg_fin.
Qed.

(** C9, as the claim states it, fails.  With a refill rate of [+Inf] an
    [Allow()] at the instant of construction leaves a balance that is NaN,
    of which neither [0 <= tokens] nor [tokens <= capacity] holds; and a
    burst of [2 ^ 53 + 1] is stored as [2 ^ 53]. *)
Lemma C9_balance_becomes_NaN :
  let rl := snd (IEEE.Allow (IEEE.NewRateLimiter float64.infinity 20 0) 0) in
  Reachable float64.infinity 20 rl /\
  IEEE.tokens rl = float64.nan /\
  float64.leb (float64.of_int 0) (IEEE.tokens rl) = false /\
  float64.leb (IEEE.tokens rl) (IEEE.capacity rl) = false /\
  (F2Q (IEEE.tokens (IEEE.NewRateLimiter (float64.of_int 10) (2 ^ 53 + 1) 0))
   == inject_Z (2 ^ 53))%Q.
Proof.
  cbv zeta. split.
  - apply reach_Allow; [apply reach_New|]. cbn. unfold maxInt64. lia.
  - repeat split; vm_compute; reflexivity.
Qed.

(** ** [Wait] in [float64] *)

Lemma waitTime_rate (rl rl1 : IEEE.RateLimiter) :
  IEEE.refillRate rl1 = IEEE.refillRate rl -> IEEE.waitTime rl1 = IEEE.waitTime rl.
Proof. unfold IEEE.waitTime. now intros ->. Qed.

Lemma Wait_step (fuel : nat) (rl : IEEE.RateLimiter) (now : Time) :
  IEEE.Wait (S fuel) rl now =
  if fst (IEEE.Allow rl now) then Some (snd (IEEE.Allow rl now), now)
  else IEEE.Wait fuel (snd (IEEE.Allow rl now))
         (now + Z.max 0 (IEEE.waitTime (snd (IEEE.Allow rl now)))).
Proof. cbn [IEEE.Wait]. now destruct (IEEE.Allow rl now) as [[|] rl1]. Qed.


(** ** A balance that is NaN *)

Lemma add_nan (x : float64.t) : float64.add x float64.nan = float64.nan.
Proof. now destruct x as [s| | |s m e]; try destruct s. Qed.

Lemma nan_add (x : float64.t) : float64.add float64.nan x = float64.nan.
Proof. reflexivity. Qed.

Lemma min_nan (c : float64.t) : IEEE.min c float64.nan = float64.nan.
Proof.
  unfold IEEE.min, float64.ltb, SFltb.
  now destruct c as [s| | |s m e]; try destruct s.
Qed.

Lemma Allow_nan (rl : IEEE.RateLimiter) (now : Time) :
  IEEE.refilled rl now = float64.nan ->
  fst (IEEE.Allow rl now) = false /\
  IEEE.tokens (snd (IEEE.Allow rl now)) = float64.nan.
Proof. intros H. rewrite Allow_unfold, H. split; reflexivity. Qed.

Lemma refilled_of_nan (rl : IEEE.RateLimiter) (now : Time) :
  IEEE.tokens rl = float64.nan -> IEEE.refilled rl now = float64.nan.
Proof. intros H. unfold IEEE.refilled. now rewrite H, nan_add, min_nan. Qed.

Lemma Wait_nan (fuel : nat) :
  forall (rl : IEEE.RateLimiter) (now : Time),
    IEEE.refilled rl now = float64.nan -> IEEE.Wait fuel rl now = None.
Proof.
  induction fuel as [|fuel IH]; intros rl now H; [reflexivity|].
  rewrite Wait_step. destruct (Allow_nan rl now H) as (-> & Ht).
  apply IH. now apply refilled_of_nan.
Qed.

(** X25.  A balance that is NaN stays so: no [Allow()] admits a call from
    then on, whenever it is made, and [Wait()] does not return.  A limiter
    whose refill rate is [+Inf] comes to such a balance by an [Allow()]
    made with no time elapsed since the refill before, the inflow being
    [0 * Inf]: so when it is made at the instant of construction. *)
Theorem a_balance_that_is_NaN_admits_no_call :
  (forall (rl : IEEE.RateLimiter) (now : Time),
      IEEE.tokens rl = float64.nan ->
      fst (IEEE.Allow rl now) = false /\
      IEEE.tokens (snd (IEEE.Allow rl now)) = float64.nan /\
      forall fuel : nat, IEEE.Wait fuel rl now = None) /\
  (forall rl : IEEE.RateLimiter,
      IEEE.refillRate rl = float64.infinity ->
      fst (IEEE.Allow rl (IEEE.lastRefill rl)) = false /\
      IEEE.tokens (snd (IEEE.Allow rl (IEEE.lastRefill rl))) = float64.nan /\
      forall fuel : nat, IEEE.Wait fuel rl (IEEE.lastRefill rl) = None) /\
  (forall (burst : Z) (t0 : Time) (fuel : nat),
      IEEE.Wait fuel (IEEE.NewRateLimiter float64.infinity burst t0) t0 = None).
Proof.
  assert (Hinf : forall rl : IEEE.RateLimiter,
             IEEE.refillRate rl = float64.infinity ->
             IEEE.refilled rl (IEEE.lastRefill rl) = float64.nan).
  { intros rl Hr. unfold IEEE.refilled, Sub.
    rewrite Z.sub_diag, Seconds_0, Hr.
    change (float64.mul (S754_zero false) float64.infinity) with float64.nan.
    now rewrite add_nan, min_nan. }
  split; [|split].
  - intros rl now H. pose proof (refilled_of_nan rl now H) as Hr.
    destruct (Allow_nan rl now Hr) as (H1 & H2).
    repeat split; auto. intros fuel. now apply Wait_nan.
  - intros rl Hr. specialize (Hinf rl Hr).
    destruct (Allow_nan _ _ Hinf) as (H1 & H2).
    repeat split; auto. intros fuel. now apply Wait_nan.
  - intros burst t0 fuel.
    apply (Wait_nan fuel (IEEE.NewRateLimiter float64.infinity burst t0) t0).
    exact (Hinf (IEEE.NewRateLimiter float64.infinity burst t0) eq_refl).
Qed.

(** ** The theorems on the bucket at concrete inputs *)

(** An empty bucket of capacity 5 refilled at 10 tokens per second, called
    after 250ms: 2.5 tokens have flowed in, one is taken. *)
Lemma C1_witness :
  (within_bucket64 emptyBucket64 /\ nonneg_fin (IEEE.refillRate emptyBucket64) /\
   IEEE.lastRefill emptyBucket64 <= 250000000
   <= IEEE.lastRefill emptyBucket64 + maxInt64) /\
  fst (IEEE.Allow emptyBucket64 250000000) = true /\
  (F2Q (IEEE.tokens (snd (IEEE.Allow emptyBucket64 250000000))) == 3 # 2)%Q /\
  IEEE.lastRefill (snd (IEEE.Allow emptyBucket64 250000000)) = 250000000.
Proof.
  assert (H1 : within_bucket64 emptyBucket64).
  { unfold within_bucket64. repeat split. vm_compute. discriminate. }
  assert (H2 : nonneg_fin (IEEE.refillRate emptyBucket64)) by reflexivity.
  assert (H3 : IEEE.lastRefill emptyBucket64 <= 250000000
               <= IEEE.lastRefill emptyBucket64 + maxInt64)
    by (split; vm_compute; discriminate).
  split; [auto|].
  destruct (C1_Allow_refills_then_consumes emptyBucket64 250000000)
    as (Hlast & _ & _ & _ & _ & Hval).
  destruct (Hval H1 H2 H3) as (_ & _ & _ & Hadm & _).
  destruct Hadm as (Hok & _ & _ & Hexact).
  - vm_compute. discriminate.
  - split; [exact Hok|]. split; [|exact Hlast].
    eapply Qeq_trans; [apply Hexact|].
    + vm_compute. discriminate.
    + vm_compute. reflexivity.
Defined.

Lemma C7_witness :
  (1 <= 3 <= 2 ^ 53 /\ float64.finite (float64.of_int 10) = true /\
   (0 = 0 \/ (0 <= 0 <= 0 + maxInt64 /\ nonneg_fin (float64.of_int 10)))) /\
  fst (IEEE.allows (IEEE.NewRateLimiter (float64.of_int 10) 3 0) [0; 0; 0; 0])
  = [true; true; true; false].
Proof.
  assert (H1 : 1 <= 3 <= 2 ^ 53) by (split; vm_compute; discriminate).
  assert (H2 : float64.finite (float64.of_int 10) = true) by reflexivity.
  assert (H3 : 0 = 0 \/ (0 <= 0 <= 0 + maxInt64 /\ nonneg_fin (float64.of_int 10)))
    by now left.
  split; [auto|].
  exact (C7_full_bucket_admits_exactly_capacity (float64.of_int 10) 3 0 0 H1 H2 H3).
Defined.


Lemma C9_witness :
  (0 <= 20 <= maxInt64 /\ nonneg_fin (float64.of_int 10)) /\
  forall rl, Reachable (float64.of_int 10) 20 rl ->
    float64.leb (float64.of_int 0) (IEEE.tokens rl) = true /\
    float64.leb (IEEE.tokens rl) (IEEE.capacity rl) = true.
Proof.
  assert (H1 : 0 <= 20 <= maxInt64) by (split; vm_compute; discriminate).
  assert (H2 : nonneg_fin (float64.of_int 10)) by reflexivity.
  split; [auto|].
  exact (proj2 (C9_tokens_within_bucket (float64.of_int 10) 20 H1 H2)).
Defined.


(** * Further properties *)

(** ** Every run of the shared loop comes to an end *)

Section RetryCoreAlways.

Context {R : Type}.
Variable gate : nat -> M unit.
Variable backoff : Z -> Duration.
Variable exhausted : error.
Variable limit : Z.
Variable query : Query R.

Let core := retry_core gate backoff exhausted limit query.

Variable Inv : World -> Prop.

Hypothesis gate_returns :
  forall w, Inv w ->
    exists (f0 : nat) (w1 : World) (d : list Event),
      (forall fuel, (f0 <= fuel)%nat -> gate fuel w = Done tt w1) /\
      Inv w1 /\ calls w1 = calls w /\
      trace w1 = trace w ++ d /\ backoffs d = [] /\ queries d = [].

Hypothesis Inv_later :
  forall w w1, Inv w -> limiter w1 = limiter w -> clock w <= clock w1 -> Inv w1.

Lemma run_of_one_call (r : Z) (w w1 : World) (d : list Event) :
  Inv w1 -> calls w1 = calls w ->
  trace w1 = trace w ++ d -> backoffs d = [] -> queries d = [] ->
  run_of backoff Inv 0 r w (after_call w1).
Proof.
  intros HI1 Hc1 Ht1 Hb1 Hq1. split; [|split].
  - apply (Inv_later w1); [exact HI1 | reflexivity | simpl; lia].
  - simpl. lia.
  - exists d. rewrite Nat.add_0_r. split.
    + simpl. rewrite Ht1, Hc1, <- app_assoc. reflexivity.
    + rewrite steps_app, (steps_quiet d Hb1 Hq1). reflexivity.
Qed.

(** The loop stops at the first answer that is not a rate-limit error, or
    gives up once the retries are used up, whichever comes first. *)
Lemma core_stops (n : nat) :
  forall (r : Z) (w : World),
    Inv w ->
    Z.to_nat (limit - r) = n ->
    exists (k f0 : nat) (w1 : World),
      Z.of_nat k <= Z.max 0 (limit - r) /\
      (forall i, (i < k)%nat -> hasCode 429 (snd (query (calls w + i)%nat)) = true) /\
      run_of backoff Inv k r w w1 /\
      ((hasCode 429 (snd (query (calls w + k)%nat)) = false /\
        forall fuel, (f0 <= fuel)%nat ->
          core fuel r w = Done (final (query (calls w + k)%nat)) w1)
       \/
       (hasCode 429 (snd (query (calls w + k)%nat)) = true /\
        Z.of_nat k = Z.max 0 (limit - r) /\
        forall fuel, (f0 <= fuel)%nat ->
          core fuel r w = Done (None, Some exhausted) w1)).
Proof.
  induction n as [|n IH]; intros r w HI Hn;
    destruct (gate_returns w HI) as (f1 & w1 & d & Hadm & HI1 & Hc1 & Ht1 & Hb1 & Hq1);
    pose proof (run_of_one_call r w w1 d HI1 Hc1 Ht1 Hb1 Hq1) as Hone;
    destruct (hasCode 429 (snd (query (calls w1)))) eqn:H429.
  - (* no retry is left *)
    exists 0%nat, (S f1), (after_call w1). rewrite Nat.add_0_r, <- Hc1.
    splits; [lia | intros i Hi; lia | exact Hone |].
    right. splits; [exact H429 | lia |].
    intros [|fuel] Hf; [lia|].
    apply (core_exhausted gate backoff exhausted limit query fuel r w w1 tt);
      [apply Hadm; lia | exact H429 | lia].
  - exists 0%nat, (S f1), (after_call w1). rewrite Nat.add_0_r, <- Hc1.
    splits; [lia | intros i Hi; lia | exact Hone |].
    left. split; [exact H429|].
    intros [|fuel] Hf; [lia|].
    apply (core_final gate backoff exhausted limit query fuel r w w1 tt);
      [apply Hadm; lia | exact H429].
  - (* a retry *)
    set (w2 := after_backoff (after_call w1) (backoff (r + 1))).
    assert (Hc2 : forall i, (calls w2 + i)%nat = (calls w + S i)%nat).
    { intros i. unfold w2. simpl. lia. }
    destruct (IH (r + 1) w2) as (k & f2 & w3 & Hk & Hbefore & Hrun & Hend).
    + apply (Inv_later w1); [exact HI1 | reflexivity | simpl; lia].
    + lia.
    + exists (S k), (S (Nat.max f1 f2)), w3.
      assert (Hstep : forall fuel, (S (Nat.max f1 f2) <= fuel)%nat ->
                 core fuel r w = core (Nat.pred fuel) (r + 1) w2).
      { intros [|fuel] Hf; [lia|].
        apply (core_retry gate backoff exhausted limit query fuel r w w1 tt);
          [apply Hadm; lia | exact H429 | lia]. }
      splits.
      * lia.
      * intros [|i] Hi.
        -- rewrite Nat.add_0_r, <- Hc1. exact H429.
        -- rewrite <- Hc2. apply Hbefore. lia.
      * eapply run_of_retry; eauto.
      * rewrite <- !Hc2.
        destruct Hend as [(Hl & Hr)|(Hl & Hlim & Hr)]; [left|right]; splits; auto.
        -- intros fuel Hf. rewrite (Hstep fuel Hf). apply Hr. lia.
        -- lia.
        -- intros fuel Hf. rewrite (Hstep fuel Hf). apply Hr. lia.
  - exists 0%nat, (S f1), (after_call w1). rewrite Nat.add_0_r, <- Hc1.
    splits; [lia | intros i Hi; lia | exact Hone |].
    left. split; [exact H429|].
    intros [|fuel] Hf; [lia|].
    apply (core_final gate backoff exhausted limit query fuel r w w1 tt);
      [apply Hadm; lia | exact H429].
Qed.

End RetryCoreAlways.

(** ** The wrappers stop, whatever the remote answers *)

Section ApiStops.

Variable c : Api.Client.
Variable w : World.
Hypothesis Hok : limiter_ok w.

Let L := Api.RetryLimit (Api.Options c).

Lemma Api_getWithRetry_stops {R : Type} (query : Query R) :
  exists k : nat,
    stops_at (fun fuel => Api.getWithRetry fuel c query) w
      (fun n => snd (query n)) backoff20 (Z.max 0 L)
      (fun n => final (query n)) (None, Some (api_exhausted c)) k.
Proof.
  destruct (core_stops (fun fuel => Api.throttle fuel c) backoff20 (api_exhausted c)
              L query limiter_ok (throttle_returns c) limiter_ok_later
              (Z.to_nat (L - 0)) 0 w Hok eq_refl)
    as (k & f0 & w1 & Hk & Hbefore & Hof & Hend).
  destruct (run_of_events _ _ _ _ _ _ Hof) as (Hq & Hb & Hs & Hd).
  exists k. rewrite Z.sub_0_r in *. split; [exact Hk|]. split.
  - intros i Hi. now apply rate_limited_hasCode, Hbefore.
  - destruct Hend as [(Hl & Hr)|(Hl & Hlim & Hr)]; [left|right]; splits.
    + intros H. apply rate_limited_hasCode in H. congruence.
    + exists w1. splits; auto.
      exists f0. intros fuel Hf. unfold Api.getWithRetry.
      rewrite Api_getWithRetry_loop_core. now apply Hr.
    + now apply rate_limited_hasCode.
    + exact Hlim.
    + exists w1. splits; auto.
      exists f0. intros fuel Hf. unfold Api.getWithRetry.
      rewrite Api_getWithRetry_loop_core. now apply Hr.
Qed.

Lemma Api_executeWithRetry_stops (query : QueryErr) :
  exists k : nat,
    stops_at (fun fuel => Api.executeWithRetry fuel c query) w
      query backoff1 (Z.max 0 L) query (Some (api_exhausted c)) k.
Proof.
  destruct (core_stops (fun fuel => Api.throttle fuel c) backoff1 (api_exhausted c)
              L (lift_err query) limiter_ok (throttle_returns c) limiter_ok_later
              (Z.to_nat (L - 0)) 0 w Hok eq_refl)
    as (k & f0 & w1 & Hk & Hbefore & Hof & Hend).
  destruct (run_of_events _ _ _ _ _ _ Hof) as (Hq & Hb & Hs & Hd).
  exists k. rewrite Z.sub_0_r in *. split; [exact Hk|]. split.
  - intros i Hi. apply rate_limited_hasCode. exact (Hbefore i Hi).
  - destruct Hend as [(Hl & Hr)|(Hl & Hlim & Hr)]; [left|right]; splits.
    + intros H. apply rate_limited_hasCode in H.
      change (hasCode 429 (query (calls w + k)%nat) = false) in Hl. congruence.
    + exists w1. splits; auto.
      exists f0. intros fuel Hf. unfold Api.executeWithRetry.
      rewrite Api_executeWithRetry_loop_core. unfold api_core. fold L.
      rewrite (Hr fuel Hf). unfold final. cbn.
      destruct (query (calls w + k)%nat); reflexivity.
    + apply rate_limited_hasCode. exact Hl.
    + exact Hlim.
    + exists w1. splits; auto.
      exists f0. intros fuel Hf. unfold Api.executeWithRetry.
      rewrite Api_executeWithRetry_loop_core. unfold api_core. fold L.
      now rewrite (Hr fuel Hf).
Qed.

End ApiStops.

Section ApiGenericStops.

Variable retryLimit : Z.
Variable w : World.

Lemma ApiGeneric_getResponseWithRetry_stops {R : Type} (query : Query R) :
  exists k : nat,
    stops_at (fun fuel => ApiGeneric.getResponseWithRetry fuel query retryLimit) w
      (fun n => snd (query n)) backoff20 (Z.max 0 retryLimit)
      (fun n => final (query n)) (None, Some (generic_exhausted retryLimit)) k.
Proof.
  destruct (core_stops no_admit backoff20 (generic_exhausted retryLimit)
              retryLimit query (fun _ => True) no_admit_returns
              (fun _ _ _ _ _ => I)
              (Z.to_nat (retryLimit - 0)) 0 w I eq_refl)
    as (k & f0 & w1 & Hk & Hbefore & Hof & Hend).
  destruct (run_of_events _ _ _ _ _ _ Hof) as (Hq & Hb & Hs & Hd).
  exists k. rewrite Z.sub_0_r in *. split; [exact Hk|]. split.
  - intros i Hi. now apply rate_limited_hasCode, Hbefore.
  - destruct Hend as [(Hl & Hr)|(Hl & Hlim & Hr)]; [left|right]; splits.
    + intros H. apply rate_limited_hasCode in H. congruence.
    + exists w1. splits; auto.
      exists f0. intros fuel Hf. unfold ApiGeneric.getResponseWithRetry.
      rewrite ApiGeneric_getResponseWithRetry_loop_core. now apply Hr.
    + now apply rate_limited_hasCode.
    + exact Hlim.
    + exists w1. splits; auto.
      exists f0. intros fuel Hf. unfold ApiGeneric.getResponseWithRetry.
      rewrite ApiGeneric_getResponseWithRetry_loop_core. now apply Hr.
Qed.

Lemma ApiGeneric_executeWithRetry_stops (query : QueryErr) :
  exists k : nat,
    stops_at (fun fuel => ApiGeneric.executeWithRetry fuel query retryLimit) w
      query backoff1 (Z.max 0 retryLimit) query
      (Some (exhausted_msg "rate limit exceeded after " retryLimit)) k.
Proof.
  destruct (core_stops no_admit backoff1
              (exhausted_msg "rate limit exceeded after " retryLimit)
              retryLimit (lift_err query) (fun _ => True) no_admit_returns
              (fun _ _ _ _ _ => I)
              (Z.to_nat (retryLimit - 0)) 0 w I eq_refl)
    as (k & f0 & w1 & Hk & Hbefore & Hof & Hend).
  destruct (run_of_events _ _ _ _ _ _ Hof) as (Hq & Hb & Hs & Hd).
  exists k. rewrite Z.sub_0_r in *. split; [exact Hk|]. split.
  - intros i Hi. apply rate_limited_hasCode. exact (Hbefore i Hi).
  - destruct Hend as [(Hl & Hr)|(Hl & Hlim & Hr)]; [left|right]; splits.
    + intros H. apply rate_limited_hasCode in H.
      change (hasCode 429 (query (calls w + k)%nat) = false) in Hl. congruence.
    + exists w1. splits; auto.
      exists f0. intros fuel Hf. unfold ApiGeneric.executeWithRetry.
      rewrite ApiGeneric_executeWithRetry_loop_core. unfold generic_core.
      rewrite (Hr fuel Hf). unfold final. cbn.
      destruct (query (calls w + k)%nat); reflexivity.
    + apply rate_limited_hasCode. exact Hl.
    + exact Hlim.
    + exists w1. splits; auto.
      exists f0. intros fuel Hf. unfold ApiGeneric.executeWithRetry.
      rewrite ApiGeneric_executeWithRetry_loop_core. unfold generic_core.
      now rewrite (Hr fuel Hf).
Qed.

End ApiGenericStops.


(** X5. The wrappers of [client.go] return whatever the remote answers and in
    whatever world: at the first answer that is not a 429 error, or after
    [max(0, retryLimit)] retries. *)
Theorem ApiGeneric_wrappers_stop_at_first_other_answer_or_give_up
    (retryLimit : Z) (w : World) :
  let most := Z.max 0 retryLimit in
  (forall query : QueryErr,
      exists k : nat,
        stops_at (fun fuel => ApiGeneric.executeWithRetry fuel query retryLimit) w
          query backoff1 most query
          (Some (exhausted_msg "rate limit exceeded after " retryLimit)) k) /\
  (forall (R : Type) (query : Query R),
      exists k : nat,
        stops_at (fun fuel => ApiGeneric.getResponseWithRetry fuel query retryLimit) w
          (fun n => snd (query n)) backoff20 most
          (fun n => final (query n)) (None, Some (generic_exhausted retryLimit)) k).
Proof.
  split.
  - intros query. exact (ApiGeneric_executeWithRetry_stops retryLimit w query).
  - intros R query. exact (ApiGeneric_getResponseWithRetry_stops retryLimit w query).
Qed.

(** ** C6: the pause before each retry *)

Lemma stops_at_reaches {A : Type} (run : nat -> M A) (w : World)
    (answer : nat -> option error) (backoff : Z -> Duration) (most : Z)
    (last : nat -> A) (gave_up : A) (k n : nat) :
  stops_at run w answer backoff most last gave_up k ->
  Z.of_nat n <= most ->
  (forall i, (i < n)%nat -> rate_limited (answer (calls w + i)%nat)) ->
  (n <= k)%nat /\
  exists a : A, returns_after run w a (k + 1) (map backoff (Zseq 1 k)).
Proof.
  intros (Hk & _ & [(Hl & Hr)|(_ & Hlim & Hr)]) Hn H429.
  - split; [|eauto].
    destruct (Nat.le_gt_cases n k) as [H|H]; [exact H|].
    exfalso. apply Hl, H429, H.
  - split; [lia|eauto].
Qed.

Lemma nth_backoff (b : Z -> Duration) (k n : nat) :
  (1 <= n <= k)%nat ->
  nth_error (map b (Zseq 1 k)) (n - 1) = Some (b (Z.of_nat n)).
Proof.
  intros H. rewrite nth_error_map, Zseq_nth by lia.
  cbn [option_map]. do 2 f_equal. lia.
Qed.


(** ** What any run leaves behind, and what it can return *)

Section RetryCoreBounds.

Context {R : Type}.
Variable gate : nat -> M unit.
Variable backoff : Z -> Duration.
Variable exhausted : error.
Variable limit : Z.
Variable query : Query R.

Let core := retry_core gate backoff exhausted limit query.

Lemma core_within_limit
    (gate_silent : forall fuel w, exists d,
        trace (world_of (gate fuel w)) = trace w ++ d /\
        backoffs d = [] /\ queries d = []) :
  forall (fuel : nat) (r : Z) (w : World),
    exists d : list Event,
      trace (world_of (core fuel r w)) = trace w ++ d /\
      within_limit (limit - r) d.
Proof.
  unfold within_limit.
  induction fuel as [|fuel IH]; intros r w.
  - exists []. simpl. split; [now rewrite app_nil_r | lia].
  - destruct (gate_silent fuel w) as (d & Htr & Hb & Hq).
    destruct (gate fuel w) as [u w1|w1|w1] eqn:Hg; simpl in Htr.
    + destruct (hasCode 429 (snd (query (calls w1)))) eqn:H429.
      * destruct (Z.lt_ge_cases r limit) as [Hlt|Hge].
        -- unfold core. rewrite (core_retry gate backoff exhausted limit query
                                   fuel r w w1 u Hg H429 Hlt).
           destruct (IH (r + 1) (after_backoff (after_call w1) (backoff (r + 1))))
             as (d1 & Htr1 & Hq1 & Hb1).
           exists (d ++ [EvQuery (calls w1)] ++ [EvPrintf (backoff (r + 1))]
                     ++ [EvBackoff (backoff (r + 1))] ++ d1).
           split.
           ++ unfold core in Htr1. rewrite Htr1. simpl. rewrite Htr.
              rewrite <- !app_assoc. reflexivity.
           ++ rewrite !queries_app, !backoffs_app, Hb, Hq. simpl. lia.
        -- unfold core. rewrite (core_exhausted gate backoff exhausted limit query
                                   fuel r w w1 u Hg H429 Hge).
           exists (d ++ [EvQuery (calls w1)]). simpl. split.
           ++ rewrite Htr, <- app_assoc. reflexivity.
           ++ rewrite queries_app, backoffs_app, Hb, Hq. simpl. lia.
      * unfold core. rewrite (core_final gate backoff exhausted limit query
                                fuel r w w1 u Hg H429).
        exists (d ++ [EvQuery (calls w1)]). simpl. split.
        -- rewrite Htr, <- app_assoc. reflexivity.
        -- rewrite queries_app, backoffs_app, Hb, Hq. simpl. lia.
    + unfold core. rewrite (core_blocked gate backoff exhausted limit query
                              fuel r w w1 Hg).
      exists d. simpl. rewrite Hb, Hq. simpl. split; [exact Htr | lia].
    + unfold core. rewrite (core_panicked gate backoff exhausted limit query
                              fuel r w w1 Hg).
      exists d. simpl. rewrite Hb, Hq. simpl. split; [exact Htr | lia].
Qed.

(** What the loop returns is the error of giving up, or what an answer of
    the remote that is no rate-limit error comes to. *)
Lemma core_result :
  forall (fuel : nat) (r : Z) (w w1 : World) (a : option R * option error),
    core fuel r w = Done a w1 ->
    a = (None, Some exhausted) \/
    exists n : nat, a = final (query n) /\ hasCode 429 (snd (query n)) = false.
Proof.
  induction fuel as [|fuel IH]; intros r w w1 a Hrun; [discriminate|].
  destruct (gate fuel w) as [u w2|w2|w2] eqn:Hg.
  - destruct (hasCode 429 (snd (query (calls w2)))) eqn:H429.
    + destruct (Z.lt_ge_cases r limit) as [Hlt|Hge].
      * unfold core in Hrun.
        rewrite (core_retry gate backoff exhausted limit query
                   fuel r w w2 u Hg H429 Hlt) in Hrun.
        exact (IH _ _ _ _ Hrun).
      * unfold core in Hrun.
        rewrite (core_exhausted gate backoff exhausted limit query
                   fuel r w w2 u Hg H429 Hge) in Hrun.
        left. congruence.
    + unfold core in Hrun.
      rewrite (core_final gate backoff exhausted limit query
                 fuel r w w2 u Hg H429) in Hrun.
      right. exists (calls w2). split; [congruence | exact H429].
  - unfold core in Hrun.
    rewrite (core_blocked gate backoff exhausted limit query fuel r w w2 Hg) in Hrun.
    discriminate.
  - unfold core in Hrun.
    rewrite (core_panicked gate backoff exhausted limit query fuel r w w2 Hg) in Hrun.
    discriminate.
Qed.

End RetryCoreBounds.

Lemma no_admit_silent (fuel : nat) (w : World) :
  exists d : list Event,
    trace (world_of (no_admit fuel w)) = trace w ++ d /\
    backoffs d = [] /\ queries d = [].
Proof. exists []. simpl. now rewrite app_nil_r. Qed.

(** X6. No run of a retry wrapper, finished or not and whatever the remote
    answers and the limiter holds, makes more than [max(0, retryLimit) + 1]
    remote calls or sleeps in backoff more than [max(0, retryLimit)]
    times. *)
Theorem wrappers_never_exceed_the_retry_limit (c : Api.Client) (retryLimit : Z)
    (w : World) (fuel : nat) :
  (forall query : QueryErr,
      within_limit (Api.RetryLimit (Api.Options c))
        (new_events w (world_of (Api.executeWithRetry fuel c query w))) /\
      within_limit retryLimit
        (new_events w (world_of (ApiGeneric.executeWithRetry fuel query retryLimit w)))) /\
  (forall (R : Type) (query : Query R),
      within_limit (Api.RetryLimit (Api.Options c))
        (new_events w (world_of (Api.getWithRetry fuel c query w))) /\
      within_limit retryLimit
        (new_events w (world_of (ApiGeneric.getResponseWithRetry fuel query retryLimit w)))).
Proof.
  split.
  - intros query. split.
    + unfold Api.executeWithRetry.
      rewrite Api_executeWithRetry_loop_core, world_of_map_res.
      destruct (core_within_limit (fun fuel => Api.throttle fuel c) backoff1
                  (api_exhausted c) (Api.RetryLimit (Api.Options c)) (lift_err query)
                  (fun fuel w => throttle_trace fuel c w) fuel 0 w)
        as (d & Htr & Hd).
      unfold api_core. rewrite (new_events_app _ _ _ Htr).
      now rewrite Z.sub_0_r in Hd.
    + unfold ApiGeneric.executeWithRetry.
      rewrite ApiGeneric_executeWithRetry_loop_core, world_of_map_res.
      destruct (core_within_limit no_admit backoff1
                  (exhausted_msg "rate limit exceeded after " retryLimit)
                  retryLimit (lift_err query) no_admit_silent fuel 0 w)
        as (d & Htr & Hd).
      unfold generic_core. rewrite (new_events_app _ _ _ Htr).
      now rewrite Z.sub_0_r in Hd.
  - intros R query. split.
    + unfold Api.getWithRetry. rewrite Api_getWithRetry_loop_core.
      destruct (core_within_limit (fun fuel => Api.throttle fuel c) backoff20
                  (api_exhausted c) (Api.RetryLimit (Api.Options c)) query
                  (fun fuel w => throttle_trace fuel c w) fuel 0 w)
        as (d & Htr & Hd).
      unfold api_core. rewrite (new_events_app _ _ _ Htr).
      now rewrite Z.sub_0_r in Hd.
    + unfold ApiGeneric.getResponseWithRetry.
      rewrite ApiGeneric_getResponseWithRetry_loop_core.
      destruct (core_within_limit no_admit backoff20
                  (exhausted_msg "Rate limit exceeded after " retryLimit)
                  retryLimit query no_admit_silent fuel 0 w)
        as (d & Htr & Hd).
      unfold generic_core. rewrite (new_events_app _ _ _ Htr).
      now rewrite Z.sub_0_r in Hd.
Qed.

Lemma Api_executeWithRetry_result (c : Api.Client) (query : QueryErr)
    (fuel : nat) (w w1 : World) (r : option error) :
  Api.executeWithRetry fuel c query w = Done r w1 ->
  r = Some (api_exhausted c) \/
  exists n : nat, r = query n /\ ~ rate_limited (query n).
Proof.
  unfold Api.executeWithRetry. rewrite Api_executeWithRetry_loop_core.
  unfold api_core.
  destruct (retry_core _ _ _ _ _ fuel 0 w) as [a w2|w2|w2] eqn:E;
    simpl; try discriminate.
  intros H. inversion H; subst.
  destruct (core_result _ _ _ _ _ _ _ _ _ _ E) as [->|(n & -> & H429)].
  - now left.
  - right. exists n. unfold final, lift_err in *. cbn in *. split.
    + destruct (query n); reflexivity.
    + intros Hrl. apply rate_limited_hasCode in Hrl. congruence.
Qed.

Lemma Api_getWithRetry_result {R : Type} (c : Api.Client) (query : Query R)
    (fuel : nat) (w w1 : World) (a : option R * option error) :
  Api.getWithRetry fuel c query w = Done a w1 ->
  a = (None, Some (api_exhausted c)) \/
  exists n : nat, a = final (query n) /\ ~ rate_limited (snd (query n)).
Proof.
  unfold Api.getWithRetry. rewrite Api_getWithRetry_loop_core.
  unfold api_core. intros E.
  destruct (core_result _ _ _ _ _ _ _ _ _ _ E) as [->|(n & -> & H429)].
  - now left.
  - right. exists n. split; [reflexivity|].
    intros Hrl. apply rate_limited_hasCode in Hrl. congruence.
Qed.

(** X7. A wrapper that returns hands on one answer of the remote, one that is
    no 429 error, as it is (an error without the payload), or else the
    error of having used up the retries; it makes up no other. *)
Theorem wrappers_return_an_answer_of_the_remote_or_give_up (c : Api.Client)
    (retryLimit : Z) (fuel : nat) (w w1 : World) :
  (forall (query : QueryErr) (r : option error),
      (Api.executeWithRetry fuel c query w = Done r w1 ->
       r = Some (api_exhausted c) \/
       exists n : nat, r = query n /\ ~ rate_limited (query n)) /\
      (ApiGeneric.executeWithRetry fuel query retryLimit w = Done r w1 ->
       r = Some (exhausted_msg "rate limit exceeded after " retryLimit) \/
       exists n : nat, r = query n /\ ~ rate_limited (query n))) /\
  (forall (R : Type) (query : Query R) (a : option R * option error),
      (Api.getWithRetry fuel c query w = Done a w1 ->
       a = (None, Some (api_exhausted c)) \/
       exists n : nat, a = final (query n) /\ ~ rate_limited (snd (query n))) /\
      (ApiGeneric.getResponseWithRetry fuel query retryLimit w = Done a w1 ->
       a = (None, Some (generic_exhausted retryLimit)) \/
       exists n : nat, a = final (query n) /\ ~ rate_limited (snd (query n)))).
Proof.
  split.
  - intros query r. split.
    + apply Api_executeWithRetry_result.
    + unfold ApiGeneric.executeWithRetry.
      rewrite ApiGeneric_executeWithRetry_loop_core. unfold generic_core.
      destruct (retry_core _ _ _ _ _ fuel 0 w) as [a w2|w2|w2] eqn:E;
        simpl; try discriminate.
      intros H. inversion H; subst.
      destruct (core_result _ _ _ _ _ _ _ _ _ _ E) as [->|(n & -> & H429)].
      * now left.
      * right. exists n. unfold final, lift_err in *. cbn in *. split.
        -- destruct (query n); reflexivity.
        -- intros Hrl. apply rate_limited_hasCode in Hrl. congruence.
  - intros R query a. split.
    + apply Api_getWithRetry_result.
    + unfold ApiGeneric.getResponseWithRetry.
      rewrite ApiGeneric_getResponseWithRetry_loop_core. unfold generic_core.
      intros E.
      destruct (core_result _ _ _ _ _ _ _ _ _ _ E) as [->|(n & -> & H429)].
      * now left.
      * right. exists n. split; [reflexivity|].
        intros Hrl. apply rate_limited_hasCode in Hrl. congruence.
Qed.

(** X8. A delete returns [ErrNotExist] only if the remote answered with that
    very value: the delete operations translate no answer into the
    sentinel, a 404 included. *)
Theorem deletes_do_not_make_ErrNotExist (c : Api.Client) (fuel : nat) (w w1 : World)
    (workspaceId id : string) :
  (Api.DeleteWorkspace fuel c id w = Done (Some ErrNotExist) w1 ->
   exists n, Api.Workspaces_Delete (Api.Service_ c)
               (Api.containerPath c ++ "/workspaces/" ++ id)%string n
             = Some ErrNotExist) /\
  (Api.DeleteTag fuel c workspaceId id w = Done (Some ErrNotExist) w1 ->
   exists n, Api.Tags_Delete (Api.Service_ c)
               (Api.workspacePath c workspaceId ++ "/tags/" ++ id)%string n
             = Some ErrNotExist) /\
  (Api.DeleteVariable fuel c workspaceId id w = Done (Some ErrNotExist) w1 ->
   exists n, Api.Variables_Delete (Api.Service_ c)
               (Api.workspacePath c workspaceId ++ "/variables/" ++ id)%string n
             = Some ErrNotExist) /\
  (Api.DeleteTrigger fuel c workspaceId id w = Done (Some ErrNotExist) w1 ->
   exists n, Api.Triggers_Delete (Api.Service_ c)
               (Api.workspacePath c workspaceId ++ "/triggers/" ++ id)%string n
             = Some ErrNotExist).
Proof.
  splits; intros H; apply Api_executeWithRetry_result in H;
    (destruct H as [H|(n & H & _)]; [discriminate | exists n; now rewrite <- H]).
Qed.

(** ** The time spent in backoff before giving up *)

Lemma total_backoffs (unit : Z) (b : Z -> Duration) (top : Z) :
  (forall n, 1 <= n <= top -> b n = unit * n) ->
  forall (k : nat) (a : Z),
    1 <= a -> a + Z.of_nat k - 1 <= top ->
    2 * total (map b (Zseq a k)) = unit * (Z.of_nat k * (2 * a + Z.of_nat k - 1)).
Proof.
  intros Hb. induction k as [|k IH]; intros a Ha Htop.
  - simpl. lia.
  - rewrite Zseq_S. cbn [map total fold_right].
    fold (total (map b (Zseq (a + 1) k))).
    rewrite Z.mul_add_distr_l, (IH (a + 1)) by lia.
    rewrite (Hb a) by lia. lia.
Qed.

Lemma backoff20_linear (n : Z) : 1 <= n <= 461168601 -> backoff20 n = 20 * Second * n.
Proof.
  intros H. unfold backoff20. apply wrap64_small. unfold Second, maxInt64. lia.
Qed.

Lemma backoff1_linear (n : Z) : 1 <= n <= 9223372036 -> backoff1 n = Second * n.
Proof.
  intros H. unfold backoff1. rewrite Z.mul_comm.
  apply wrap64_small. unfold Second, maxInt64. lia.
Qed.


(** ** The client without a limiter *)

Section Unthrottled.

Context {R : Type}.
Variable c : Api.Client.
Variable backoff : Z -> Duration.
Variable limit : Z.
Variable query : Query R.

Lemma throttle_without_limiter (fuel : nat) (w : World) :
  limiter w = None -> Api.throttle fuel c w = Done tt w.
Proof. intros Hl. unfold Api.throttle. now rewrite Hl. Qed.

(** Without a limiter the gate of the throttled client does nothing. *)
Lemma core_unthrottled (exhausted : error) :
  forall (fuel : nat) (r : Z) (w : World),
    limiter w = None ->
    retry_core (fun fuel => Api.throttle fuel c) backoff exhausted limit query fuel r w
    = retry_core no_admit backoff exhausted limit query fuel r w.
Proof.
  induction fuel as [|fuel IH]; intros r w Hl; [reflexivity|].
  pose proof (throttle_without_limiter fuel w Hl) as Hg.
  assert (Hn : no_admit fuel w = Done tt w) by reflexivity.
  destruct (hasCode 429 (snd (query (calls w)))) eqn:H429.
  - destruct (Z.lt_ge_cases r limit) as [Hlt|Hge].
    + rewrite (core_retry _ backoff exhausted limit query fuel r w w tt Hg H429 Hlt).
      rewrite (core_retry _ backoff exhausted limit query fuel r w w tt Hn H429 Hlt).
      apply IH. exact Hl.
    + rewrite (core_exhausted _ backoff exhausted limit query fuel r w w tt Hg H429 Hge).
      now rewrite (core_exhausted _ backoff exhausted limit query fuel r w w tt Hn H429 Hge).
  - rewrite (core_final _ backoff exhausted limit query fuel r w w tt Hg H429).
    now rewrite (core_final _ backoff exhausted limit query fuel r w w tt Hn H429).
Qed.

(** The error of giving up is the one thing in which two loops that differ
    in it only can differ. *)
Lemma core_same_but_exhausted (gate : nat -> M unit) (e1 e2 : error) :
  forall (fuel : nat) (r : Z) (w : World),
    same_run (fun a b => a = b \/ (a = (None, Some e1) /\ b = (None, Some e2)))
      (retry_core gate backoff e1 limit query fuel r w)
      (retry_core gate backoff e2 limit query fuel r w).
Proof.
  induction fuel as [|fuel IH]; intros r w; [reflexivity|].
  destruct (gate fuel w) as [u w1|w1|w1] eqn:Hg.
  - destruct (hasCode 429 (snd (query (calls w1)))) eqn:H429.
    + destruct (Z.lt_ge_cases r limit) as [Hlt|Hge].
      * rewrite (core_retry gate backoff e1 limit query fuel r w w1 u Hg H429 Hlt).
        rewrite (core_retry gate backoff e2 limit query fuel r w w1 u Hg H429 Hlt).
        apply IH.
      * rewrite (core_exhausted gate backoff e1 limit query fuel r w w1 u Hg H429 Hge).
        rewrite (core_exhausted gate backoff e2 limit query fuel r w w1 u Hg H429 Hge).
        simpl. auto.
    + rewrite (core_final gate backoff e1 limit query fuel r w w1 u Hg H429).
      rewrite (core_final gate backoff e2 limit query fuel r w w1 u Hg H429).
      simpl. auto.
  - rewrite (core_blocked gate backoff e1 limit query fuel r w w1 Hg).
    now rewrite (core_blocked gate backoff e2 limit query fuel r w w1 Hg).
  - rewrite (core_panicked gate backoff e1 limit query fuel r w w1 Hg).
    now rewrite (core_panicked gate backoff e2 limit query fuel r w w1 Hg).
Qed.

(** A loop with no gate polls no limiter and leaves the limiter alone. *)
Lemma core_never_polls (exhausted : error) :
  forall (fuel : nat) (r : Z) (w : World),
    exists d : list Event,
      trace (world_of (retry_core no_admit backoff exhausted limit query fuel r w))
      = trace w ++ d /\
      polls d = [] /\
      limiter (world_of (retry_core no_admit backoff exhausted limit query fuel r w))
      = limiter w.
Proof.
  induction fuel as [|fuel IH]; intros r w.
  - exists []. simpl. now rewrite app_nil_r.
  - assert (Hn : no_admit fuel w = Done tt w) by reflexivity.
    destruct (hasCode 429 (snd (query (calls w)))) eqn:H429.
    + destruct (Z.lt_ge_cases r limit) as [Hlt|Hge].
      * rewrite (core_retry _ backoff exhausted limit query fuel r w w tt Hn H429 Hlt).
        destruct (IH (r + 1) (after_backoff (after_call w) (backoff (r + 1))))
          as (d & Htr & Hp & Hl).
        exists ([EvQuery (calls w)] ++ [EvPrintf (backoff (r + 1))]
                  ++ [EvBackoff (backoff (r + 1))] ++ d).
        splits.
        -- rewrite Htr. simpl. rewrite <- !app_assoc. reflexivity.
        -- simpl. exact Hp.
        -- rewrite Hl. reflexivity.
      * rewrite (core_exhausted _ backoff exhausted limit query fuel r w w tt Hn H429 Hge).
        exists [EvQuery (calls w)]. splits; reflexivity.
    + rewrite (core_final _ backoff exhausted limit query fuel r w w tt Hn H429).
      exists [EvQuery (calls w)]. splits; reflexivity.
Qed.

End Unthrottled.

(** X10. With no limiter in the client ([c.rateLimiter] is [nil]), the retry
    wrappers of the throttled client run as those of [client.go] do: the
    same remote calls, backoffs and result, in the same world.  The one
    difference is the spelling of the error with which the wrappers with a
    payload give up ("rate limit ..." for "Rate limit ..."). *)
Theorem without_limiter_the_wrappers_run_as_in_client_go (c : Api.Client) (w : World)
    (fuel : nat)
    (Hnil : limiter w = None) :
  let retryLimit := Api.RetryLimit (Api.Options c) in
  (forall query : QueryErr,
      Api.executeWithRetry fuel c query w
      = ApiGeneric.executeWithRetry fuel query retryLimit w) /\
  (forall (R : Type) (query : Query R),
      same_run
        (fun a b => a = b \/
                    (a = (None, Some (api_exhausted c)) /\
                     b = (None, Some (generic_exhausted retryLimit))))
        (Api.getWithRetry fuel c query w)
        (ApiGeneric.getResponseWithRetry fuel query retryLimit w)).
Proof.
  intros retryLimit. split.
  - intros query. unfold Api.executeWithRetry, ApiGeneric.executeWithRetry.
    rewrite Api_executeWithRetry_loop_core, ApiGeneric_executeWithRetry_loop_core.
    unfold api_core, generic_core.
    now rewrite (core_unthrottled c backoff1 _ (lift_err query) _ fuel 0 w Hnil).
  - intros R query. unfold Api.getWithRetry, ApiGeneric.getResponseWithRetry.
    rewrite Api_getWithRetry_loop_core, ApiGeneric_getResponseWithRetry_loop_core.
    unfold api_core, generic_core.
    rewrite (core_unthrottled c backoff20 _ query _ fuel 0 w Hnil).
    apply core_same_but_exhausted.
Qed.

(** X11. With throttling disabled [NewClient] makes no limiter, and a client
    without one never polls or sleeps for admission: no run of a wrapper,
    finished or not, holds an [Allow()] or a sleep of [Wait], and it leaves
    the client without a limiter, so this is so for every call after it. *)
Theorem disabled_throttling_never_waits_for_admission
    (newService : string -> Api.Service + error) (opts : Api.ClientOptions)
    (c : Api.Client) (w0 w : World)
    (Hoff : Api.ThrottleEnabled opts = false)
    (Hnew : Api.NewClient newService opts w0 = Done (Some c, None) w) :
  limiter w = None /\
  forall (w' : World) (fuel : nat),
    limiter w' = None ->
    (forall query : QueryErr,
        let w1 := world_of (Api.executeWithRetry fuel c query w') in
        polls (new_events w' w1) = [] /\ limiter w1 = None) /\
    (forall (R : Type) (query : Query R),
        let w1 := world_of (Api.getWithRetry fuel c query w') in
        polls (new_events w' w1) = [] /\ limiter w1 = None).
Proof.
  split.
  - unfold Api.NewClient in Hnew.
    destruct (newService (Api.CredentialFile opts)); [|discriminate].
    rewrite Hoff in Hnew. inversion Hnew. reflexivity.
  - intros w' fuel Hnil. split.
    + intros query w1. subst w1. unfold Api.executeWithRetry.
      rewrite Api_executeWithRetry_loop_core, world_of_map_res. unfold api_core.
      rewrite (core_unthrottled c backoff1 _ (lift_err query) _ fuel 0 w' Hnil).
      destruct (core_never_polls backoff1 (Api.RetryLimit (Api.Options c))
                  (lift_err query) (api_exhausted c) fuel 0 w')
        as (d & Htr & Hp & Hl).
      rewrite (new_events_app _ _ _ Htr). split; [exact Hp | congruence].
    + intros R query w1. subst w1. unfold Api.getWithRetry.
      rewrite Api_getWithRetry_loop_core. unfold api_core.
      rewrite (core_unthrottled c backoff20 _ query _ fuel 0 w' Hnil).
      destruct (core_never_polls backoff20 (Api.RetryLimit (Api.Options c))
                  query (api_exhausted c) fuel 0 w')
        as (d & Htr & Hp & Hl).
      rewrite (new_events_app _ _ _ Htr). split; [exact Hp | congruence].
Qed.

(** ** Clients made from the environment *)

Lemma NewClient_options (newService : string -> Api.Service + error)
    (opts : Api.ClientOptions) (c : Api.Client) (w0 w : World) :
  Api.NewClient newService opts w0 = Done (Some c, None) w ->
  Api.Options c = opts.
Proof.
  unfold Api.NewClient.
  destruct (newService (Api.CredentialFile opts)); [|discriminate].
  intros H. inversion H. reflexivity.
Qed.


(** ** The operations when the remote answers with a payload *)

Section ApiSuccess.

Variable c : Api.Client.
Variable w : World.
Variable k : nat.
Hypothesis Hk : Z.of_nat k <= Api.RetryLimit (Api.Options c).
Hypothesis Hok : limiter_ok w.

(** The remote answers the request with [k] rate-limit errors and then with
    the payload [x] and no error. *)
Lemma Api_getWithRetry_succeeds {R : Type} (query : Query R) (x : R) :
  (forall i, (i < k)%nat -> rate_limited (snd (query (calls w + i)%nat))) ->
  query (calls w + k)%nat = (Some x, None) ->
  returns_after (fun fuel => Api.getWithRetry fuel c query) w
    (Some x, None) (k + 1) (map backoff20 (Zseq 1 k)).
Proof.
  intros H429 Hlast.
  assert (Hf : final (query (calls w + k)%nat) = (Some x, None)).
  { unfold final. now rewrite Hlast. }
  rewrite <- Hf. apply Api_getWithRetry_settles; auto.
  rewrite Hlast. apply not_rate_limited_nil.
Qed.

Lemma read_by_id_delivered {R : Type} (query : Query R) (x : R) :
  delivers query w k x ->
  returns_after
    (fun fuel =>
       r <- Api.getWithRetry fuel c query ;;
       let (y, err) := r in
       if hasCode 404 err then ret (None, Some ErrNotExist) else ret (y, err))
    w (Some x, None) (k + 1) (map backoff20 (Zseq 1 k)).
Proof.
  intros [H429 Hlast].
  apply (returns_after_then (fun fuel => Api.getWithRetry fuel c query) _ w
           (Some x, None)).
  - now apply Api_getWithRetry_succeeds.
  - intros w1. reflexivity.
Qed.

Lemma list_delivered {R A : Type} (query : Query R) (items : R -> list A) (x : R) :
  delivers query w k x ->
  returns_after
    (fun fuel =>
       r <- Api.getWithRetry fuel c query ;;
       match r with
       | (_, Some err) => ret (None, Some err)
       | (Some resp, None) => ret (Some (items resp), None)
       | (None, None) => panic
       end)
    w (Some (items x), None) (k + 1) (map backoff20 (Zseq 1 k)).
Proof.
  intros [H429 Hlast].
  apply (returns_after_then (fun fuel => Api.getWithRetry fuel c query) _ w
           (Some x, None)).
  - now apply Api_getWithRetry_succeeds.
  - intros w1. reflexivity.
Qed.

End ApiSuccess.


(** ** The operations of [client.go] *)

Section ApiGenericOperations.

Variable retryLimit : Z.
Variable w : World.
Variable k : nat.
Hypothesis Hk : Z.of_nat k <= retryLimit.

Lemma ApiGeneric_getResponseWithRetry_answers {R : Type} (query : Query R) (e : error) :
  answers query w k e ->
  ~ rate_limited (Some e) ->
  returns_after (fun fuel => ApiGeneric.getResponseWithRetry fuel query retryLimit) w
    (None, Some e) (k + 1) (map backoff20 (Zseq 1 k)).
Proof.
  intros [H429 Hlast] Hne.
  assert (Hf : final (query (calls w + k)%nat) = (None, Some e)).
  { unfold final. now rewrite Hlast. }
  rewrite <- Hf. apply ApiGeneric_getResponseWithRetry_settles; auto.
  now rewrite Hlast.
Qed.

Lemma ApiGeneric_executeWithRetry_answers (query : QueryErr) (e : error) :
  answersErr query w k e ->
  ~ rate_limited (Some e) ->
  returns_after (fun fuel => ApiGeneric.executeWithRetry fuel query retryLimit) w
    (Some e) (k + 1) (map backoff1 (Zseq 1 k)).
Proof.
  intros [H429 Hlast] Hne.
  rewrite <- Hlast. apply ApiGeneric_executeWithRetry_settles; auto.
  now rewrite Hlast.
Qed.

Variable g : googleapi.Error.
Hypothesis H404 : googleapi.Code g = 404.

Lemma generic_found_not_found {R : Type} (query : Query R) :
  answers query w k (GoogleapiError g) ->
  returns_after
    (fun fuel =>
       r <- ApiGeneric.getResponseWithRetry fuel query retryLimit ;; ApiGeneric.found r)
    w (None, Some ErrNotExist) (k + 1) (map backoff20 (Zseq 1 k)).
Proof.
  intros H.
  apply (returns_after_then
           (fun fuel => ApiGeneric.getResponseWithRetry fuel query retryLimit) _ w
           (None, Some (GoogleapiError g))).
  - apply ApiGeneric_getResponseWithRetry_answers;
      [exact H | now apply not_found_not_rate_limited].
  - intros w1. unfold ApiGeneric.found. now rewrite (hasCode_404 g H404).
Qed.

Lemma generic_listed_not_found {R A : Type} (query : Query R) (items : R -> list A) :
  answers query w k (GoogleapiError g) ->
  returns_after
    (fun fuel =>
       r <- ApiGeneric.getResponseWithRetry fuel query retryLimit ;;
       ApiGeneric.listed items r)
    w (None, Some (GoogleapiError g)) (k + 1) (map backoff20 (Zseq 1 k)).
Proof.
  intros H.
  apply (returns_after_then
           (fun fuel => ApiGeneric.getResponseWithRetry fuel query retryLimit) _ w
           (None, Some (GoogleapiError g))).
  - apply ApiGeneric_getResponseWithRetry_answers;
      [exact H | now apply not_found_not_rate_limited].
  - intros w1. reflexivity.
Qed.

End ApiGenericOperations.

(** X15. In [client.go] too a 404 answer ends the run of an operation at once
    (after [k] rate-limited attempts, [k] within the retry limit); the
    reads by id return the sentinel [ErrNotExist] for it, and the create,
    update, list and delete operations return the error of the remote as
    it is. *)
Theorem client_go_operations_on_not_found (c : ApiGeneric.Client) (w : World) (k : nat)
    (g : googleapi.Error)
    (H404 : googleapi.Code g = 404)
    (Hk : Z.of_nat k <= ApiGeneric.RetryLimit (ApiGeneric.Options c)) :
  let svc := ApiGeneric.Service_ c in
  let e404 := GoogleapiError g in
  let bs := map backoff20 (Zseq 1 k) in
  let bs1 := map backoff1 (Zseq 1 k) in
  (* read by id *)
  ((forall path, answers (Api.Workspaces_Get svc path) w k e404) ->
   forall id, returns_after (fun fuel => ApiGeneric.Workspace fuel c id) w
                (None, Some ErrNotExist) (k + 1) bs) /\
  ((forall path, answers (Api.Tags_Get svc path) w k e404) ->
   forall ws id, returns_after (fun fuel => ApiGeneric.Tag fuel c ws id) w
                   (None, Some ErrNotExist) (k + 1) bs) /\
  ((forall path, answers (Api.Variables_Get svc path) w k e404) ->
   forall ws id, returns_after (fun fuel => ApiGeneric.Variable' fuel c ws id) w
                   (None, Some ErrNotExist) (k + 1) bs) /\
  ((forall path, answers (Api.Triggers_Get svc path) w k e404) ->
   forall ws id, returns_after (fun fuel => ApiGeneric.Trigger fuel c ws id) w
                   (None, Some ErrNotExist) (k + 1) bs) /\
  (* create *)
  ((forall path x, answers (Api.Workspaces_Create svc path x) w k e404) ->
   forall x, returns_after (fun fuel => ApiGeneric.CreateWorkspace fuel c x) w
               (None, Some e404) (k + 1) bs) /\
  ((forall path x, answers (Api.Tags_Create svc path x) w k e404) ->
   forall ws x, returns_after (fun fuel => ApiGeneric.CreateTag fuel c ws x) w
                  (None, Some e404) (k + 1) bs) /\
  ((forall path x, answers (Api.Variables_Create svc path x) w k e404) ->
   forall ws x, returns_after (fun fuel => ApiGeneric.CreateVariable fuel c ws x) w
                  (None, Some e404) (k + 1) bs) /\
  ((forall path x, answers (Api.Triggers_Create svc path x) w k e404) ->
   forall ws x, returns_after (fun fuel => ApiGeneric.CreateTrigger fuel c ws x) w
                  (None, Some e404) (k + 1) bs) /\
  (* update *)
  ((forall path x, answers (Api.Workspaces_Update svc path x) w k e404) ->
   forall id x, returns_after (fun fuel => ApiGeneric.UpdateWorkspaces fuel c id x) w
                  (None, Some e404) (k + 1) bs) /\
  ((forall path x, answers (Api.Tags_Update svc path x) w k e404) ->
   forall ws id x, returns_after (fun fuel => ApiGeneric.UpdateTag fuel c ws id x) w
                     (None, Some e404) (k + 1) bs) /\
  ((forall path x, answers (Api.Variables_Update svc path x) w k e404) ->
   forall ws id x, returns_after (fun fuel => ApiGeneric.UpdateVariable fuel c ws id x) w
                     (None, Some e404) (k + 1) bs) /\
  ((forall path x, answers (Api.Triggers_Update svc path x) w k e404) ->
   forall ws id x, returns_after (fun fuel => ApiGeneric.UpdateTrigger fuel c ws id x) w
                     (None, Some e404) (k + 1) bs) /\
  (* list *)
  ((forall path, answers (Api.Workspaces_List svc path) w k e404) ->
   returns_after (fun fuel => ApiGeneric.ListWorkspaces fuel c) w
     (None, Some e404) (k + 1) bs) /\
  ((forall path, answers (Api.Tags_List svc path) w k e404) ->
   forall ws, returns_after (fun fuel => ApiGeneric.ListTags fuel c ws) w
                (None, Some e404) (k + 1) bs) /\
  ((forall path, answers (Api.Variables_List svc path) w k e404) ->
   forall ws, returns_after (fun fuel => ApiGeneric.ListVariables fuel c ws) w
                (None, Some e404) (k + 1) bs) /\
  ((forall path, answers (Api.Triggers_List svc path) w k e404) ->
   forall ws, returns_after (fun fuel => ApiGeneric.ListTriggers fuel c ws) w
                (None, Some e404) (k + 1) bs) /\
  (* delete *)
  ((forall path, answersErr (Api.Workspaces_Delete svc path) w k e404) ->
   forall id, returns_after (fun fuel => ApiGeneric.DeleteWorkspace fuel c id) w
                (Some e404) (k + 1) bs1) /\
  ((forall path, answersErr (Api.Tags_Delete svc path) w k e404) ->
   forall ws id, returns_after (fun fuel => ApiGeneric.DeleteTag fuel c ws id) w
                   (Some e404) (k + 1) bs1) /\
  ((forall path, answersErr (Api.Variables_Delete svc path) w k e404) ->
   forall ws id, returns_after (fun fuel => ApiGeneric.DeleteVariable fuel c ws id) w
                   (Some e404) (k + 1) bs1) /\
  ((forall path, answersErr (Api.Triggers_Delete svc path) w k e404) ->
   forall ws id, returns_after (fun fuel => ApiGeneric.DeleteTrigger fuel c ws id) w
                   (Some e404) (k + 1) bs1).
Proof.
  intros svc e404 bs bs1.
  pose proof (not_found_not_rate_limited g H404) as Hne.
  set (L := ApiGeneric.RetryLimit (ApiGeneric.Options c)) in *.
  splits; intros H; intros.
  - apply (generic_found_not_found L w k Hk g H404). apply H.
  - apply (generic_found_not_found L w k Hk g H404). apply H.
  - apply (generic_found_not_found L w k Hk g H404). apply H.
  - apply (generic_found_not_found L w k Hk g H404). apply H.
  - apply (ApiGeneric_getResponseWithRetry_answers L w k Hk); [apply H | exact Hne].
  - apply (ApiGeneric_getResponseWithRetry_answers L w k Hk); [apply H | exact Hne].
  - apply (ApiGeneric_getResponseWithRetry_answers L w k Hk); [apply H | exact Hne].
  - apply (ApiGeneric_getResponseWithRetry_answers L w k Hk); [apply H | exact Hne].
  - apply (ApiGeneric_getResponseWithRetry_answers L w k Hk); [apply H | exact Hne].
  - apply (ApiGeneric_getResponseWithRetry_answers L w k Hk); [apply H | exact Hne].
  - apply (ApiGeneric_getResponseWithRetry_answers L w k Hk); [apply H | exact Hne].
  - apply (ApiGeneric_getResponseWithRetry_answers L w k Hk); [apply H | exact Hne].
  - apply (generic_listed_not_found L w k Hk g H404). apply H.
  - apply (generic_listed_not_found L w k Hk g H404). apply H.
  - apply (generic_listed_not_found L w k Hk g H404). apply H.
  - apply (generic_listed_not_found L w k Hk g H404). apply H.
  - apply (ApiGeneric_executeWithRetry_answers L w k Hk); [apply H | exact Hne].
  - apply (ApiGeneric_executeWithRetry_answers L w k Hk); [apply H | exact Hne].
  - apply (ApiGeneric_executeWithRetry_answers L w k Hk); [apply H | exact Hne].
  - apply (ApiGeneric_executeWithRetry_answers L w k Hk); [apply H | exact Hne].
Qed.

(** ** The test coordinator *)

Lemma WaitBeforeRequest_step (c : TestCoordinator) (w : World) :
  0 <= minDelay c <= maxInt64 ->
  lastRequestTime c <= clock w ->
  let t := Z.max (clock w) (lastRequestTime c + minDelay c) in
  WaitBeforeRequest c w
  = Done {| lastRequestTime := t; minDelay := minDelay c |} (at_clock w t).
Proof.
  intros Hd Hlast t. unfold WaitBeforeRequest, bind, Sub.
  destruct (Z.ltb_spec (clock w - lastRequestTime c) (minDelay c)) as [Hlt|Hge].
  - rewrite wrap64_small by (unfold maxInt64 in *; lia).
    unfold advance. cbn [clock].
    replace (clock w + Z.max 0 (minDelay c - (clock w - lastRequestTime c))) with t
      by (unfold t; lia).
    reflexivity.
  - unfold ret. replace t with (clock w) by (unfold t; lia).
    unfold at_clock. destruct w; reflexivity.
Qed.

(** X16. [WaitBeforeRequest()] returns at the later of now and [minDelay] after
    the request before, and records that instant: it sleeps for what is
    missing of the delay, and not at all when the delay has passed. *)
Theorem WaitBeforeRequest_sleeps_what_is_missing (c : TestCoordinator) (w : World)
    (Hdelay : 0 <= minDelay c <= maxInt64)
    (Hpast : lastRequestTime c <= clock w) :
  exists (c1 : TestCoordinator) (w1 : World),
    WaitBeforeRequest c w = Done c1 w1 /\
    clock w1 = Z.max (clock w) (lastRequestTime c + minDelay c) /\
    lastRequestTime c1 = clock w1 /\
    minDelay c1 = minDelay c /\
    limiter w1 = limiter w /\ calls w1 = calls w /\ trace w1 = trace w.
Proof.
  eexists. eexists. rewrite (WaitBeforeRequest_step c w Hdelay Hpast).
  splits; reflexivity.
Qed.

Lemma requests_apart (pauses : list Duration) :
  forall (c : TestCoordinator) (w : World),
    0 <= minDelay c <= maxInt64 ->
    lastRequestTime c <= clock w ->
    exists (ts : list Time) (w1 : World),
      requests c pauses w = Done ts w1 /\
      List.length ts = List.length pauses /\
      apart (minDelay c) (lastRequestTime c :: ts) /\
      (forall p rest, pauses = p :: rest ->
         hd 0 ts = Z.max (clock w + Z.max 0 p) (lastRequestTime c + minDelay c)).
Proof.
  induction pauses as [|p rest IH]; intros c w Hd Hlast.
  - exists [], w. splits; try reflexivity. intros p rest H. discriminate.
  - cbn [requests]. unfold bind at 1. unfold advance at 1.
    set (w' := {| clock := clock w + Z.max 0 p |}).
    assert (Hlast' : lastRequestTime c <= clock w') by (simpl; lia).
    unfold bind at 1. rewrite (WaitBeforeRequest_step c w' Hd Hlast').
    set (t := Z.max (clock w') (lastRequestTime c + minDelay c)).
    destruct (IH {| lastRequestTime := t; minDelay := minDelay c |} (at_clock w' t))
      as (ts & w1 & Hrun & Hlen & Hap & Hhd).
    + exact Hd.
    + simpl. lia.
    + unfold bind. rewrite Hrun. exists (t :: ts), w1. cbn [lastRequestTime].
      splits.
      * reflexivity.
      * simpl. now rewrite Hlen.
      * cbn [apart lastRequestTime minDelay] in *. split; [unfold t; lia | exact Hap].
      * intros p0 rest0 E. inversion E; subst. reflexivity.
Qed.

(** X17. The requests of tests that share a coordinator made by
    [NewTestCoordinator] are at least [minDelay] apart, however the tests
    are timed; and the first of them is not held up. *)
Theorem TestCoordinator_keeps_requests_apart (delay : Duration)
    (pauses : list Duration) (w : World)
    (Hdelay : 0 <= delay <= maxInt64) :
  exists (ts : list Time) (w1 : World),
    (c <- NewTestCoordinator delay ;; requests c pauses) w = Done ts w1 /\
    List.length ts = List.length pauses /\
    apart delay ts /\
    (forall p rest, pauses = p :: rest -> hd 0 ts = clock w + Z.max 0 p).
Proof.
  unfold bind, NewTestCoordinator.
  rewrite wrap64_small by (unfold maxInt64 in *; lia).
  set (c := {| lastRequestTime := clock w + - delay; minDelay := delay |}).
  destruct (requests_apart pauses c w) as (ts & w1 & Hrun & Hlen & Hap & Hhd).
  - exact Hdelay.
  - simpl. lia.
  - exists ts, w1. splits; auto.
    + destruct ts as [|t ts]; [exact I|]. cbn [apart] in Hap. apply Hap.
    + intros p rest E. rewrite (Hhd p rest E). simpl. lia.
Qed.

(** ** The provider's [Configure] *)

Lemma Severity_eqb_eq (a b : diag.Severity) : diag.Severity_eqb a b = true -> a = b.
Proof. destruct a, b; simpl; congruence. Qed.

Lemma Contains_HasError (ds : diag.Diagnostics) (d : diag.Diagnostic) :
  diag.Contains ds d = true ->
  diag.Severity_ d = diag.SeverityError ->
  diag.HasError ds = true.
Proof.
  unfold diag.Contains, diag.HasError. intros H Hsev.
  apply existsb_exists in H. destruct H as (x & Hin & Heq).
  apply existsb_exists. exists x. split; [exact Hin|].
  unfold diag.Diagnostic_eqb in Heq.
  apply andb_prop in Heq. destruct Heq as [Heq _].
  apply andb_prop in Heq. destruct Heq as [Heq _].
  apply Severity_eqb_eq in Heq. now rewrite <- Heq, Hsev.
Qed.

Lemma HasError_app (a b : diag.Diagnostics) :
  diag.HasError (a ++ b) = diag.HasError a || diag.HasError b.
Proof. unfold diag.HasError. apply existsb_app. Qed.

Lemma HasError_Append (new : list diag.Diagnostic) :
  forall ds : diag.Diagnostics,
    diag.HasError (diag.Append ds new) = diag.HasError ds || diag.HasError new.
Proof.
  unfold diag.Append.
  induction new as [|d new IH]; intros ds; cbn [fold_left].
  - simpl. now rewrite orb_false_r.
  - rewrite IH. cbn [diag.HasError existsb].
    destruct (diag.Contains ds d) eqn:Hc.
    + destruct (diag.Severity_eqb (diag.Severity_ d) diag.SeverityError) eqn:Hs.
      * rewrite (Contains_HasError ds d Hc (Severity_eqb_eq _ _ Hs)). reflexivity.
      * reflexivity.
    + rewrite HasError_app. cbn [diag.HasError existsb].
      rewrite orb_false_r, orb_assoc. reflexivity.
Qed.

Lemma HasError_AddError (ds : diag.Diagnostics) (summary detail : string) :
  diag.HasError (diag.AddError ds summary detail) = true.
Proof.
  unfold diag.AddError. rewrite HasError_Append. simpl. apply orb_true_r.
Qed.

Lemma isEmpty_true (s : string) : Api.isEmpty s = true -> s = EmptyString.
Proof. destruct s; [reflexivity | discriminate]. Qed.

Section ConfigureProperties.

Variable ClientInWorkspace : Type.
Variable NewClientInWorkspace :
  provider.ClientInWorkspaceOptions -> ClientInWorkspace + error.
Variable ErrorText : error -> string.

Let Configure := provider.Configure ClientInWorkspace NewClientInWorkspace ErrorText.
Let Response := provider.ConfigureResponse ClientInWorkspace.

Lemma setting_eq (v : types.String') (fromEnv : string) :
  (if negb (types.IsNull v) && negb (types.IsUnknown v)
   then types.ValueString v else fromEnv)
  = setting v fromEnv.
Proof. destruct v; reflexivity. Qed.

(** X18. [Configure] either hands a client on, the same to the data sources and
    to the resources, or reports an error: never both and never neither.
    The client it hands on was made from a credential file, an account, a
    container and a workspace name that are not empty, each taken from the
    configuration when it is set there and from the environment otherwise,
    and with a retry limit that is the one of the configuration when that
    sets one, whatever its value, and at least 1 otherwise. *)
Theorem Configure_hands_out_a_client_or_reports_an_error (env : Api.Environ)
    (config : provider.gtmProviderModel) (diags : diag.Diagnostics) (resp : Response)
    (Hfresh : provider.ResourceData _ resp = None /\
              provider.DataSourceData _ resp = None /\
              diag.HasError (provider.Diagnostics _ resp) = false) :
  let out := Configure env config diags resp in
  (diag.HasError (provider.Diagnostics _ out) = true /\
   provider.ResourceData _ out = None /\
   provider.DataSourceData _ out = None)
  \/
  (exists (client : ClientInWorkspace) (opts : provider.ClientInWorkspaceOptions),
      diag.HasError (provider.Diagnostics _ out) = false /\
      provider.ResourceData _ out = Some client /\
      provider.DataSourceData _ out = Some client /\
      NewClientInWorkspace opts = inl client /\
      let o := provider.ClientOptions opts in
      ApiGeneric.CredentialFile o
      = setting (provider.CredentialFile config) (Api.Getenv env Api.EnvCredentialFile) /\
      ApiGeneric.AccountId o
      = setting (provider.AccountId config) (Api.Getenv env Api.EnvAccountId) /\
      ApiGeneric.ContainerId o
      = setting (provider.ContainerId config) (Api.Getenv env Api.EnvContainerId) /\
      provider.WorkspaceName_ opts
      = setting (provider.WorkspaceName config) (Api.Getenv env Api.EnvWorkspaceName) /\
      ApiGeneric.CredentialFile o <> EmptyString /\
      ApiGeneric.AccountId o <> EmptyString /\
      ApiGeneric.ContainerId o <> EmptyString /\
      provider.WorkspaceName_ opts <> EmptyString /\
      match provider.RetryLimit config with
      | types.Int64Value n => ApiGeneric.RetryLimit o = n
      | _ => 1 <= ApiGeneric.RetryLimit o
      end).
Proof.
  destruct Hfresh as (Hr & Hd & He).
  intros out. subst out. unfold Configure, provider.Configure.
  cbn [provider.Diagnostics provider.DataSourceData provider.ResourceData].
  rewrite !setting_eq, Hr, Hd.
  destruct (diag.HasError (diag.Append (provider.Diagnostics _ resp) diags)) eqn:Hdiags.
  { left. cbn [provider.Diagnostics provider.DataSourceData provider.ResourceData]. auto. }
  unfold provider.AddError.
  cbn [provider.Diagnostics provider.DataSourceData provider.ResourceData].
  destruct (Api.isEmpty (setting (provider.CredentialFile config) _)) eqn:E1;
    [left; cbn [provider.Diagnostics provider.DataSourceData provider.ResourceData]; rewrite HasError_AddError; auto|].
  destruct (Api.isEmpty (setting (provider.AccountId config) _)) eqn:E2;
    [left; cbn [provider.Diagnostics provider.DataSourceData provider.ResourceData]; rewrite HasError_AddError; auto|].
  destruct (Api.isEmpty (setting (provider.ContainerId config) _)) eqn:E3;
    [left; cbn [provider.Diagnostics provider.DataSourceData provider.ResourceData]; rewrite HasError_AddError; auto|].
  destruct (Api.isEmpty (setting (provider.WorkspaceName config) _)) eqn:E4;
    [left; cbn [provider.Diagnostics provider.DataSourceData provider.ResourceData]; rewrite HasError_AddError; auto|].
  match goal with
  | |- context [NewClientInWorkspace ?o] => set (opts := o)
  end.
  destruct (NewClientInWorkspace opts) as [client|err] eqn:Hnew;
    [|left; cbn [provider.Diagnostics provider.DataSourceData provider.ResourceData]; rewrite HasError_AddError; auto].
  right. exists client, opts. cbn.
  splits; auto; try (intros E; rewrite E in *; discriminate).
  destruct (provider.RetryLimit config) as [| |n]; cbn; try reflexivity.
  - destruct (Api.isEmpty (Api.Getenv env Api.EnvRetryLimit)); [lia|].
    destruct (Api.Sscanf_d env _) as [parsed|]; [|lia].
    destruct (Z.gtb_spec parsed 0); lia.
  - destruct (Api.isEmpty (Api.Getenv env Api.EnvRetryLimit)); [lia|].
    destruct (Api.Sscanf_d env _) as [parsed|]; [|lia].
    destruct (Z.gtb_spec parsed 0); lia.
Qed.

(** X19. A setting that the configuration sets to the empty string is not made
    up for by the environment: [Configure] makes no client then and ends
    with an error, whatever the variables hold. *)
Theorem Configure_takes_an_empty_setting_of_the_configuration (env : Api.Environ)
    (config : provider.gtmProviderModel) (diags : diag.Diagnostics) (resp : Response)
    (Hempty : provider.CredentialFile config = types.StringValue EmptyString \/
              provider.AccountId config = types.StringValue EmptyString \/
              provider.ContainerId config = types.StringValue EmptyString \/
              provider.WorkspaceName config = types.StringValue EmptyString) :
  let out := Configure env config diags resp in
  diag.HasError (provider.Diagnostics _ out) = true /\
  provider.ResourceData _ out = provider.ResourceData _ resp /\
  provider.DataSourceData _ out = provider.DataSourceData _ resp.
Proof.
  intros out. subst out. unfold Configure, provider.Configure.
  cbn [provider.Diagnostics provider.DataSourceData provider.ResourceData].
  rewrite !setting_eq.
  destruct (diag.HasError (diag.Append (provider.Diagnostics _ resp) diags)) eqn:Hdiags.
  { cbn [provider.Diagnostics provider.DataSourceData provider.ResourceData]. auto. }
  unfold provider.AddError.
  cbn [provider.Diagnostics provider.DataSourceData provider.ResourceData].
  destruct (Api.isEmpty (setting (provider.CredentialFile config) _)) eqn:E1;
    [cbn [provider.Diagnostics provider.DataSourceData provider.ResourceData]; rewrite HasError_AddError; auto|].
  destruct (Api.isEmpty (setting (provider.AccountId config) _)) eqn:E2;
    [cbn [provider.Diagnostics provider.DataSourceData provider.ResourceData]; rewrite HasError_AddError; auto|].
  destruct (Api.isEmpty (setting (provider.ContainerId config) _)) eqn:E3;
    [cbn [provider.Diagnostics provider.DataSourceData provider.ResourceData]; rewrite HasError_AddError; auto|].
  destruct (Api.isEmpty (setting (provider.WorkspaceName config) _)) eqn:E4;
    [cbn [provider.Diagnostics provider.DataSourceData provider.ResourceData]; rewrite HasError_AddError; auto|].
  exfalso.
  destruct Hempty as [H|[H|[H|H]]]; rewrite H in *; discriminate.
Qed.

End ConfigureProperties.

(** ** Import of tags and triggers *)

Section ImportProperties.

Variable Payload Model State : Type.
Variable read : string -> option Payload * option error.
Variable toResource : Payload -> Model.
Variable State_Set : State -> Model -> State * diag.Diagnostics.
Variable ErrorText : error -> string.

Let Response := resources.ImportStateResponse State.

(** X20. The import of a tag never stores a tag that was read without an
    error: it reports "Resource Import Failed" for it and leaves the state
    as it was.  When the read fails, it goes on with the payload, and a
    payload that is [nil] makes it panic.  So with a client that gives no
    payload along with an error, every import of a tag fails. *)
Theorem tag_import_fails_when_the_tag_is_read (ID : string) (resp : Response) :
  let out := resources.tagResource_ImportState Payload Model State read
               toResource State_Set ID resp in
  (snd (read ID) = None \/ ID = EmptyString ->
   exists resp1 : Response,
     out = resources.Returned resp1 /\
     diag.HasError (resources.Diagnostics _ resp1) = true /\
     resources.State_ _ resp1 = resources.State_ _ resp) /\
  (ID <> EmptyString -> snd (read ID) <> None -> fst (read ID) = None ->
   out = resources.NilDereference) /\
  ((forall id, snd (read id) <> None -> fst (read id) = None) ->
   out = resources.NilDereference \/
   exists resp1 : Response,
     out = resources.Returned resp1 /\
     diag.HasError (resources.Diagnostics _ resp1) = true /\
     resources.State_ _ resp1 = resources.State_ _ resp).
Proof.
  intros out. subst out. unfold resources.tagResource_ImportState.
  assert (Hfail : forall s d,
             exists resp1 : Response,
               resources.Returned (resources.AddError State resp s d)
               = resources.Returned resp1 /\
               diag.HasError (resources.Diagnostics _ resp1) = true /\
               resources.State_ _ resp1 = resources.State_ _ resp).
  { intros s d. eexists. split; [reflexivity|].
    unfold resources.AddError. cbn [resources.Diagnostics resources.State_].
    split; [apply HasError_AddError | reflexivity]. }
  destruct (Api.isEmpty ID) eqn:Hid.
  - splits.
    + intros _. apply Hfail.
    + intros Hne. apply isEmpty_true in Hid. contradiction.
    + intros _. right. apply Hfail.
  - destruct (read ID) as [tag err] eqn:Hread. cbn [fst snd].
    destruct err as [e|].
    + splits.
      * intros [H|H]; [discriminate | subst ID; discriminate].
      * intros _ _ ->. reflexivity.
      * intros Hnil. left. specialize (Hnil ID). rewrite Hread in Hnil.
        cbn in Hnil. rewrite Hnil by discriminate. reflexivity.
    + splits.
      * intros _. apply Hfail.
      * intros _ H. now contradiction H.
      * intros _. right. apply Hfail.
Qed.

(** X21. The import of a trigger stores the trigger that was read without an
    error, and reports the error of a read that failed, leaving the state
    as it was. *)
Theorem trigger_import_stores_the_trigger_read (ID : string) (resp : Response)
    (Hid : ID <> EmptyString) :
  let out := resources.triggerResource_ImportState Payload Model State read
               toResource State_Set ErrorText ID resp in
  (forall (t : Payload),
      read ID = (Some t, None) ->
      out = resources.Returned
              {| resources.Diagnostics :=
                   diag.Append (resources.Diagnostics _ resp)
                     (snd (State_Set (resources.State_ _ resp) (toResource t)));
                 resources.State_ :=
                   fst (State_Set (resources.State_ _ resp) (toResource t)) |}) /\
  (forall (x : option Payload) (e : error),
      read ID = (x, Some e) ->
      exists resp1 : Response,
        out = resources.Returned resp1 /\
        diag.HasError (resources.Diagnostics _ resp1) = true /\
        resources.State_ _ resp1 = resources.State_ _ resp).
Proof.
  intros out. subst out. unfold resources.triggerResource_ImportState.
  destruct (Api.isEmpty ID) eqn:E; [apply isEmpty_true in E; contradiction|].
  split.
  - intros t Hread. rewrite Hread. unfold resources.store.
    destruct (State_Set _ _); reflexivity.
  - intros x e Hread. rewrite Hread. eexists. split; [reflexivity|].
    unfold resources.AddError. cbn [resources.Diagnostics resources.State_].
    split; [apply HasError_AddError | reflexivity].
Qed.

End ImportProperties.

(** ** Parameters *)

Lemma ResourceParameterModel_nested_ind (P : parameter.ResourceParameterModel -> Prop) :
  (forall k t v l m,
      parameter.every P l -> parameter.every P m ->
      P (parameter.mkResourceParameterModel k t v l m)) ->
  forall r, P r.
Proof.
  intros step. fix IH 1. intros [k t v l m]. apply step.
  - unfold parameter.every. destruct l as [xs|]; simpl; [|constructor].
    revert xs. fix IHxs 1. intros [|x xs]; constructor; [apply IH | apply IHxs].
  - unfold parameter.every. destruct m as [xs|]; simpl; [|constructor].
    revert xs. fix IHxs 1. intros [|x xs]; constructor; [apply IH | apply IHxs].
Qed.

Lemma types_Equal_eq (v o : types.String') : types.Equal v o = true <-> v = o.
Proof.
  destruct v, o; simpl; split; try congruence; try discriminate.
  - intros H. apply String.eqb_eq in H. now subst.
  - intros H. inversion H. apply String.eqb_refl.
Qed.

(** [Equal] unfolded once, its loops written with [Equal_each]. *)
Lemma Equal_unfold (k t v : types.String') (l m : option (list parameter.ResourceParameterModel))
    (k' t' v' : types.String') (l' m' : option (list parameter.ResourceParameterModel)) :
  parameter.Equal (parameter.mkResourceParameterModel k t v l m)
                  (parameter.mkResourceParameterModel k' t' v' l' m')
  = types.Equal k k' && types.Equal t t' && types.Equal v v'
    && (parameter.len l =? parameter.len l')%nat
    && (parameter.len m =? parameter.len m')%nat
    && parameter.Equal_each (parameter.elems l) (parameter.elems l')
    && parameter.Equal_each (parameter.elems m) (parameter.elems m').
Proof.
  destruct l as [xs|], m as [ys|];
    cbn [parameter.Equal parameter.elems parameter.Equal_each];
    repeat match goal with
           | |- context [?f ?a ?b] =>
               is_fix f; change (f a b) with (parameter.Equal_each a b)
           end;
    destruct (types.Equal k k'), (types.Equal t t'), (types.Equal v v');
    cbn [negb orb andb]; try reflexivity;
    repeat match goal with
           | |- context [(?a =? ?b)%nat] => destruct (a =? b)%nat; cbn [negb orb andb]
           end; try reflexivity;
    repeat match goal with
           | |- context [parameter.Equal_each ?a ?b] =>
               destruct (parameter.Equal_each a b); cbn [negb andb]
           end; reflexivity.
Qed.

Lemma normal_unfold (k t v : types.String') (l m : option (list parameter.ResourceParameterModel)) :
  parameter.normal (parameter.mkResourceParameterModel k t v l m)
  = parameter.mkResourceParameterModel k t v
      (Some (map parameter.normal (parameter.elems l)))
      (Some (map parameter.normal (parameter.elems m))).
Proof. destruct l, m; reflexivity. Qed.

Lemma Equal_each_normal (xs : list parameter.ResourceParameterModel) :
  Forall (fun r => forall o, parameter.Equal r o = true
                             <-> parameter.normal r = parameter.normal o) xs ->
  forall ys,
    ((List.length xs =? List.length ys)%nat && parameter.Equal_each xs ys = true)
    <-> map parameter.normal xs = map parameter.normal ys.
Proof.
  induction 1 as [|x xs Hx Hxs IH]; intros [|y ys]; cbn; try (split; congruence).
  split.
  - intros H. apply andb_prop in H. destruct H as [Hlen Heach].
    destruct (parameter.Equal x y) eqn:E; [|discriminate].
    cbn [negb] in Heach. f_equal.
    + now apply Hx.
    + apply IH. now rewrite Hlen, Heach.
  - intros H. inversion H as [[H1 H2]].
    apply Hx in H1. apply IH in H2. rewrite H1. cbn [negb]. exact H2.
Qed.

(** [Equal] holds of two models exactly when they are the same but for
    slices that are [nil] in one and empty in the other. *)
Lemma Equal_normal (r : parameter.ResourceParameterModel) :
  forall o, parameter.Equal r o = true <-> parameter.normal r = parameter.normal o.
Proof.
  induction r as [k t v l m Hl Hm] using ResourceParameterModel_nested_ind.
  intros [k' t' v' l' m']. rewrite Equal_unfold, !normal_unfold.
  pose proof (Equal_each_normal _ Hl (parameter.elems l')) as El.
  pose proof (Equal_each_normal _ Hm (parameter.elems m')) as Em.
  assert (Hlen : forall s : option (list parameter.ResourceParameterModel),
             parameter.len s = List.length (parameter.elems s)).
  { intros [xs|]; reflexivity. }
  rewrite !Hlen.
  split.
  - intros H.
    repeat (apply andb_prop in H; destruct H as [H ?]).
    apply types_Equal_eq in H. subst.
    repeat match goal with
           | E : types.Equal _ _ = true |- _ => apply types_Equal_eq in E; subst
           end.
    f_equal; f_equal.
    + apply El. apply andb_true_intro. auto.
    + apply Em. apply andb_true_intro. auto.
  - intros H. inversion H as [[Hk Ht Hv Hl' Hm']]. subst.
    apply El in Hl'. apply Em in Hm'.
    apply andb_prop in Hl'. destruct Hl' as [Hl1 Hl2].
    apply andb_prop in Hm'. destruct Hm' as [Hm1 Hm2].
    rewrite Hl1, Hl2, Hm1, Hm2.
    rewrite !(proj2 (types_Equal_eq _ _) eq_refl). reflexivity.
Qed.

(** X22. [Equal] on parameter models is an equivalence: every model equals
    itself, the order of the two models does not matter, and models that
    equal a third one equal each other.  A slice that is [nil] and an
    empty one are taken for the same. *)
Theorem parameter_Equal_is_an_equivalence :
  (forall r, parameter.Equal r r = true) /\
  (forall r o, parameter.Equal r o = parameter.Equal o r) /\
  (forall a b c,
      parameter.Equal a b = true -> parameter.Equal b c = true ->
      parameter.Equal a c = true) /\
  (forall k t v,
      parameter.Equal (parameter.mkResourceParameterModel k t v None None)
                      (parameter.mkResourceParameterModel k t v (Some []) (Some []))
      = true).
Proof.
  splits.
  - intros r. now apply Equal_normal.
  - intros r o.
    destruct (parameter.Equal r o) eqn:E1, (parameter.Equal o r) eqn:E2;
      try reflexivity.
    + apply Equal_normal in E1. symmetry in E1. apply Equal_normal in E1. congruence.
    + apply Equal_normal in E2. symmetry in E2. apply Equal_normal in E2. congruence.
  - intros a b c Hab Hbc. apply Equal_normal in Hab, Hbc. apply Equal_normal. congruence.
  - intros k t v. now apply Equal_normal.
Qed.

Lemma toApiParameter_of_unfold (k t v : types.String')
    (l m : option (list parameter.ResourceParameterModel)) :
  parameter.toApiParameter_of (parameter.mkResourceParameterModel k t v l m)
  = parameter.mkApiParameter (types.ValueString k) (types.ValueString t)
      (types.ValueString v) (parameter.toApiParameter l) (parameter.toApiParameter m).
Proof. destruct l, m; reflexivity. Qed.

Lemma toApiParameter_normal (r : parameter.ResourceParameterModel) :
  parameter.toApiParameter_of (parameter.normal r) = parameter.toApiParameter_of r.
Proof.
  induction r as [k t v l m Hl Hm] using ResourceParameterModel_nested_ind.
  rewrite normal_unfold, !toApiParameter_of_unfold.
  assert (Hmap : forall s : option (list parameter.ResourceParameterModel),
             parameter.every
               (fun r => parameter.toApiParameter_of (parameter.normal r)
                         = parameter.toApiParameter_of r) s ->
             parameter.toApiParameter (Some (map parameter.normal (parameter.elems s)))
             = parameter.toApiParameter s).
  { intros s Hs. unfold parameter.toApiParameter. cbn [parameter.elems].
    f_equal. rewrite map_map. apply map_ext_Forall. exact Hs. }
  now rewrite (Hmap l Hl), (Hmap m Hm).
Qed.

(** X23. Models that are [Equal] are sent to the API as the same parameter, and
    slices of models that are [Equal] one by one as the same slice.  What
    [toApiParameter] returns is never an empty slice that is not [nil],
    and holds as many parameters as the slice it was given. *)
Theorem models_that_are_Equal_make_the_same_api_parameter :
  (forall r o,
      parameter.Equal r o = true ->
      parameter.toApiParameter_of r = parameter.toApiParameter_of o) /\
  (forall rs os,
      parameter.len rs = parameter.len os ->
      parameter.Equal_each (parameter.elems rs) (parameter.elems os) = true ->
      parameter.toApiParameter rs = parameter.toApiParameter os) /\
  (forall rs,
      parameter.toApiParameter rs <> Some [] /\
      parameter.len (parameter.toApiParameter rs) = parameter.len rs).
Proof.
  assert (H1 : forall r o,
             parameter.Equal r o = true ->
             parameter.toApiParameter_of r = parameter.toApiParameter_of o).
  { intros r o H. apply Equal_normal in H.
    rewrite <- (toApiParameter_normal r), <- (toApiParameter_normal o). now rewrite H. }
  splits.
  - exact H1.
  - intros rs os Hlen Heach. unfold parameter.toApiParameter. f_equal.
    assert (Hl : List.length (parameter.elems rs) = List.length (parameter.elems os)).
    { destruct rs, os; exact Hlen. }
    revert Hl Heach. generalize (parameter.elems rs), (parameter.elems os).
    induction l as [|x xs IH]; intros [|y ys] Hl Heach; try discriminate; [reflexivity|].
    cbn [parameter.Equal_each] in Heach.
    destruct (parameter.Equal x y) eqn:E; [|discriminate].
    cbn [map]. rewrite (H1 x y E), (IH ys); [reflexivity | now inversion Hl | exact Heach].
  - intros rs. unfold parameter.toApiParameter. split.
    + destruct rs as [[|x xs]|]; cbn; discriminate.
    + destruct rs as [[|x xs]|]; cbn; try reflexivity. now rewrite length_map.
Qed.

(** ** The model of a tag *)

Lemma parameter_Equal_refl (r : parameter.ResourceParameterModel) :
  parameter.Equal r r = true.
Proof. now apply Equal_normal. Qed.

Lemma parameter_Equal_sym (r o : parameter.ResourceParameterModel) :
  parameter.Equal r o = parameter.Equal o r.
Proof.
  destruct (parameter.Equal r o) eqn:E1, (parameter.Equal o r) eqn:E2;
    try reflexivity.
  - apply Equal_normal in E1. symmetry in E1. apply Equal_normal in E1. congruence.
  - apply Equal_normal in E2. symmetry in E2. apply Equal_normal in E2. congruence.
Qed.

Lemma types_Equal_refl (v : types.String') : types.Equal v v = true.
Proof. now apply types_Equal_eq. Qed.

Lemma types_Equal_sym (v o : types.String') : types.Equal v o = types.Equal o v.
Proof.
  destruct (types.Equal v o) eqn:E1, (types.Equal o v) eqn:E2; try reflexivity.
  - apply types_Equal_eq in E1. subst. now rewrite types_Equal_refl in E2.
  - apply types_Equal_eq in E2. subst. now rewrite types_Equal_refl in E1.
Qed.

Lemma Equal_each_refl (xs : list parameter.ResourceParameterModel) :
  parameter.Equal_each xs xs = true.
Proof.
  induction xs as [|x xs IH]; [reflexivity|].
  cbn. now rewrite parameter_Equal_refl.
Qed.

Lemma Equal_each_sym (xs : list parameter.ResourceParameterModel) :
  forall ys, List.length xs = List.length ys ->
             parameter.Equal_each xs ys = parameter.Equal_each ys xs.
Proof.
  induction xs as [|x xs IH]; intros [|y ys] H; try discriminate; [reflexivity|].
  cbn. rewrite (parameter_Equal_sym x y), (IH ys); [reflexivity | now inversion H].
Qed.

Lemma Equal_ids_refl (xs : list types.String') : tag_resource.Equal_ids xs xs = true.
Proof.
  induction xs as [|x xs IH]; [reflexivity|].
  cbn. now rewrite types_Equal_refl.
Qed.

Lemma Equal_ids_sym (xs : list types.String') :
  forall ys, List.length xs = List.length ys ->
             tag_resource.Equal_ids xs ys = tag_resource.Equal_ids ys xs.
Proof.
  induction xs as [|x xs IH]; intros [|y ys] H; try discriminate; [reflexivity|].
  cbn. rewrite (types_Equal_sym x y), (IH ys); [reflexivity | now inversion H].
Qed.

Lemma len_elems {A : Type} (s : option (list A)) :
  parameter.len s = List.length (parameter.elems s).
Proof. destruct s; reflexivity. Qed.

(** X24. [Equal] on the models of tags compares a model with one to take its
    place: every model equals itself, but when the [Id] of the first model
    is unknown the [Id] of the second plays no part, so the order of the
    two matters; it does not when no [Id] is unknown. *)
Theorem tag_Equal_skips_an_unknown_Id_of_the_first_model :
  (forall m, tag_resource.Equal m m = true) /\
  (forall m o id,
      tag_resource.Id m = types.StringUnknown ->
      tag_resource.Equal m (tag_resource.with_Id o id) = tag_resource.Equal m o) /\
  (forall m s,
      tag_resource.Id m = types.StringUnknown ->
      tag_resource.Equal m (tag_resource.with_Id m (types.StringValue s)) = true /\
      tag_resource.Equal (tag_resource.with_Id m (types.StringValue s)) m = false) /\
  (forall m o,
      types.IsUnknown (tag_resource.Id m) = false ->
      types.IsUnknown (tag_resource.Id o) = false ->
      tag_resource.Equal m o = tag_resource.Equal o m).
Proof.
  assert (Hrefl : forall m, tag_resource.Equal m m = true).
  { intros m. unfold tag_resource.Equal.
    rewrite !types_Equal_refl, !Nat.eqb_refl, Equal_each_refl, Equal_ids_refl.
    cbn. now rewrite andb_false_r. }
  assert (Hskip : forall m o id,
             tag_resource.Id m = types.StringUnknown ->
             tag_resource.Equal m (tag_resource.with_Id o id) = tag_resource.Equal m o).
  { intros m o id Hid. unfold tag_resource.Equal, tag_resource.with_Id.
    cbn [tag_resource.Name tag_resource.Type_ tag_resource.Id tag_resource.Notes
         tag_resource.Parameter_ tag_resource.FiringTriggerId].
    rewrite Hid. reflexivity. }
  splits.
  - exact Hrefl.
  - exact Hskip.
  - intros m s Hid. split.
    + rewrite Hskip by exact Hid. apply Hrefl.
    + unfold tag_resource.Equal, tag_resource.with_Id.
      cbn [tag_resource.Name tag_resource.Type_ tag_resource.Id tag_resource.Notes
           tag_resource.Parameter_ tag_resource.FiringTriggerId].
      rewrite Hid, !types_Equal_refl. reflexivity.
  - intros m o Hm Ho. unfold tag_resource.Equal.
    rewrite Hm, Ho.
    rewrite (types_Equal_sym (tag_resource.Name o)), (types_Equal_sym (tag_resource.Type_ o)),
      (types_Equal_sym (tag_resource.Id o)), (types_Equal_sym (tag_resource.Notes o)).
    rewrite (Nat.eqb_sym (parameter.len (tag_resource.Parameter_ o))),
      (Nat.eqb_sym (parameter.len (tag_resource.FiringTriggerId o))).
    destruct (parameter.len (tag_resource.Parameter_ m)
              =? parameter.len (tag_resource.Parameter_ o))%nat eqn:E1;
      [|now rewrite !orb_true_r].
    destruct (parameter.len (tag_resource.FiringTriggerId m)
              =? parameter.len (tag_resource.FiringTriggerId o))%nat eqn:E2;
      [|now rewrite !orb_true_r].
    apply Nat.eqb_eq in E1, E2. rewrite !len_elems in E1. rewrite !len_elems in E2.
    rewrite (Equal_each_sym _ _ E1), (Equal_ids_sym _ _ E2). reflexivity.
Qed.

(** ** The further properties at concrete inputs *)




(** Without a limiter a delete of the throttled client runs as the delete
    of [client.go]. *)
Lemma without_limiter_witness :
  limiter (startWorld None) = None /\
  Api.DeleteTag 10 (exampleClient tooManyRequests 2 false) "7" "42" (startWorld None)
  = ApiGeneric.DeleteTag 10 (genericClient tooManyRequests 2) "7" "42" (startWorld None).
Proof.
  split; [reflexivity|].
  exact (proj1 (without_limiter_the_wrappers_run_as_in_client_go
                  (exampleClient tooManyRequests 2 false) (startWorld None) 10 eq_refl)
           (fun _ => Some tooManyRequests)).
Defined.

(** A client made with throttling off polls no limiter. *)
Lemma disabled_throttling_witness :
  let opts := exampleOptions 2 false in
  let c := exampleClient tooManyRequests 2 false in
  (Api.ThrottleEnabled opts = false /\
   Api.NewClient (newStubService tooManyRequests) opts (startWorld None)
   = Done (Some c, None) (startWorld None)) /\
  polls (new_events (startWorld None)
           (world_of (Api.DeleteTag 10 c "7" "42" (startWorld None)))) = [].
Proof.
  intros opts c.
  assert (H : Api.ThrottleEnabled opts = false /\
              Api.NewClient (newStubService tooManyRequests) opts (startWorld None)
              = Done (Some c, None) (startWorld None)).
  { split; reflexivity. }
  split; [exact H|]. destruct H as [H1 H2].
  destruct (disabled_throttling_never_waits_for_admission
              (newStubService tooManyRequests) opts c (startWorld None) (startWorld None)
              H1 H2) as [_ Hrun].
  destruct (Hrun (startWorld None) 10%nat eq_refl) as [Hdel _].
  exact (proj1 (Hdel (fun _ => Some tooManyRequests))).
Defined.



(** In [client.go] a read of a tag that is gone returns the sentinel, an
    update of it the error of the remote. *)
Lemma client_go_operations_witness :
  let g := {| googleapi.Code := 404; googleapi.Message := "Not Found" |} in
  let c := genericClient notFound 10 in
  (googleapi.Code g = 404 /\
   Z.of_nat 0 <= ApiGeneric.RetryLimit (ApiGeneric.Options c)) /\
  returns_after (fun fuel => ApiGeneric.Tag fuel c "7" "42") (startWorld None)
    (None, Some ErrNotExist) 1 [] /\
  returns_after (fun fuel => ApiGeneric.UpdateTag fuel c "7" "42" None) (startWorld None)
    (None, Some notFound) 1 [].
Proof.
  intros g c.
  assert (H : googleapi.Code g = 404 /\
              Z.of_nat 0 <= ApiGeneric.RetryLimit (ApiGeneric.Options c)).
  { split; [reflexivity | simpl; lia]. }
  split; [exact H|]. destruct H as [H404 Hk].
  destruct (client_go_operations_on_not_found c (startWorld None) 0 g H404 Hk)
    as (_ & Htag & _ & _ & _ & _ & _ & _ & _ & Hupd & _).
  split.
  - apply Htag. intros path. split; [intros i Hi; inversion Hi | reflexivity].
  - apply Hupd. intros path x. split; [intros i Hi; inversion Hi | reflexivity].
Defined.

(** One second after a request, with a delay of three seconds, the
    coordinator holds the next request until the clock reads 3s. *)
Lemma WaitBeforeRequest_witness :
  let w := {| clock := Second; limiter := None; calls := 0; trace := [] |} in
  (0 <= minDelay exampleCoordinator <= maxInt64 /\
   lastRequestTime exampleCoordinator <= clock w) /\
  exists (c1 : TestCoordinator) (w1 : World),
    WaitBeforeRequest exampleCoordinator w = Done c1 w1 /\
    clock w1 = 3 * Second.
Proof.
  intros w.
  assert (H : 0 <= minDelay exampleCoordinator <= maxInt64 /\
              lastRequestTime exampleCoordinator <= clock w).
  { repeat split; vm_compute; discriminate. }
  split; [exact H|]. destruct H as [H1 H2].
  destruct (WaitBeforeRequest_sleeps_what_is_missing exampleCoordinator w H1 H2)
    as (c1 & w1 & Hrun & Hclock & _).
  exists c1, w1. split; [exact Hrun|]. rewrite Hclock. reflexivity.
Defined.

(** Three tests that share the coordinator of the package [provider]. *)
Lemma TestCoordinator_witness :
  0 <= 3 * Second <= maxInt64 /\
  exists (ts : list Time) (w1 : World),
    (c <- GlobalTestCoordinator_provider ;; requests c [0; Second; 5 * Second])
      (startWorld None)
    = Done ts w1 /\
    apart (3 * Second) ts.
Proof.
  assert (H : 0 <= 3 * Second <= maxInt64).
  { repeat split; vm_compute; discriminate. }
  split; [exact H|].
  destruct (TestCoordinator_keeps_requests_apart (3 * Second)
              [0; Second; 5 * Second] (startWorld None) H)
    as (ts & w1 & Hrun & _ & Hap & _).
  exists ts, w1. split; [exact Hrun | exact Hap].
Defined.

(** With nothing set in the configuration or the environment [Configure]
    ends with an error and hands out no client. *)
Lemma Configure_witness :
  (provider.ResourceData unit freshResponse = None /\
   provider.DataSourceData unit freshResponse = None /\
   diag.HasError (provider.Diagnostics unit freshResponse) = false) /\
  provider.ResourceData unit
    (provider.Configure unit (fun _ => inl tt) (fun _ => EmptyString)
       emptyEnv nothingSet [] freshResponse)
  = None.
Proof.
  assert (H : provider.ResourceData unit freshResponse = None /\
              provider.DataSourceData unit freshResponse = None /\
              diag.HasError (provider.Diagnostics unit freshResponse) = false).
  { repeat split. }
  split; [exact H|].
  destruct (Configure_hands_out_a_client_or_reports_an_error unit
              (fun _ => inl tt) (fun _ => EmptyString) emptyEnv nothingSet []
              freshResponse H)
    as [(_ & Hr & _)|(client & opts & _ & Hr & _)].
  - exact Hr.
  - discriminate Hr.
Defined.

(** A credential file set to the empty string ends [Configure] with an
    error. *)
Lemma Configure_empty_setting_witness :
  (provider.CredentialFile emptyCredentialFile = types.StringValue EmptyString \/
   provider.AccountId emptyCredentialFile = types.StringValue EmptyString \/
   provider.ContainerId emptyCredentialFile = types.StringValue EmptyString \/
   provider.WorkspaceName emptyCredentialFile = types.StringValue EmptyString) /\
  diag.HasError
    (provider.Diagnostics unit
       (provider.Configure unit (fun _ => inl tt) (fun _ => EmptyString)
          emptyEnv emptyCredentialFile [] freshResponse))
  = true.
Proof.
  assert (H : provider.CredentialFile emptyCredentialFile = types.StringValue EmptyString \/
              provider.AccountId emptyCredentialFile = types.StringValue EmptyString \/
              provider.ContainerId emptyCredentialFile = types.StringValue EmptyString \/
              provider.WorkspaceName emptyCredentialFile = types.StringValue EmptyString).
  { left. reflexivity. }
  split; [exact H|].
  exact (proj1 (Configure_takes_an_empty_setting_of_the_configuration unit
                  (fun _ => inl tt) (fun _ => EmptyString) emptyEnv
                  emptyCredentialFile [] freshResponse H)).
Defined.

(** The import of a trigger that the client reads stores it. *)
Lemma trigger_import_witness :
  let read := fun _ : string => (Some exampleTag, @None error) in
  let State_Set := fun (_ : option tagmanager.Tag) (m : tagmanager.Tag) =>
                     (Some m, @nil diag.Diagnostic) in
  let resp := {| resources.Diagnostics := []; resources.State_ := None |} in
  ("7"%string <> EmptyString) /\
  resources.triggerResource_ImportState tagmanager.Tag tagmanager.Tag
    (option tagmanager.Tag) read (fun t => t) State_Set (fun _ => EmptyString)
    "7" resp
  = resources.Returned
      {| resources.Diagnostics := []; resources.State_ := Some exampleTag |}.
Proof.
  intros read State_Set resp.
  assert (H : "7"%string <> EmptyString) by discriminate.
  split; [exact H|].
  exact (proj1 (trigger_import_stores_the_trigger_read tagmanager.Tag tagmanager.Tag
                  (option tagmanager.Tag) read (fun t => t) State_Set
                  (fun _ => EmptyString) "7" resp H)
           exampleTag eq_refl).
Defined.
